(** * vcxproj: a layout-preserving streaming editor for project files

    A shallow embedding of [vcxproj.py] and the properties of its event
    pipeline: the normalizer [filter_chars], the stream-editing primitives
    [skip_to] and [set_content], the line reconstructor [to_lines], the
    indent annotator [compute_indent], the renderer [to_strings], the sink
    [line_writer] and the driver [filter_file].

    Modelling conventions.
    - A Python [str] is a [string]; [isspace] follows [str.isspace] on the
      code points below 256.
    - An item [(action, params)] is a constructor of [event]; an attribute
      dictionary ([OrderedDict]) is an association list in insertion order.
    - A toplevel coroutine (a [while True] loop around one [yield]) is its
      local variables together with the body of one iteration, a step
      function; [feed] iterates it over the items it receives and collects
      what it sends to its target.
    - A subcoroutine (called through [yield from]) is a computation in the
      monad [gen]: it reads received items, sends items to the target and
      returns a value, raises, or is left suspended at a [yield]. What is
      sent is always kept: a [target] of [None], a sink that drops the
      items, is the caller ignoring them.
    - The tokenizer, expat, is outside the program: [filter_file] takes
      what it does on the text of a file as a parameter, [ParseFile]. It
      reports character data in pieces, none of them empty.
      A file is its text; the [utf-8-sig] encoding of the write and the
      decoding by the tokenizer are left out.
    - [quoteattr] is that of [xml.sax.saxutils]. *)

From Stdlib Require Import ZArith Ascii String List Bool Lia.
From stdpp Require Import base tactics option list strings gmap.
Import ListNotations.

Local Open Scope string_scope.
Local Open Scope list_scope.

(** ** Strings *)

Module Str.

(** [str.isspace] for one character. *)
Definition isspace (c : ascii) : bool :=
  let n := nat_of_ascii c in
  (((9 <=? n) && (n <=? 13)) || ((28 <=? n) && (n <=? 32))
   || (n =? 133) || (n =? 160))%nat.

Fixpoint lstrip (s : string) : string :=
  match s with
  | EmptyString => EmptyString
  | String c s' => if isspace c then lstrip s' else s
  end.

Fixpoint rstrip (s : string) : string :=
  match s with
  | EmptyString => EmptyString
  | String c s' =>
      match rstrip s' with
      | EmptyString => if isspace c then EmptyString else String c EmptyString
      | r => String c r
      end
  end.

(** [s.strip()] *)
Definition strip (s : string) : string := rstrip (lstrip s).

(** The truth value of a string: [not s] is [negb (truthy s)]. *)
Definition truthy (s : string) : bool :=
  match s with EmptyString => false | _ => true end.

(** [c in s] for a one-character string [c]. *)
Fixpoint contains (c : ascii) (s : string) : bool :=
  match s with
  | EmptyString => false
  | String c' s' => Ascii.eqb c' c || contains c s'
  end.

Fixpoint all_space (s : string) : bool :=
  match s with
  | EmptyString => true
  | String c s' => isspace c && all_space s'
  end.

(** [s.split(sep)] for a one-character separator: never empty. *)
Fixpoint split (sep : ascii) (s : string) : list string :=
  match s with
  | EmptyString => [EmptyString]
  | String c s' =>
      if Ascii.eqb c sep then EmptyString :: split sep s'
      else match split sep s' with
           | h :: t => String c h :: t
           | [] => [String c EmptyString]
           end
  end.

(** [sep.join(l)] *)
Fixpoint join (sep : string) (l : list string) : string :=
  match l with
  | [] => EmptyString
  | [x] => x
  | x :: l' => x +:+ sep +:+ join sep l'
  end.

(** [s * n] *)
Fixpoint repeat (s : string) (n : nat) : string :=
  match n with
  | O => EmptyString
  | S n' => s +:+ repeat s n'
  end.

Definition concat (l : list string) : string :=
  fold_right String.append EmptyString l.

(** [s.replace(c, r)] for a one-character [c]. *)
Fixpoint replace (c : ascii) (r : string) (s : string) : string :=
  match s with
  | EmptyString => EmptyString
  | String c' s' =>
      (if Ascii.eqb c' c then r else String c' EmptyString) +:+ replace c r s'
  end.

Definition LF : ascii := ascii_of_nat 10.
Definition CR : ascii := ascii_of_nat 13.
Definition TAB : ascii := ascii_of_nat 9.
Definition CRLF : string := String CR (String LF EmptyString).

End Str.

(** ** Items *)

Definition attrs_t : Type := list (string * string).

(** The items that travel between the stages up to the line reconstructor. *)
Inductive event : Type :=
| start_elem (name : string) (attrs : attrs_t)
| end_elem (name : string)
| chars (content : string)
| noop.

(** What a raised exception is. *)
Inductive exn : Type :=
| AssertionError (msg : option string)
| KeyError (key : string)
| StopIteration
| FileNotFoundError.

(** How a coroutine that was fed finitely many items stands. *)
Inductive status (R : Type) : Type :=
| Returned (r : R) (rest : list event)
| Raised (e : exn)
| Suspended.
Arguments Returned {R} r rest.
Arguments Raised {R} e.
Arguments Suspended {R}.

(** ** Toplevel coroutines as step functions *)

Section Feed.
Context {S I O : Type}.

(** A loop body that cannot raise. *)
Fixpoint feed (step : S -> I -> S * list O) (s : S) (items : list I)
  : S * list O :=
  match items with
  | [] => (s, [])
  | i :: items' =>
      let '(s', out) := step s i in
      let '(s'', outs) := feed step s' items' in
      (s'', out ++ outs)
  end.

(** A loop body that may raise: what was sent before, and the exception
    or the state reached. *)
Fixpoint feed_exn (step : S -> I -> exn + S * list O) (s : S)
  (items : list I) : list O * (exn + S) :=
  match items with
  | [] => ([], inr s)
  | i :: items' =>
      match step s i with
      | inl e => ([], inl e)
      | inr (s', out) =>
          let '(outs, r) := feed_exn step s' items' in (out ++ outs, r)
      end
  end.
End Feed.

(** ** The tokenizer adapter: [ExpatParser] *)

(** The handler calls expat makes while it parses. *)
Inductive expat_call : Type :=
| StartElement (name : string) (attrs : list string)
| EndElement (name : string)
| CharacterData (data : string).

(** [zip(iattrs, iattrs)] over one iterator: consecutive pairs. *)
Fixpoint zip_pairs (l : list string) : attrs_t :=
  match l with
  | k :: v :: l' => (k, v) :: zip_pairs l'
  | _ => []
  end.

(** [d[k] = v] on an [OrderedDict]. *)
Fixpoint odict_set (k v : string) (d : attrs_t) : attrs_t :=
  match d with
  | [] => [(k, v)]
  | (k', v') :: d' =>
      if String.eqb k' k then (k', v) :: d' else (k', v') :: odict_set k v d'
  end.

Definition OrderedDict (items : attrs_t) : attrs_t :=
  fold_left (fun d kv => odict_set (fst kv) (snd kv) d) items [].

(** [on_start_element], [on_end_element], [on_characters]: the item each
    handler sends to the pipeline. *)
Definition on_call (c : expat_call) : event :=
  match c with
  | StartElement name attrs => start_elem name (OrderedDict (zip_pairs attrs))
  | EndElement name => end_elem name
  | CharacterData content => chars content
  end.

(** ** The normalizer: [filter_chars] *)

Record fc_state : Type := FcState {
  content : option string;   (* not None after a start_elem *)
  has_content : bool         (* True after a start_elem followed by a chars *)
}.

Definition fc_init : fc_state := FcState None false.

Definition filter_chars_step (st : fc_state) (item : event)
  : fc_state * list event :=
  match item with
  | chars c =>
      match content st with
      | Some acc => (FcState (Some (acc +:+ c)) true, [])
      | None => (st, [])
      end
  | start_elem _ _ => (FcState (Some "") false, [item])
  | end_elem _ =>
      let extra :=
        match content st with
        | Some acc =>
            if has_content st then
              if Str.contains Str.LF acc && negb (Str.truthy (Str.strip acc))
              then [noop]
              else [chars acc]
            else []
        | None => []
        end in
      (FcState None false, extra ++ [item])
  | noop => (st, [item])
  end.

Definition filter_chars_from (st : fc_state) (items : list event) : list event :=
  snd (feed filter_chars_step st items).

Definition filter_chars (items : list event) : list event :=
  filter_chars_from fc_init items.

Definition fc_state_after (items : list event) : fc_state :=
  fst (feed filter_chars_step fc_init items).

(** [geninput] *)
Definition geninput (items : list event) : list event := filter_chars items.

(** ** Subcoroutines: the monad [gen] *)

(** A subcoroutine run on the items still to come: what it sends to the
    target, and how it ends. *)
Definition gen (R : Type) : Type := list event -> list event * status R.

#[global] Instance gen_ret : MRet gen :=
  fun R (r : R) items => ([], Returned r items).

#[global] Instance gen_bind : MBind gen :=
  fun A B (k : A -> gen B) (m : gen A) items =>
    match m items with
    | (out, Returned a rest) =>
        let '(out', st) := k a rest in (out ++ out', st)
    | (out, Raised e) => (out, Raised e)
    | (out, Suspended) => (out, Suspended)
    end.

(** [item = yield] *)
Definition yield : gen event :=
  fun items =>
    match items with
    | [] => ([], Suspended)
    | item :: rest => ([], Returned item rest)
    end.

(** [target.send(item)] *)
Definition send (item : event) : gen unit :=
  fun items => ([item], Returned tt items).

Definition raise {R : Type} (e : exn) : gen R :=
  fun _ => ([], Raised e).

(** [assert b, msg] *)
Definition assert (b : bool) (msg : option string) : gen unit :=
  if b then mret tt else raise (AssertionError msg).

(** ** [skip_to] *)

(** An item sent to the target ahead of what the rest of the loop does. *)
Definition sent {R : Type} (item : event) (r : list event * status R)
  : list event * status R :=
  (item :: fst r, snd r).

Definition is_None {A : Type} (o : option A) : bool :=
  match o with None => true | Some _ => false end.

Definition is_empty {A : Type} (l : list A) : bool :=
  match l with [] => true | _ => false end.

(** The loop of [skip_to]; [element_stack] has its top first. *)
Fixpoint skip_to_loop (name : option string)
  (attr_test : option (attrs_t -> bool)) (element_stack : list string)
  (items : list event) : list event * status (bool * event) :=
  let match_nothing := is_None name && is_None attr_test in
  match items with
  | [] => ([], Suspended)
  | item :: items' =>
      match item with
      | start_elem n a =>
          if negb match_nothing && is_empty element_stack
             && match name with None => true | Some x => String.eqb n x end
             && match attr_test with None => true | Some t => t a end
          then ([], Returned (true, item) items')
          else sent item (skip_to_loop name attr_test (n :: element_stack) items')
      | end_elem n =>
          match element_stack with
          | [] => ([], Returned (false, item) items')
          | e :: element_stack' =>
              if String.eqb e n
              then sent item (skip_to_loop name attr_test element_stack' items')
              else ([], Raised (AssertionError None))
          end
      | _ => sent item (skip_to_loop name attr_test element_stack items')
      end
  end.

Definition skip_to (name : option string) (attr_test : option (attrs_t -> bool))
  : gen (bool * event) :=
  skip_to_loop name attr_test [].

(** ** [send_element] and [set_content] *)

Definition send_element (name : string) (attrs : attrs_t)
  (content : option string) : gen unit :=
  send (start_elem name attrs) ;;
  match content with
  | Some c => send (chars c)
  | None => mret tt
  end ;;
  send (end_elem name).

Definition is_chars (item : event) : bool :=
  match item with chars _ => true | _ => false end.

Definition set_content (name : string) (content : string) : gen event :=
  '(found, item) ← skip_to (Some name) None ;
  if (found : bool) then
    match item with
    | start_elem _ attrs =>
        item ← yield ;
        assert (is_chars item) None ;;
        '(_, item) ← skip_to None None ;
        send_element name attrs (Some content) ;;
        '(found, item) ← skip_to (Some name) None ;
        assert (negb found) (Some ("Duplicate element: " +:+ name)) ;;
        mret item
    | _ => raise (KeyError "attrs")
    end
  else
    send_element name [] (Some content) ;;
    mret item.

(** ** The line reconstructor: [to_lines] *)

Inductive line_item : Type :=
| start_elem_line (name : string) (attrs : attrs_t)
| empty_elem_line (name : string) (attrs : attrs_t)
| content_elem_line (name : string) (attrs : attrs_t) (content : string)
| end_elem_line (name : string).

(** Where [to_lines] is suspended. At every [yield] of [to_lines] itself,
    and at the [return (yield)] of its subcoroutines, the item received is
    the next [(action, params)] the loop of [to_lines] looks at. *)
Inductive tl_state : Type :=
| at_to_lines
| at_post_start_elem (name : string) (attrs : attrs_t)
| at_elem_chars (name : string) (attrs : attrs_t) (content : string).

(** One turn of the loop of [to_lines] on the current [(action, params)]. *)
Definition to_lines_dispatch (item : event) : tl_state * list line_item :=
  match item with
  | start_elem name attrs => (at_post_start_elem name attrs, [])
  | end_elem name => (at_to_lines, [end_elem_line name])
  | _ => (at_to_lines, [])
  end.

Definition to_lines_step (st : tl_state) (item : event)
  : exn + tl_state * list line_item :=
  match st with
  | at_to_lines => inr (to_lines_dispatch item)
  | at_post_start_elem name attrs =>
      (* to_lines_post_start_elem *)
      match item with
      | end_elem n =>
          if String.eqb n name
          then inr (at_to_lines, [empty_elem_line name attrs])
          else inl (AssertionError None)
      | chars c => inr (at_elem_chars name attrs ("" +:+ c), [])
      | _ =>
          let '(st', out) := to_lines_dispatch item in
          inr (st', start_elem_line name attrs :: out)
      end
  | at_elem_chars name attrs content =>
      (* to_lines_elem_chars *)
      match item with
      | chars c => inr (at_elem_chars name attrs (content +:+ c), [])
      | end_elem n =>
          if String.eqb n name
          then inr (at_to_lines, [content_elem_line name attrs content])
          else inl (AssertionError None)
      | _ =>
          if negb (Str.truthy (Str.strip content))
          then
            let '(st', out) := to_lines_dispatch item in
            inr (st', start_elem_line name attrs :: out)
          else inl (AssertionError None)
      end
  end.

Definition to_lines (items : list event) : list line_item * (exn + tl_state) :=
  feed_exn to_lines_step at_to_lines items.

(** ** The indent annotator: [compute_indent] *)

Definition compute_indent_step (indent : Z) (item : line_item)
  : Z * list (Z * line_item) :=
  let indent :=
    match item with end_elem_line _ => (indent - 1)%Z | _ => indent end in
  let out := [(indent, item)] in
  match item with
  | start_elem_line _ _ => ((indent + 1)%Z, out)
  | _ => (indent, out)
  end.

Definition compute_indent (items : list line_item) : list (Z * line_item) :=
  snd (feed compute_indent_step 0%Z items).

(** ** The renderer: [to_strings] *)

Definition xml_indent (n : Z) : string := Str.repeat "  " (Z.to_nat n).

(** [xml.sax.saxutils.escape] with the entities [quoteattr] adds. *)
Definition escape_attr (data : string) : string :=
  let data := Str.replace "&" "&amp;" data in
  let data := Str.replace ">" "&gt;" data in
  let data := Str.replace "<" "&lt;" data in
  let data := Str.replace Str.LF "&#10;" data in
  let data := Str.replace Str.CR "&#13;" data in
  Str.replace Str.TAB "&#9;" data.

Definition dquote : ascii := ascii_of_nat 34.
Definition squote : ascii := ascii_of_nat 39.

(** [xml.sax.saxutils.quoteattr] *)
Definition quoteattr (data : string) : string :=
  let data := escape_attr data in
  if Str.contains dquote data then
    if Str.contains squote data then
      String dquote (Str.replace dquote "&quot;" data +:+ String dquote "")
    else String squote (data +:+ String squote "")
  else String dquote (data +:+ String dquote "").

Definition xml_attrs (attrs : attrs_t) : string :=
  Str.concat (map (fun nv => " " +:+ fst nv +:+ "=" +:+ quoteattr (snd nv)) attrs).

Definition xml_tag_open_elem (name : string) (attrs : attrs_t) : string :=
  "<" +:+ name +:+ xml_attrs attrs +:+ ">".

Definition xml_tag_empty_elem (name : string) (attrs : attrs_t) : string :=
  "<" +:+ name +:+ xml_attrs attrs +:+ " />".

Definition xml_tag_close_elem (name : string) : string :=
  "</" +:+ name +:+ ">".

(** The line [to_strings] sends when it is created, before its first [yield]. *)
Definition xml_declaration : string :=
  "<?xml version=" +:+ String dquote ("1.0" +:+ String dquote
  (" encoding=" +:+ String dquote ("utf-8" +:+ String dquote "?>"))).

(** One turn of the loop of [to_strings]: the strings sent for one item. *)
Definition to_strings_item (item : Z * line_item) : list string :=
  let '(indent, line) := item in
  match line with
  | start_elem_line name attrs =>
      [xml_indent indent +:+ xml_tag_open_elem name attrs]
  | empty_elem_line name attrs =>
      [xml_indent indent +:+ xml_tag_empty_elem name attrs]
  | content_elem_line name attrs content =>
      let element_str :=
        xml_indent indent +:+ xml_tag_open_elem name attrs +:+ content
        +:+ xml_tag_close_elem name in
      Str.split Str.LF element_str
  | end_elem_line name =>
      [xml_indent indent +:+ xml_tag_close_elem name]
  end.

Definition to_strings (items : list (Z * line_item)) : list string :=
  xml_declaration :: flat_map to_strings_item items.

(** ** The sink: [line_writer] *)

(** The state is whether the first line is still to come; the output is
    what is passed to [writer.write]. *)
Definition line_writer_step (newline : string) (first : bool) (line : string)
  : bool * list string :=
  if first then (false, [line]) else (false, [newline +:+ line]).

(** The text in the writer after the lines were received. *)
Definition line_writer (newline : string) (lines : list string) : string :=
  Str.concat (snd (feed (line_writer_step newline) true lines)).

(** ** [genoutput] *)

(** The lines that reach [line_writer], and the exception if a stage raised. *)
Definition genoutput_lines (items : list event) : list string * option exn :=
  let '(lines, r) := to_lines items in
  (to_strings (compute_indent lines),
   match r with inl e => Some e | inr _ => None end).

(** The text in the writer, and the exception if a stage raised. *)
Definition genoutput (items : list event) : string * option exn :=
  let '(lines, e) := genoutput_lines items in
  (line_writer Str.CRLF lines, e).

(** ** The drivers: [process_file] and [filter_file] *)

(** What [parser.ParseFile] does on the bytes of a file: the handler calls
    it makes, in order, and the message of the [ExpatError] it ends with
    on malformed markup. *)
Record parse : Type := Parse {
  calls : list expat_call;
  error : option string
}.

(** How a driver ends: it returns, with what it printed to [stderr], or an
    exception leaves it. *)
Inductive outcome : Type :=
| Completed (stderr : list string)
| Failed (e : exn).

(** A filter coroutine, on the items it receives from the normalizer. *)
Definition filter : Type := gen unit.

(** [lambda x: x]: the filter is the output coroutine itself. *)
Definition no_filter : filter := fun items => (items, Suspended).

Section Drivers.

(** The tokenizer, on the text of a file. *)
Variable ParseFile : string -> parse.

(** The pipeline [geninput(genfilter(genoutput(output_stream)))] driven by
    the handler calls [cs]: the text in [output_stream], and the exception
    that left the pipeline, if any. Each stage hands an item on before it
    takes the next one, so an exception of the output stages comes before
    a later one of the filter. *)
Definition run_pipeline (genfilter : filter) (cs : list expat_call)
  : string * option exn :=
  let '(items, st) := genfilter (geninput (map on_call cs)) in
  let '(text, e) := genoutput items in
  (text,
   match e with
   | Some e => Some e
   | None =>
       match st with
       | Raised e => Some e
       | Returned _ _ => Some StopIteration
       | Suspended => None
       end
   end).

(** [filter_file(input_filename, genfilter, output_filename)] on the files
    [fs]: the files afterwards, and how the call ends.
    - The pipeline is created, and with it the filter is run up to its
      first [yield], before [process_file] opens the input: with no input
      file, an exception of that start comes first, and
      [FileNotFoundError] otherwise. With an input file, what the filter
      does before its first [yield] is the start of what it does on the
      items.
    - [process_file] catches an [ExpatError], prints its message and
      returns; any other exception leaves [filter_file] there, before the
      output file is opened.
    - [codecs.open(output_filename, "w", "utf-8-sig")] empties the output
      file and [file.write] writes the text. On the texts of this model
      the encoding cannot fail, so the two are one update of the file; a
      text with a code point that cannot be encoded, on which [file.write]
      raises and leaves the output file empty, is outside the model. *)
Definition filter_file (fs : gmap string string) (input_filename : string)
  (genfilter : option filter) (output_filename : string)
  : gmap string string * outcome :=
  let genfilter := match genfilter with Some f => f | None => no_filter end in
  match fs !! input_filename with
  | None =>
      match run_pipeline genfilter [] with
      | (_, Some e) => (fs, Failed e)
      | (_, None) => (fs, Failed FileNotFoundError)
      end
  | Some input =>
      let p := ParseFile input in
      match run_pipeline genfilter (calls p) with
      | (_, Some e) => (fs, Failed e)
      | (text, None) =>
          (<[output_filename := text]> fs,
           Completed match error p with
                     | Some msg => ["Error: " +:+ msg]
                     | None => []
                     end)
      end
  end.

End Drivers.

(** ** A filter built from the primitives *)

(** [while True: target.send((yield))] *)
Definition forward_items : gen unit := fun items => (items, Suspended).

(** The filter that reaches the first element [enclosing] at the top level
    with [skip_to], sets the content of its child [name] with
    [set_content], and forwards everything else. *)
Definition upsert_filter (enclosing name content : string) : filter :=
  '(found, item) ← skip_to (Some enclosing) None ;
  send item ;;
  (if (found : bool) then item ← set_content name content ; send item
   else mret tt) ;;
  forward_items.

(** One pass of a filter over a whole stream of items: the stream it sends
    on, unless it raises. *)
Definition pass (f : filter) (items : list event) : option (list event) :=
  match f items with
  | (out, Suspended) => Some out
  | _ => None
  end.

(** ** Shapes of streams *)

Definition is_text (item : event) : bool :=
  match item with chars _ | noop => true | _ => false end.

(** Every [chars] and every [noop] of the stream has an [end_elem] next. *)
Definition text_before_end (items : list event) : Prop :=
  forall pre item rest,
    items = pre ++ item :: rest -> is_text item = true ->
    exists n rest', rest = end_elem n :: rest'.

Fixpoint text_before_endb (items : list event) : bool :=
  match items with
  | [] => true
  | item :: items' =>
      (if is_text item
       then match items' with end_elem _ :: _ => true | _ => false end
       else true)
      && text_before_endb items'
  end.

(** A run of complete siblings: items and whole elements, properly nested,
    whose elements at the top level all satisfy [ok]. *)
Inductive siblings (ok : string -> attrs_t -> bool) : list event -> Prop :=
| siblings_nil : siblings ok []
| siblings_chars c l : siblings ok l -> siblings ok (chars c :: l)
| siblings_noop l : siblings ok l -> siblings ok (noop :: l)
| siblings_elem n a body l :
    ok n a = true ->
    siblings (fun _ _ => true) body ->
    siblings ok l ->
    siblings ok (start_elem n a :: body ++ end_elem n :: l).

(** What is forwarded while the elements of [element_stack], top first,
    get closed: for each of them the rest of its body and its [end_elem],
    and then a run of siblings at the level of the call. *)
Inductive closes (ok : string -> attrs_t -> bool)
  : list string -> list event -> Prop :=
| closes_level l : siblings ok l -> closes ok [] l
| closes_elem n element_stack body l :
    siblings (fun _ _ => true) body ->
    closes ok element_stack l ->
    closes ok (n :: element_stack) (body ++ end_elem n :: l).

(** The elements [skip_to(target, name, attr_test)] passes over. *)
Definition no_match (name : option string) (attr_test : option (attrs_t -> bool))
  (n : string) (a : attrs_t) : bool :=
  negb (negb (is_None name && is_None attr_test)
        && match name with None => true | Some x => String.eqb n x end
        && match attr_test with None => true | Some t => t a end).

(** What [filter_chars] sends ahead of an [end_elem], given the pieces of
    character data received since the [start_elem]. *)
Definition body_items (pieces : list string) : list event :=
  match pieces with
  | [] => []
  | _ =>
      let c := Str.concat pieces in
      if Str.contains Str.LF c && Str.all_space c then [noop] else [chars c]
  end.

(** ** Lines *)

Definition map_first {A : Type} (f : A -> A) (l : list A) : list A :=
  match l with
  | [] => []
  | x :: l' => f x :: l'
  end.

Fixpoint map_last {A : Type} (f : A -> A) (l : list A) : list A :=
  match l with
  | [] => []
  | [x] => [f x]
  | x :: l' => x :: map_last f l'
  end.

(** No line feed in any attribute name. *)
Definition attr_names_one_line (attrs : attrs_t) : bool :=
  forallb (fun nv => negb (Str.contains Str.LF (fst nv))) attrs.

(** Output [o] ahead of what a run [r] puts out. *)
Definition ahead {A B : Type} (o : list A) (r : list A * B) : list A * B :=
  (o ++ fst r, snd r).

(** The line [to_lines] still owes for the [start_elem] it holds. *)
Definition pending_line (st : tl_state) : list line_item :=
  match st with
  | at_post_start_elem name attrs => [start_elem_line name attrs]
  | _ => []
  end.

Definition holds_chars (st : tl_state) : bool :=
  match st with at_elem_chars _ _ _ => true | _ => false end.

(** ** The pipeline with no filter *)

(** The lines that reach [line_writer] for the handler calls [cs], and the
    exception if a stage raised. *)
Definition rendered_lines (cs : list expat_call) : list string * option exn :=
  genoutput_lines (geninput (map on_call cs)).

(** The value of [indent] in [compute_indent] after the handler calls [cs]. *)
Definition indent_after (cs : list expat_call) : Z :=
  fst (feed compute_indent_step 0%Z (fst (to_lines (geninput (map on_call cs))))).

(** ** Documents in the layout of Visual Studio *)

(** The documents of the round trip: a tree of elements that are empty,
    hold character data only, or hold child elements only, written with
    an indent of two spaces per level and CRLF between lines; and the
    handler calls the tokenizer makes on such a document. *)
Module Layout.

#[warnings="-register-all"]
Inductive node : Type :=
| Empty (name : string) (attrs : attrs_t)
| Content (name : string) (attrs : attrs_t) (pieces : list string)
| Parent (name : string) (attrs : attrs_t) (children : list node).

Definition indent (depth : nat) : string := Str.repeat "  " depth.

(** Character data in a file: written as it is, a line feed as CRLF. *)
Definition write_text (s : string) : string :=
  Str.replace Str.LF Str.CRLF s.

(** A character of an attribute value in a file: the markup characters,
    the line feed, the carriage return and the tab as references, and so
    the double quote in a value between double quotes. *)
Definition write_char (quote : ascii) (c : ascii) : string :=
  if Ascii.eqb c "&" then "&amp;"
  else if Ascii.eqb c "<" then "&lt;"
  else if Ascii.eqb c ">" then "&gt;"
  else if Ascii.eqb c Str.LF then "&#10;"
  else if Ascii.eqb c Str.CR then "&#13;"
  else if Ascii.eqb c Str.TAB then "&#9;"
  else if Ascii.eqb c dquote && Ascii.eqb quote dquote then "&quot;"
  else String c "".

Fixpoint write_chars (quote : ascii) (s : string) : string :=
  match s with
  | EmptyString => EmptyString
  | String c s' => write_char quote c +:+ write_chars quote s'
  end.

(** An attribute value in a file: between double quotes, or between
    single quotes when the value has a double quote and no single quote. *)
Definition write_value (s : string) : string :=
  let quote :=
    if Str.contains dquote s && negb (Str.contains squote s)
    then squote else dquote in
  String quote (write_chars quote s +:+ String quote "").

Definition write_attrs (attrs : attrs_t) : string :=
  Str.concat
    (map (fun nv => " " +:+ fst nv +:+ "=" +:+ write_value (snd nv)) attrs).

(** The text of an element at a depth, without a line break after it. *)
Fixpoint write (depth : nat) (n : node) : string :=
  match n with
  | Empty name attrs =>
      indent depth +:+ "<" +:+ name +:+ write_attrs attrs +:+ " />"
  | Content name attrs pieces =>
      indent depth +:+ "<" +:+ name +:+ write_attrs attrs +:+ ">"
      +:+ write_text (Str.concat pieces) +:+ "</" +:+ name +:+ ">"
  | Parent name attrs children =>
      indent depth +:+ "<" +:+ name +:+ write_attrs attrs +:+ ">" +:+ Str.CRLF
      +:+ Str.concat (map (fun c => write (S depth) c +:+ Str.CRLF) children)
      +:+ indent depth +:+ "</" +:+ name +:+ ">"
  end.

(** The text of the file: the declaration and the root element. *)
Definition document (root : node) : string :=
  xml_declaration +:+ Str.CRLF +:+ write 0 root.

(** The attributes as expat passes them: names and values in turn. *)
Definition flat_attrs (attrs : attrs_t) : list string :=
  flat_map (fun nv => [fst nv; snd nv]) attrs.

(** The character data between two tags on consecutive lines, as the
    tokenizer reports it: the line break, as a line feed, and the indent
    of the second tag when there is one. *)
Definition space_pieces (depth : nat) : list string :=
  String Str.LF ""
  :: match depth with O => [] | _ => [indent depth] end.

(** The handler calls on the text of an element: its tags, its character
    data in the pieces it comes in, and the line break and indent ahead of
    every child and of the close tag of a parent. *)
Fixpoint calls (depth : nat) (n : node) : list expat_call :=
  match n with
  | Empty name attrs =>
      [StartElement name (flat_attrs attrs); EndElement name]
  | Content name attrs pieces =>
      StartElement name (flat_attrs attrs)
      :: map CharacterData pieces ++ [EndElement name]
  | Parent name attrs children =>
      StartElement name (flat_attrs attrs)
      :: flat_map (fun c => map CharacterData (space_pieces (S depth))
                              ++ calls (S depth) c) children
      ++ map CharacterData (space_pieces depth) ++ [EndElement name]
  end.

Definition parse_of (root : node) : parse := Parse (calls 0 root) None.

(** The handler calls of a tokenizer that reads the text of an element at
    a depth: as in [calls], with the character data of an element, and
    the line break and indent between two tags on consecutive lines, in
    any pieces. *)
Inductive tokens : nat -> node -> list expat_call -> Prop :=
| tokens_Empty depth name attrs :
    tokens depth (Empty name attrs)
      [StartElement name (flat_attrs attrs); EndElement name]
| tokens_Content depth name attrs pieces pieces' :
    Str.concat pieces' = Str.concat pieces ->
    tokens depth (Content name attrs pieces)
      (StartElement name (flat_attrs attrs)
       :: map CharacterData pieces' ++ [EndElement name])
| tokens_Parent depth name attrs children body space :
    tokens_children (S depth) children body ->
    Str.concat space = String Str.LF (indent depth) ->
    tokens depth (Parent name attrs children)
      (StartElement name (flat_attrs attrs)
       :: body ++ map CharacterData space ++ [EndElement name])
with tokens_children : nat -> list node -> list expat_call -> Prop :=
| tokens_nil depth : tokens_children depth [] []
| tokens_cons depth space c cs children body :
    Str.concat space = String Str.LF (indent depth) ->
    tokens depth c cs ->
    tokens_children depth children body ->
    tokens_children depth (c :: children)
      (map CharacterData space ++ cs ++ body).

(** The handler calls of a tokenizer on a text that holds the elements of
    a document, whatever its layout: an element with no character data and
    no child, one with character data that is not whitespace with a line
    break, one with only whitespace with a line break, and one with child
    elements, with any character data between its tags and theirs. *)
Inductive elements : node -> list expat_call -> Prop :=
| elements_Empty name attrs :
    elements (Empty name attrs)
      [StartElement name (flat_attrs attrs); EndElement name]
| elements_Content name attrs pieces pieces' :
    Str.concat pieces' = Str.concat pieces ->
    elements (Content name attrs pieces)
      (StartElement name (flat_attrs attrs)
       :: map CharacterData pieces' ++ [EndElement name])
| elements_Parent_nil name attrs space :
    Str.contains Str.LF (Str.concat space) = true ->
    Str.all_space (Str.concat space) = true ->
    elements (Parent name attrs [])
      (StartElement name (flat_attrs attrs)
       :: map CharacterData space ++ [EndElement name])
| elements_Parent name attrs c children body between :
    elements_children (c :: children) body ->
    elements (Parent name attrs (c :: children))
      (StartElement name (flat_attrs attrs)
       :: body ++ map CharacterData between ++ [EndElement name])
with elements_children : list node -> list expat_call -> Prop :=
| elements_nil : elements_children [] []
| elements_cons between c cs children body :
    elements c cs ->
    elements_children children body ->
    elements_children (c :: children)
      (map CharacterData between ++ cs ++ body).

(** The tokenizer reports the elements of the document, without error. *)
Definition parses (p : parse) (root : node) : Prop :=
  let '(Parse cs e) := p in elements root cs /\ e = None.

(** The tokenizer reads the document as it is laid out, without error. *)
Definition reads (p : parse) (root : node) : Prop :=
  let '(Parse cs e) := p in tokens 0 root cs /\ e = None.

(** Names on one line. *)
Definition plain_name (s : string) : bool := negb (Str.contains Str.LF s).

(** Character data that is read back as it is written, in one [chars]
    item: no markup character that has to be written as a reference, no
    carriage return, and neither empty nor whitespace with a line break. *)
Definition plain_text (s : string) : bool :=
  negb (Str.contains "&" s || Str.contains "<" s || Str.contains Str.CR s)
  && Str.truthy s
  && negb (Str.contains Str.LF s && Str.all_space s).

(** Character data that the normalizer sends on in one [chars] item. *)
Definition readable_text (s : string) : bool :=
  Str.truthy s && negb (Str.contains Str.LF s && Str.all_space s).

Fixpoint distinct_names (attrs : attrs_t) : bool :=
  match attrs with
  | [] => true
  | (k, _) :: attrs' =>
      forallb (fun nv => negb (String.eqb (fst nv) k)) attrs'
      && distinct_names attrs'
  end.

Definition plain_tag (name : string) (attrs : attrs_t) : bool :=
  plain_name name
  && forallb (fun nv => plain_name (fst nv)) attrs
  && distinct_names attrs.

Fixpoint plain (n : node) : bool :=
  match n with
  | Empty name attrs => plain_tag name attrs
  | Content name attrs pieces =>
      plain_tag name attrs && plain_text (Str.concat pieces)
  | Parent name attrs children =>
      plain_tag name attrs && forallb plain children
  end.

(** The elements with tags as in [plain] and character data in [text_ok]. *)
Fixpoint shaped (text_ok : string -> bool) (n : node) : bool :=
  match n with
  | Empty name attrs => plain_tag name attrs
  | Content name attrs pieces =>
      plain_tag name attrs && text_ok (Str.concat pieces)
  | Parent name attrs children =>
      plain_tag name attrs && forallb (shaped text_ok) children
  end.

(** What the normalizer sends for an element. *)
Fixpoint items (n : node) : list event :=
  match n with
  | Empty name attrs => [start_elem name attrs; end_elem name]
  | Content name attrs pieces =>
      [start_elem name attrs; chars (Str.concat pieces); end_elem name]
  | Parent name attrs children =>
      start_elem name attrs
      :: match children with
         | [] => [noop]
         | _ => flat_map items children
         end
      ++ [end_elem name]
  end.

(** The line items of an element. *)
Fixpoint lines (n : node) : list line_item :=
  match n with
  | Empty name attrs => [empty_elem_line name attrs]
  | Content name attrs pieces =>
      [content_elem_line name attrs (Str.concat pieces)]
  | Parent name attrs children =>
      start_elem_line name attrs
      :: flat_map lines children ++ [end_elem_line name]
  end.

(** The strings the renderer sends for an element at a depth. *)
Fixpoint rendered (depth : nat) (n : node) : list string :=
  match n with
  | Empty name attrs =>
      [indent depth +:+ xml_tag_empty_elem name attrs]
  | Content name attrs pieces =>
      Str.split Str.LF
        (indent depth +:+ xml_tag_open_elem name attrs +:+ Str.concat pieces
         +:+ xml_tag_close_elem name)
  | Parent name attrs children =>
      (indent depth +:+ xml_tag_open_elem name attrs)
      :: flat_map (rendered (S depth)) children
      ++ [indent depth +:+ xml_tag_close_elem name]
  end.

End Layout.

(** ** Measures of streams, lines and text *)

Definition is_tag (item : event) : bool :=
  match item with start_elem _ _ | end_elem _ => true | _ => false end.

(** The items are the start of a well-nested stream inside the elements of
    [element_stack], top first: every [end_elem] closes the element that
    was opened last and is still open. *)
Fixpoint nested (element_stack : list string) (items : list event) : bool :=
  match items with
  | [] => true
  | start_elem n _ :: items' => nested (n :: element_stack) items'
  | end_elem n :: items' =>
      match element_stack with
      | e :: element_stack' => String.eqb e n && nested element_stack' items'
      | [] => false
      end
  | _ :: items' => nested element_stack items'
  end.

Definition closing (line : line_item) : Z :=
  match line with end_elem_line _ => 1%Z | _ => 0%Z end.

(** The start lines less the end lines. *)
Fixpoint depth_after (lines : list line_item) : Z :=
  match lines with
  | [] => 0%Z
  | start_elem_line _ _ :: lines' => (1 + depth_after lines')%Z
  | end_elem_line _ :: lines' => (depth_after lines' - 1)%Z
  | _ :: lines' => depth_after lines'
  end.

(** Whether [to_lines], suspended in [st], has its assertions hold on the
    items to come: the element it holds is the one open last, and after a
    [chars] the next item is an [end_elem]. *)
Definition tl_ready (st : tl_state) (element_stack : list string)
  (items : list event) : bool :=
  match st with
  | at_to_lines => true
  | at_post_start_elem name _ =>
      match element_stack with e :: _ => String.eqb e name | [] => false end
  | at_elem_chars name _ _ =>
      match element_stack with e :: _ => String.eqb e name | [] => false end
      && match items with [] | end_elem _ :: _ => true | _ => false end
  end.

(** The elements of a stream and of its lines, with their attributes. *)
Definition opened (item : event) : list (string * attrs_t) :=
  match item with start_elem name attrs => [(name, attrs)] | _ => [] end.

Definition line_elements (line : line_item) : list (string * attrs_t) :=
  match line with
  | start_elem_line name attrs | empty_elem_line name attrs
  | content_elem_line name attrs _ => [(name, attrs)]
  | end_elem_line _ => []
  end.

(** The element [to_lines] holds back until it has seen what follows. *)
Definition held (st : tl_state) : list (string * attrs_t) :=
  match st with
  | at_to_lines => []
  | at_post_start_elem name attrs | at_elem_chars name attrs _ => [(name, attrs)]
  end.

(** Whether the text has a line feed that does not come after a carriage
    return; [after_cr] tells whether the character before the text is one. *)
Fixpoint bare_lf (after_cr : bool) (s : string) : bool :=
  match s with
  | EmptyString => false
  | String c s' =>
      (Ascii.eqb c Str.LF && negb after_cr) || bare_lf (Ascii.eqb c Str.CR) s'
  end.

(** No line feed in the name of an element or of an attribute. *)
Definition tag_one_line (name : string) (attrs : attrs_t) : bool :=
  negb (Str.contains Str.LF name) && attr_names_one_line attrs.

Definition event_one_line (item : event) : bool :=
  match item with
  | start_elem name attrs => tag_one_line name attrs
  | end_elem name => negb (Str.contains Str.LF name)
  | _ => true
  end.

Definition line_one_line (line : line_item) : bool :=
  match line with
  | start_elem_line name attrs | empty_elem_line name attrs
  | content_elem_line name attrs _ => tag_one_line name attrs
  | end_elem_line name => negb (Str.contains Str.LF name)
  end.

Definition state_one_line (st : tl_state) : bool :=
  match st with
  | at_to_lines => true
  | at_post_start_elem name attrs | at_elem_chars name attrs _ =>
      tag_one_line name attrs
  end.

(** ** Editing a document *)

Definition node_name (n : Layout.node) : string :=
  match n with
  | Layout.Empty name _ | Layout.Content name _ _ | Layout.Parent name _ _ => name
  end.

(** No element of the list has the name. *)
Definition none_named (name : string) (children : list Layout.node) : bool :=
  forallb (fun c => negb (String.eqb (node_name c) name)) children.





(** ** The debugging aid: [item_logger] *)

(** What [item_logger] does, in order: a call of [writer], with its
    arguments, or an item sent to the target. *)
Inductive effect : Type :=
| Written (args : list string)
| Sent (item : event).

Section Logger.

(** [repr] on a [str]; the properties of [item_logger] do not depend on
    what it gives. An item has one of the four actions, so the branch
    [assert False, "Unexpected action"] is never taken. *)
Variable repr : string -> string.

(** One turn of the loop of [item_logger]; the state is [indent]. *)
Definition item_logger_step (prefix : string) (indent : Z) (item : event)
  : Z * list effect :=
  match item with
  | start_elem name attrs =>
      ((indent + 1)%Z,
       [Written [prefix +:+ Str.repeat "  " (Z.to_nat indent);
                 "start[" +:+ name +:+ "]:";
                 Str.join ", "
                   (map (fun kv => fst kv +:+ "=" +:+ repr (snd kv)) attrs)];
        Sent item])
  | end_elem name =>
      let indent := (indent - 1)%Z in
      (indent,
       [Written [prefix +:+ Str.repeat "  " (Z.to_nat indent);
                 "end[" +:+ name +:+ "]"];
        Sent item])
  | chars content =>
      (indent,
       [Written [prefix +:+ Str.repeat "  " (Z.to_nat indent); "chars:";
                 repr content];
        Sent item])
  | noop =>
      (indent,
       [Written [prefix +:+ Str.repeat "  " (Z.to_nat indent); "noop"];
        Sent item])
  end.

Definition item_logger (prefix : string) (items : list event) : list effect :=
  snd (feed (item_logger_step prefix) 0%Z items).

End Logger.

Definition sent_items (effects : list effect) : list event :=
  flat_map (fun e => match e with Sent item => [item] | Written _ => [] end)
    effects.

Definition written (effects : list effect) : list (list string) :=
  flat_map (fun e => match e with Written args => [args] | Sent _ => [] end)
    effects.

(** The [start_elem] items less the [end_elem] items. *)
Fixpoint open_after (items : list event) : Z :=
  match items with
  | [] => 0%Z
  | start_elem _ _ :: items' => (1 + open_after items')%Z
  | end_elem _ :: items' => (open_after items' - 1)%Z
  | _ :: items' => open_after items'
  end.

Definition ends_element (item : event) : Z :=
  match item with end_elem _ => 1%Z | _ => 0%Z end.

(** * Properties *)

(** ** Strings *)

Lemma append_cons (c : ascii) (s t : string) :
  String c s +:+ t = String c (s +:+ t).
Proof. reflexivity. Qed.

Lemma append_nil_l (s : string) : "" +:+ s = s.
Proof. reflexivity. Qed.

Lemma append_nil_r (s : string) : s +:+ "" = s.
Proof.
  induction s as [|c s IH]; [reflexivity|].
  now rewrite append_cons, IH.
Qed.

Lemma append_assoc (a b c : string) : (a +:+ b) +:+ c = a +:+ (b +:+ c).
Proof.
  induction a as [|x a IH]; [reflexivity|].
  now rewrite !append_cons, IH.
Qed.

Lemma concat_app (l1 l2 : list string) :
  Str.concat (l1 ++ l2) = Str.concat l1 +:+ Str.concat l2.
Proof.
  induction l1 as [|x l1 IH]; simpl; [reflexivity|].
  now rewrite IH, append_assoc.
Qed.

Lemma rstrip_all_space (s : string) :
  Str.all_space s = true -> Str.rstrip s = "".
Proof.
  induction s as [|c s IH]; simpl; [reflexivity|].
  intros [Hc Hs]%andb_prop. now rewrite (IH Hs), Hc.
Qed.

Lemma rstrip_nonspace (s : string) :
  Str.all_space s = false -> Str.rstrip s <> "".
Proof.
  induction s as [|c s IH]; simpl; [discriminate|].
  intros H. destruct (Str.rstrip s) eqn:E; [|discriminate].
  destruct (Str.isspace c) eqn:Hc; [|discriminate].
  simpl in H. exfalso. now apply IH.
Qed.

Lemma all_space_lstrip (s : string) :
  Str.all_space (Str.lstrip s) = Str.all_space s.
Proof.
  induction s as [|c s IH]; simpl; [reflexivity|].
  destruct (Str.isspace c) eqn:Hc; simpl; [exact IH|now rewrite Hc].
Qed.

(** [not s.strip()] holds exactly of the strings made of whitespace. *)
Lemma strip_falsy (s : string) :
  negb (Str.truthy (Str.strip s)) = Str.all_space s.
Proof.
  unfold Str.strip. rewrite <- (all_space_lstrip s).
  destruct (Str.all_space (Str.lstrip s)) eqn:E.
  - now rewrite (rstrip_all_space _ E).
  - apply rstrip_nonspace in E. now destruct (Str.rstrip (Str.lstrip s)).
Qed.

(** ** Feeding a step function *)

Lemma ahead_nil {A B : Type} (r : list A * B) : ahead [] r = r.
Proof. now destruct r. Qed.

Lemma ahead_ahead {A B : Type} (o1 o2 : list A) (r : list A * B) :
  ahead o1 (ahead o2 r) = ahead (o1 ++ o2) r.
Proof. unfold ahead. simpl. now rewrite app_assoc. Qed.

Lemma feed_app {S I O : Type} (step : S -> I -> S * list O) s l1 l2 :
  feed step s (l1 ++ l2) =
  let '(s1, o1) := feed step s l1 in
  let '(s2, o2) := feed step s1 l2 in
  (s2, o1 ++ o2).
Proof.
  revert s; induction l1 as [|i l1 IH]; intros s; simpl.
  - now destruct (feed step s l2).
  - destruct (step s i) as [s' o]. rewrite IH.
    destruct (feed step s' l1) as [s1 o1].
    destruct (feed step s1 l2) as [s2 o2].
    now rewrite app_assoc.
Qed.

Lemma feed_exn_app {S I O : Type} (step : S -> I -> exn + S * list O) s l1 l2 :
  feed_exn step s (l1 ++ l2) =
  match feed_exn step s l1 with
  | (o1, inl e) => (o1, inl e)
  | (o1, inr s1) =>
      let '(o2, r) := feed_exn step s1 l2 in (o1 ++ o2, r)
  end.
Proof.
  revert s; induction l1 as [|i l1 IH]; intros s; simpl.
  - now destruct (feed_exn step s l2).
  - destruct (step s i) as [e|[s' o]]; [reflexivity|].
    rewrite IH. destruct (feed_exn step s' l1) as [o1 [e|s1]]; [reflexivity|].
    destruct (feed_exn step s1 l2) as [o2 r].
    now rewrite app_assoc.
Qed.

(** ** The normalizer *)

Lemma filter_chars_app (l1 l2 : list event) :
  filter_chars (l1 ++ l2) =
  filter_chars l1 ++ filter_chars_from (fc_state_after l1) l2.
Proof.
  unfold filter_chars, filter_chars_from, fc_state_after.
  rewrite feed_app.
  destruct (feed filter_chars_step fc_init l1) as [s1 o1]; simpl.
  now destruct (feed filter_chars_step s1 l2) as [s2 o2].
Qed.

Lemma fc_state_after_app (l1 l2 : list event) :
  fc_state_after (l1 ++ l2) = fst (feed filter_chars_step (fc_state_after l1) l2).
Proof.
  unfold fc_state_after. rewrite feed_app.
  destruct (feed filter_chars_step fc_init l1) as [s1 o1]; simpl.
  now destruct (feed filter_chars_step s1 l2) as [s2 o2].
Qed.

(** Pieces of character data inside a body are accumulated, not sent. *)
Lemma feed_pieces_body (acc : string) (hc : bool) (pieces : list string)
  (rest : list event) :
  feed filter_chars_step (FcState (Some acc) hc) (map chars pieces ++ rest) =
  feed filter_chars_step
    (FcState (Some (acc +:+ Str.concat pieces))
             (match pieces with [] => hc | _ => true end)) rest.
Proof.
  revert acc hc; induction pieces as [|p ps IH]; intros acc hc; simpl.
  - now rewrite append_nil_r.
  - rewrite IH, append_assoc.
    destruct ps; now destruct (feed filter_chars_step _ rest).
Qed.

(** Pieces of character data outside a body are dropped. *)
Lemma feed_pieces_outside (hc : bool) (pieces : list string) (rest : list event) :
  feed filter_chars_step (FcState None hc) (map chars pieces ++ rest) =
  feed filter_chars_step (FcState None hc) rest.
Proof.
  induction pieces as [|p ps IH]; simpl; [reflexivity|].
  rewrite IH. now destruct (feed filter_chars_step _ rest).
Qed.

Lemma fc_state_after_start (pre : list event) name attrs :
  fc_state_after (pre ++ [start_elem name attrs]) = FcState (Some "") false.
Proof.
  rewrite fc_state_after_app. simpl. reflexivity.
Qed.

Lemma fc_state_after_end (pre : list event) n :
  fc_state_after (pre ++ [end_elem n]) = FcState None false.
Proof.
  rewrite fc_state_after_app. simpl. reflexivity.
Qed.

(** The body of an element that holds character data only. *)
Lemma filter_chars_body pre name attrs pieces n :
  filter_chars (pre ++ start_elem name attrs :: map chars pieces ++ [end_elem n])
  = filter_chars (pre ++ [start_elem name attrs])
    ++ body_items pieces ++ [end_elem n].
Proof.
  change (pre ++ start_elem name attrs :: map chars pieces ++ [end_elem n])
    with (pre ++ [start_elem name attrs] ++ (map chars pieces ++ [end_elem n])).
  rewrite app_assoc, filter_chars_app, fc_state_after_start.
  f_equal. unfold filter_chars_from. rewrite feed_pieces_body.
  rewrite append_nil_l. simpl.
  destruct pieces as [|p ps]; [reflexivity|].
  unfold body_items. rewrite strip_falsy.
  now destruct (_ && _).
Qed.

(** Character data after the end of a child. *)
Lemma filter_chars_after_child pre n' pieces n :
  filter_chars (pre ++ end_elem n' :: map chars pieces ++ [end_elem n])
  = filter_chars (pre ++ [end_elem n']) ++ [end_elem n].
Proof.
  change (pre ++ end_elem n' :: map chars pieces ++ [end_elem n])
    with (pre ++ [end_elem n'] ++ (map chars pieces ++ [end_elem n])).
  rewrite app_assoc, filter_chars_app, fc_state_after_end.
  f_equal. unfold filter_chars_from. now rewrite feed_pieces_outside.
Qed.

(** Pieces that are not empty add up to an empty content only when there
    is none. *)
Lemma concat_nonempty_pieces (pieces : list string) :
  Forall (fun p => p <> "") pieces ->
  Str.truthy (Str.concat pieces) = negb (is_empty pieces).
Proof.
  intros H. destruct H as [|p ps Hp _]; [reflexivity|].
  simpl. destruct p as [|c p]; [easy|reflexivity].
Qed.

(** C7: on the [end_elem] of an element, with [c] the content accumulated
    from the pieces of character data received since its [start_elem]
    (pieces that are not empty, as the tokenizer reports them),
    [filter_chars] sends nothing extra when [c] is empty, one [noop] when
    [c] is not empty, is whitespace and has a line break, and else exactly
    one [chars] item carrying [c], and then the [end_elem]; nothing is
    accumulated, and nothing extra sent, for an element in which a child
    element has ended. *)
Theorem filter_chars_end_elem :
  (forall pre name attrs pieces n,
     Forall (fun p => p <> "") pieces ->
     let c := Str.concat pieces in
     filter_chars (pre ++ start_elem name attrs :: map chars pieces ++ [end_elem n])
     = filter_chars (pre ++ [start_elem name attrs])
       ++ (if negb (Str.truthy c) then []
           else if Str.all_space c && Str.contains Str.LF c then [noop]
                else [chars c])
       ++ [end_elem n])
  /\ (forall pre n' pieces n,
        filter_chars (pre ++ end_elem n' :: map chars pieces ++ [end_elem n])
        = filter_chars (pre ++ [end_elem n']) ++ [end_elem n]).
Proof.
  split; [|apply filter_chars_after_child].
  intros pre name attrs pieces n Hne c.
  rewrite filter_chars_body. unfold c.
  rewrite (concat_nonempty_pieces _ Hne), negb_involutive.
  unfold body_items. destruct pieces as [|p ps]; [reflexivity|].
  cbn [is_empty]. now rewrite andb_comm.
Qed.

(** An element with the text [a] and [b] in two pieces, and one with a line
    break and an indent. *)
Lemma filter_chars_end_elem_witness :
  filter_chars ([] ++ start_elem "A" [] :: map chars ["a"; "b"] ++ [end_elem "A"])
  = filter_chars ([] ++ [start_elem "A" []]) ++ [chars "ab"] ++ [end_elem "A"]
  /\ filter_chars ([] ++ start_elem "A" []
                      :: map chars [String Str.LF ""; "  "] ++ [end_elem "A"])
     = filter_chars ([] ++ [start_elem "A" []]) ++ [noop] ++ [end_elem "A"].
Proof.
  split.
  - apply (proj1 filter_chars_end_elem [] "A" [] ["a"; "b"] "A").
    repeat constructor; discriminate.
  - apply (proj1 filter_chars_end_elem [] "A" [] [String Str.LF ""; "  "] "A").
    repeat constructor; discriminate.
Defined.

(** An empty piece, which the tokenizer does not report, would count as
    character data received: [has_content] is set by every [chars] item. *)
Example filter_chars_empty_piece :
  filter_chars [start_elem "A" []; chars ""; end_elem "A"]
  = [start_elem "A" []; chars ""; end_elem "A"].
Proof. reflexivity. Qed.

Lemma text_before_endb_sound (items : list event) :
  text_before_endb items = true -> text_before_end items.
Proof.
  induction items as [|i items IH]; intros H pre item rest E Ht.
  - now destruct pre.
  - simpl in H. apply andb_prop in H as [H1 H2].
    destruct pre as [|p pre]; simpl in E; injection E as -> ->.
    + rewrite Ht in H1. destruct rest as [|[] rest]; try discriminate. eauto.
    + eapply IH; eauto.
Qed.

Lemma filter_chars_from_calls_text (cs : list expat_call) (st : fc_state) :
  text_before_endb (filter_chars_from st (map on_call cs)) = true.
Proof.
  unfold filter_chars_from.
  revert st; induction cs as [|c cs IH]; intros st; [reflexivity|].
  destruct c as [name attrs|name|data]; simpl.
  - specialize (IH (FcState (Some "") false)).
    destruct (feed filter_chars_step _ (map on_call cs)) as [s o]. exact IH.
  - specialize (IH (FcState None false)).
    destruct (feed filter_chars_step _ (map on_call cs)) as [s o]. simpl in *.
    destruct (content st) as [acc|]; [|exact IH].
    destruct (has_content st); [|exact IH].
    destruct (_ && _); simpl; exact IH.
  - destruct (content st) as [acc|].
    + specialize (IH (FcState (Some (acc +:+ data)) true)).
      destruct (feed filter_chars_step _ (map on_call cs)) as [s o]. exact IH.
    + specialize (IH st).
      destruct (feed filter_chars_step _ (map on_call cs)) as [s o]. exact IH.
Qed.

Lemma filter_chars_drops_outside (pre : list event) (c : string) (post : list event) :
  content (fc_state_after pre) = None ->
  filter_chars (pre ++ chars c :: post) = filter_chars (pre ++ post).
Proof.
  intros H. rewrite !filter_chars_app. f_equal.
  unfold filter_chars_from. simpl. rewrite H.
  now destruct (feed filter_chars_step _ post).
Qed.

Lemma filter_chars_text_before_end (cs : list expat_call) :
  text_before_end (filter_chars (map on_call cs)).
Proof. apply text_before_endb_sound, filter_chars_from_calls_text. Qed.

(** C10: in what [filter_chars] sends for the handler calls of the
    tokenizer, every [chars] and every [noop] has an [end_elem] next; and
    character data received while no body is accumulated ([content] is
    [None]), as after the [end_elem] of a child, leaves no trace in what is
    sent. *)
Theorem filter_chars_invariant :
  (forall cs, text_before_end (filter_chars (map on_call cs)))
  /\ (forall pre c post,
        content (fc_state_after pre) = None ->
        filter_chars (pre ++ chars c :: post) = filter_chars (pre ++ post))
  /\ (forall pre n c post,
        filter_chars (pre ++ end_elem n :: chars c :: post)
        = filter_chars (pre ++ end_elem n :: post)).
Proof.
  split; [|split].
  - apply filter_chars_text_before_end.
  - apply filter_chars_drops_outside.
  - intros pre n c post.
    change (pre ++ end_elem n :: chars c :: post)
      with (pre ++ [end_elem n] ++ chars c :: post).
    change (pre ++ end_elem n :: post) with (pre ++ [end_elem n] ++ post).
    rewrite !app_assoc. apply filter_chars_drops_outside.
    now rewrite fc_state_after_end.
Qed.

Lemma filter_chars_invariant_witness :
  content (fc_state_after [start_elem "A" []; start_elem "B" []; end_elem "B"])
  = None
  /\ filter_chars ([start_elem "A" []; start_elem "B" []; end_elem "B"]
                   ++ chars " " :: [end_elem "A"])
     = filter_chars ([start_elem "A" []; start_elem "B" []; end_elem "B"]
                     ++ [end_elem "A"]).
Proof.
  split; [reflexivity|].
  apply (proj1 (proj2 filter_chars_invariant)). reflexivity.
Defined.

(** ** The renderer *)

Lemma contains_app (c : ascii) (a b : string) :
  Str.contains c (a +:+ b) = Str.contains c a || Str.contains c b.
Proof.
  induction a as [|x a IH]; [reflexivity|].
  rewrite append_cons. simpl. rewrite IH. now rewrite orb_assoc.
Qed.

Lemma contains_replace (x c : ascii) (r s : string) :
  Str.contains x r = false ->
  c = x \/ Str.contains x s = false ->
  Str.contains x (Str.replace c r s) = false.
Proof.
  intros Hr. induction s as [|y s IH]; intros H; [reflexivity|].
  simpl. rewrite contains_app.
  destruct (Ascii.eqb y c) eqn:E.
  - rewrite Hr. simpl. apply IH. destruct H as [H|H]; [now left|].
    right. simpl in H. now apply orb_false_elim in H.
  - simpl. apply Ascii.eqb_neq in E.
    destruct H as [H|H].
    + subst x. apply Ascii.eqb_neq in E. rewrite E. simpl. apply IH. now left.
    + simpl in H. apply orb_false_elim in H as [H1 H2]. rewrite H1. simpl.
      apply IH. now right.
Qed.

Lemma contains_repeat_spaces (n : nat) :
  Str.contains Str.LF (Str.repeat "  " n) = false.
Proof.
  induction n as [|n IH]; [reflexivity|].
  simpl. now rewrite contains_app, IH.
Qed.

Lemma quoteattr_one_line (v : string) :
  Str.contains Str.LF (quoteattr v) = false.
Proof.
  assert (H : Str.contains Str.LF (escape_attr v) = false).
  { unfold escape_attr.
    do 2 (apply contains_replace; [reflexivity|right]).
    apply contains_replace; [reflexivity|now left]. }
  unfold quoteattr.
  destruct (Str.contains dquote _); [destruct (Str.contains squote _)|].
  - simpl. rewrite contains_app.
    rewrite contains_replace; [reflexivity|reflexivity|now right].
  - simpl. now rewrite contains_app, H.
  - simpl. now rewrite contains_app, H.
Qed.

Lemma xml_attrs_one_line (attrs : attrs_t) :
  attr_names_one_line attrs = true ->
  Str.contains Str.LF (xml_attrs attrs) = false.
Proof.
  unfold xml_attrs, attr_names_one_line.
  induction attrs as [|[n v] attrs IH]; [reflexivity|].
  simpl. intros [Hn H]%andb_prop. apply negb_true_iff in Hn.
  rewrite !contains_app, Hn, quoteattr_one_line, (IH H). reflexivity.
Qed.

Lemma split_nonempty (sep : ascii) (s : string) : Str.split sep s <> [].
Proof.
  destruct s as [|c s]; simpl; [discriminate|].
  destruct (Ascii.eqb c sep); [discriminate|].
  now destruct (Str.split sep s).
Qed.

Lemma split_app_l (sep : ascii) (a s : string) :
  Str.contains sep a = false ->
  Str.split sep (a +:+ s) = map_first (String.append a) (Str.split sep s).
Proof.
  induction a as [|x a IH]; intros H.
  - rewrite append_nil_l. now destruct (Str.split sep s).
  - simpl in H. apply orb_false_elim in H as [H1 H2].
    rewrite append_cons. simpl. rewrite H1, (IH H2).
    pose proof (split_nonempty sep s). now destruct (Str.split sep s).
Qed.

Lemma split_app_r (sep : ascii) (s b : string) :
  Str.contains sep b = false ->
  Str.split sep (s +:+ b) = map_last (fun x => x +:+ b) (Str.split sep s).
Proof.
  intros H. induction s as [|x s IH].
  - rewrite append_nil_l. simpl.
    induction b as [|y b IHb]; [reflexivity|].
    simpl in H. apply orb_false_elim in H as [H1 H2].
    simpl. rewrite H1. now rewrite (IHb H2).
  - rewrite append_cons. simpl. rewrite IH.
    pose proof (split_nonempty sep s) as Hne.
    destruct (Ascii.eqb x sep).
    + now destruct (Str.split sep s).
    + destruct (Str.split sep s) as [|h [|h' t]]; [easy| |]; reflexivity.
Qed.

Lemma map_first_append (a b : string) (l : list string) :
  map_first (String.append a) (map_first (String.append b) l)
  = map_first (String.append (a +:+ b)) l.
Proof. destruct l; simpl; [reflexivity|]. now rewrite append_assoc. Qed.

Lemma xml_tag_open_elem_one_line name attrs :
  Str.contains Str.LF name = false ->
  attr_names_one_line attrs = true ->
  Str.contains Str.LF (xml_tag_open_elem name attrs) = false.
Proof.
  intros Hn Ha. unfold xml_tag_open_elem.
  now rewrite !contains_app, Hn, (xml_attrs_one_line _ Ha).
Qed.

Lemma xml_tag_close_elem_one_line name :
  Str.contains Str.LF name = false ->
  Str.contains Str.LF (xml_tag_close_elem name) = false.
Proof.
  intros Hn. unfold xml_tag_close_elem. now rewrite !contains_app, Hn.
Qed.

(** C9, as stated, fails: of the two lines sent for a content of two lines
    at depth 1, the second does not start with the indent string. *)
Lemma to_strings_content_no_indent :
  to_strings_item (1%Z, content_elem_line "A" [] ("x" +:+ String Str.LF "y"))
  = ["  <A>x"; "y</A>"]
  /\ String.prefix (xml_indent 1) "y</A>" = false.
Proof. split; reflexivity. Qed.

(** C9, amended: for a [content_elem_line] whose content has line breaks,
    [to_strings] sends one string per line of the content; the first is
    the indent string, the open tag and the first line of the content, the
    following ones are the lines of the content as they are, with no
    indent added, and the close tag ends the last one. *)
Theorem to_strings_content_lines (indent : Z) (name : string) (attrs : attrs_t)
  (content : string) :
  Str.contains Str.LF name = false ->
  attr_names_one_line attrs = true ->
  to_strings_item (indent, content_elem_line name attrs content)
  = map_first (String.append (xml_indent indent +:+ xml_tag_open_elem name attrs))
      (map_last (fun l => l +:+ xml_tag_close_elem name)
         (Str.split Str.LF content)).
Proof.
  intros Hn Ha. simpl.
  rewrite split_app_l by apply contains_repeat_spaces.
  rewrite split_app_l by now apply xml_tag_open_elem_one_line.
  rewrite split_app_r by now apply xml_tag_close_elem_one_line.
  apply map_first_append.
Qed.

Lemma to_strings_content_lines_witness :
  to_strings_item
    (2%Z, content_elem_line "A" [("k", "v")] ("x" +:+ String Str.LF " y"))
  = map_first (String.append (xml_indent 2 +:+ xml_tag_open_elem "A" [("k", "v")]))
      (map_last (fun l => l +:+ xml_tag_close_elem "A")
         (Str.split Str.LF ("x" +:+ String Str.LF " y"))).
Proof. apply to_strings_content_lines; reflexivity. Defined.

(** ** [skip_to] *)


(** Inside an element that was passed over, whole items and elements are
    forwarded whatever their names. *)
Lemma skip_to_loop_nested name attr_test ok body :
  siblings ok body ->
  forall stack rest, stack <> [] ->
    skip_to_loop name attr_test stack (body ++ rest)
    = ahead body (skip_to_loop name attr_test stack rest).
Proof.
  induction 1 as [ok|ok c l _ IH|ok l _ IH|ok n a body l _ _ IHb _ IHl];
    intros stack rest Hs.
  - now rewrite ahead_nil.
  - simpl. now rewrite IH.
  - simpl. now rewrite IH.
  - simpl. rewrite <- app_assoc. simpl.
    destruct stack as [|e stack]; [easy|].
    rewrite andb_false_r. simpl.
    rewrite IHb by easy. simpl. rewrite String.eqb_refl.
    rewrite IHl by easy.
    unfold sent, ahead. simpl. now rewrite <- app_assoc.
Qed.

(** At the level of the call, whole items and the elements that do not
    match are forwarded. *)
Lemma skip_to_loop_siblings name attr_test sibs :
  siblings (no_match name attr_test) sibs ->
  forall rest,
    skip_to_loop name attr_test [] (sibs ++ rest)
    = ahead sibs (skip_to_loop name attr_test [] rest).
Proof.
  remember (no_match name attr_test) as ok eqn:Hok.
  induction 1 as [ok|ok c l _ IH|ok l _ IH|ok n a body l Hna Hb _ _ IHl];
    intros rest; subst ok.
  - now rewrite ahead_nil.
  - simpl. now rewrite IH.
  - simpl. now rewrite IH.
  - simpl. rewrite <- app_assoc. simpl.
    unfold no_match in Hna. apply negb_true_iff in Hna.
    rewrite andb_true_r, Hna.
    rewrite (skip_to_loop_nested _ _ _ _ Hb) by easy.
    simpl. rewrite String.eqb_refl. rewrite IHl by reflexivity.
    unfold sent, ahead. simpl. now rewrite <- app_assoc.
Qed.

Lemma sent_inv {R : Type} (item : event) (r : list event * status R) out st :
  sent item r = (out, st) ->
  exists out', out = item :: out' /\ r = (out', st).
Proof. destruct r as [o s]. unfold sent. simpl. intros [= <- <-]. eauto. Qed.

(** When [skip_to] returns, the items it received are those it sent, the
    one it returns and the rest; it has sent them with its stack empty
    again, and what follows them does not matter. *)
Lemma skip_to_loop_returned name attr_test items :
  forall stack out b item rest,
    skip_to_loop name attr_test stack items = (out, Returned (b, item) rest) ->
    items = out ++ item :: rest
    /\ (forall more,
          skip_to_loop name attr_test stack (out ++ more)
          = ahead out (skip_to_loop name attr_test [] more))
    /\ skip_to_loop name attr_test [] (item :: rest)
       = ([], Returned (b, item) rest).
Proof.
  induction items as [|i items IH]; intros stack out b item rest H;
    [discriminate|].
  destruct i as [n a|n|c|].
  - simpl in H.
    destruct (negb (is_None name && is_None attr_test) && is_empty stack
              && match name with None => true | Some x => String.eqb n x end
              && match attr_test with None => true | Some t => t a end) eqn:C.
    + injection H as <- <- <- <-.
      assert (stack = []) as ->.
      { destruct stack; [reflexivity|]. now rewrite andb_false_r in C. }
      split; [reflexivity|]. split.
      * intros more. now rewrite ahead_nil.
      * simpl in C |- *. now rewrite C.
    + apply sent_inv in H as (out' & -> & H).
      destruct (IH _ _ _ _ _ H) as (-> & Hm & Hr).
      split; [reflexivity|]. split; [|exact Hr].
      intros more. simpl. rewrite C, Hm. reflexivity.
  - simpl in H. destruct stack as [|e stack].
    + injection H as <- <- <- <-.
      split; [reflexivity|]. split; [|reflexivity].
      intros more. now rewrite ahead_nil.
    + destruct (String.eqb e n) eqn:E; [|discriminate].
      apply sent_inv in H as (out' & -> & H).
      destruct (IH _ _ _ _ _ H) as (-> & Hm & Hr).
      split; [reflexivity|]. split; [|exact Hr].
      intros more. simpl. rewrite E, Hm. reflexivity.
  - simpl in H. apply sent_inv in H as (out' & -> & H).
    destruct (IH _ _ _ _ _ H) as (-> & Hm & Hr).
    split; [reflexivity|]. split; [|exact Hr].
    intros more. simpl. rewrite Hm. reflexivity.
  - simpl in H. apply sent_inv in H as (out' & -> & H).
    destruct (IH _ _ _ _ _ H) as (-> & Hm & Hr).
    split; [reflexivity|]. split; [|exact Hr].
    intros more. simpl. rewrite Hm. reflexivity.
Qed.

(** While [skip_to] is suspended, it has sent all it received. *)
Lemma skip_to_loop_suspended name attr_test items :
  forall stack out,
    skip_to_loop name attr_test stack items = (out, Suspended) ->
    out = items.
Proof.
  induction items as [|i items IH]; intros stack out H.
  - now injection H as <-.
  - destruct i as [n a|n|c|]; simpl in H.
    + destruct (_ && _) in H; [discriminate|].
      apply sent_inv in H as (out' & -> & H). f_equal. eauto.
    + destruct stack as [|e stack]; [discriminate|].
      destruct (String.eqb e n); [|discriminate].
      apply sent_inv in H as (out' & -> & H). f_equal. eauto.
    + apply sent_inv in H as (out' & -> & H). f_equal. eauto.
    + apply sent_inv in H as (out' & -> & H). f_equal. eauto.
Qed.

(** What [skip_to] returns with [True] is a [start_elem] with the name. *)
Lemma skip_to_returned_true name item rest :
  skip_to_loop (Some name) None [] (item :: rest)
  = ([], Returned (true, item) rest) ->
  exists attrs, item = start_elem name attrs.
Proof.
  destruct item as [n a|n|c|]; simpl.
  - destruct (String.eqb n name) eqn:E; simpl.
    + apply String.eqb_eq in E as ->. eauto.
    + intros H. apply sent_inv in H as (? & ? & _). discriminate.
  - discriminate.
  - intros H. apply sent_inv in H as (? & ? & _). discriminate.
  - intros H. apply sent_inv in H as (? & ? & _). discriminate.
Qed.

Lemma closes_item ok stack item l :
  is_text item = true ->
  closes ok stack l -> closes ok stack (item :: l).
Proof.
  intros Hi H. destruct H as [l H|n stack body l Hb H].
  - constructor. destruct item; try discriminate; now constructor.
  - change (item :: body ++ end_elem n :: l)
      with ((item :: body) ++ end_elem n :: l).
    constructor; [|exact H].
    destruct item; try discriminate; now constructor.
Qed.

Lemma closes_element ok stack n a body l :
  (stack = [] -> ok n a = true) ->
  siblings (fun _ _ => true) body ->
  closes ok stack l ->
  closes ok stack (start_elem n a :: body ++ end_elem n :: l).
Proof.
  intros Hok Hb H. destruct H as [l H|m stack body' l Hb' H].
  - constructor. constructor; [now apply Hok|exact Hb|exact H].
  - replace (start_elem n a :: body ++ end_elem n :: body' ++ end_elem m :: l)
      with ((start_elem n a :: body ++ end_elem n :: body') ++ end_elem m :: l)
      by (simpl; now rewrite <- app_assoc).
    constructor; [|exact H]. now constructor.
Qed.

(** What [skip_to] has sent when it returns closes its stack. *)
Lemma skip_to_loop_closes name attr_test items :
  forall stack out r rest,
    skip_to_loop name attr_test stack items = (out, Returned r rest) ->
    closes (no_match name attr_test) stack out.
Proof.
  induction items as [|i items IH]; intros stack out r rest H; [discriminate|].
  destruct i as [n a|n|c|].
  - simpl in H.
    destruct (negb (is_None name && is_None attr_test) && is_empty stack
              && match name with None => true | Some x => String.eqb n x end
              && match attr_test with None => true | Some t => t a end) eqn:C.
    + injection H as <- _ _.
      destruct stack; [|now rewrite andb_false_r in C].
      constructor. constructor.
    + apply sent_inv in H as (out' & -> & H).
      apply IH in H. inversion H as [|n' st body l Hb Hl]; subst.
      apply closes_element; [|exact Hb|exact Hl].
      intros ->. unfold no_match. simpl in C. rewrite andb_true_r in C.
      now rewrite C.
  - simpl in H. destruct stack as [|e stack].
    + injection H as <- _ _. constructor. constructor.
    + destruct (String.eqb e n) eqn:E; [|discriminate].
      apply String.eqb_eq in E as ->.
      apply sent_inv in H as (out' & -> & H). apply IH in H.
      apply (closes_elem _ n stack [] out'); [constructor|exact H].
  - simpl in H. apply sent_inv in H as (out' & -> & H).
    apply closes_item; [reflexivity|]. eauto.
  - simpl in H. apply sent_inv in H as (out' & -> & H).
    apply closes_item; [reflexivity|]. eauto.
Qed.

(** What [skip_to] returns with [True] is a [start_elem] that matches, and
    with [False] an [end_elem]. *)
Lemma skip_to_loop_returned_item name attr_test b item rest :
  skip_to_loop name attr_test [] (item :: rest) = ([], Returned (b, item) rest) ->
  if b then
    exists n attrs, item = start_elem n attrs /\ no_match name attr_test n attrs = false
  else exists n, item = end_elem n.
Proof.
  destruct item as [n a|n|c|]; simpl.
  - destruct (_ && _) eqn:C.
    + intros [= <-]. exists n, a. split; [reflexivity|].
      unfold no_match. rewrite andb_true_r in C. now rewrite C.
    + intros H. apply sent_inv in H as (? & ? & _). discriminate.
  - intros [= <-]. eauto.
  - intros H. apply sent_inv in H as (? & ? & _). discriminate.
  - intros H. apply sent_inv in H as (? & ? & _). discriminate.
Qed.

(** C3: [skip_to] with a name forwards a run of complete siblings none of
    which matches, with everything inside them, whatever the names of
    the elements nested in them; at the first [start_elem] at the
    level of the call that has the name (and passes [attr_test]) it
    returns [(True, "start_elem", params)] with only the siblings sent, the
    matched item not among them; at the [end_elem] of the enclosing element
    it returns [(False, "end_elem", params)] in the same way. Conversely,
    whenever it returns, what it has sent is such a run of complete
    siblings, so that the item returned is at the level of the call. *)
Theorem skip_to_sibling_scoped (name : string)
  (attr_test : option (attrs_t -> bool)) :
  let test attrs := match attr_test with None => true | Some t => t attrs end in
  (forall sibs,
     siblings (no_match (Some name) attr_test) sibs ->
     (forall attrs rest,
        test attrs = true ->
        skip_to (Some name) attr_test (sibs ++ start_elem name attrs :: rest)
        = (sibs, Returned (true, start_elem name attrs) rest))
     /\ (forall n rest,
           skip_to (Some name) attr_test (sibs ++ end_elem n :: rest)
           = (sibs, Returned (false, end_elem n) rest)))
  /\ (forall items out b item rest,
        skip_to (Some name) attr_test items = (out, Returned (b, item) rest) ->
        items = out ++ item :: rest
        /\ siblings (no_match (Some name) attr_test) out
        /\ if (b : bool)
           then exists attrs, item = start_elem name attrs /\ test attrs = true
           else exists n, item = end_elem n).
Proof.
  intros test. split.
  - intros sibs H. unfold skip_to. split.
    + intros attrs rest Ht.
      rewrite (skip_to_loop_siblings _ _ _ H). simpl.
      unfold test in Ht. rewrite String.eqb_refl, Ht. unfold ahead. simpl.
      now rewrite app_nil_r.
    + intros n rest.
      rewrite (skip_to_loop_siblings _ _ _ H). unfold ahead. simpl.
      now rewrite app_nil_r.
  - intros items out b item rest H. unfold skip_to in H.
    destruct (skip_to_loop_returned _ _ _ _ _ _ _ _ H) as (Hi & _ & Hr).
    split; [exact Hi|]. split.
    + apply skip_to_loop_closes in H. now inversion H.
    + apply skip_to_loop_returned_item in Hr. destruct b; [|exact Hr].
      destruct Hr as (n & attrs & -> & Hm). exists attrs.
      unfold no_match in Hm. apply negb_false_iff in Hm. simpl in Hm.
      apply andb_prop in Hm as [Hn Ht]. apply String.eqb_eq in Hn as ->.
      now split.
Qed.

(** In [<Root><Y><X/></Y></Root>], scanning for [X] under [Root]. *)
Lemma skip_to_sibling_scoped_witness :
  skip_to (Some "X") None
    ([start_elem "Y" []; start_elem "X" []; end_elem "X"; end_elem "Y"]
     ++ end_elem "Root" :: [])
  = ([start_elem "Y" []; start_elem "X" []; end_elem "X"; end_elem "Y"],
     Returned (false, end_elem "Root") []).
Proof.
  apply (proj1 (skip_to_sibling_scoped "X" None)).
  apply (siblings_elem _ "Y" [] [start_elem "X" []; end_elem "X"] []).
  - reflexivity.
  - apply (siblings_elem _ "X" [] [] []);
      [reflexivity|apply siblings_nil|apply siblings_nil].
  - apply siblings_nil.
Defined.

(** ** [set_content] *)

Lemma gen_bind_returned {A B : Type} (m : gen A) (k : A -> gen B) items out a rest :
  m items = (out, Returned a rest) ->
  (m ≫= k) items = ahead out (k a rest).
Proof.
  intros H. unfold mbind, gen_bind. rewrite H.
  now destruct (k a rest).
Qed.

Lemma gen_bind_raised {A B : Type} (m : gen A) (k : A -> gen B) items out e :
  m items = (out, Raised e) ->
  (m ≫= k) items = (out, Raised e).
Proof. intros H. unfold mbind, gen_bind. now rewrite H. Qed.

Lemma gen_bind_suspended {A B : Type} (m : gen A) (k : A -> gen B) items out :
  m items = (out, Suspended) ->
  (m ≫= k) items = (out, Suspended).
Proof. intros H. unfold mbind, gen_bind. now rewrite H. Qed.

(** One step of a computation whose first part has returned. *)
Tactic Notation "gen_returned" uconstr(H) :=
  rewrite (gen_bind_returned _ _ _ _ _ _ H); cbv beta iota.

Lemma yield_run {B : Type} (k : event -> gen B) item rest :
  (yield ≫= k) (item :: rest) = k item rest.
Proof. unfold mbind, gen_bind, yield. now destruct (k item rest). Qed.

Lemma assert_true_run {B : Type} msg (k : unit -> gen B) items :
  (assert true msg ≫= k) items = k tt items.
Proof. unfold mbind, gen_bind, assert. simpl. now destruct (k tt items). Qed.

Lemma assert_false_run {B : Type} msg (k : unit -> gen B) items :
  (assert false msg ≫= k) items = ([], Raised (AssertionError msg)).
Proof. reflexivity. Qed.

Lemma send_element_run name attrs c (k : unit -> gen event) items :
  (send_element name attrs (Some c) ≫= k) items
  = ahead [start_elem name attrs; chars c; end_elem name] (k tt items).
Proof.
  unfold send_element, mbind, gen_bind, send. simpl.
  now destruct (k tt items).
Qed.

Lemma skip_to_name_found name sibs attrs rest :
  siblings (no_match (Some name) None) sibs ->
  skip_to (Some name) None (sibs ++ start_elem name attrs :: rest)
  = (sibs, Returned (true, start_elem name attrs) rest).
Proof.
  intros H. unfold skip_to. rewrite (skip_to_loop_siblings _ _ _ H). simpl.
  rewrite String.eqb_refl. unfold ahead. simpl. now rewrite app_nil_r.
Qed.

Lemma skip_to_end name attr_test sibs n rest :
  siblings (no_match name attr_test) sibs ->
  skip_to name attr_test (sibs ++ end_elem n :: rest)
  = (sibs, Returned (false, end_elem n) rest).
Proof.
  intros H. unfold skip_to. rewrite (skip_to_loop_siblings _ _ _ H).
  unfold ahead. simpl. now rewrite app_nil_r.
Qed.

(** The body of [set_content] after a child [name] was found and its
    [chars] item received. *)
Lemma set_content_found name content pre attrs item rest :
  siblings (no_match (Some name) None) pre ->
  set_content name content (pre ++ start_elem name attrs :: item :: rest)
  = ahead pre
      ((assert (is_chars item) None ;;
        '(_, item) ← skip_to None None ;
        send_element name attrs (Some content) ;;
        '(found, item) ← skip_to (Some name) None ;
        assert (negb found) (Some ("Duplicate element: " +:+ name)) ;;
        mret item) rest).
Proof.
  intros H. unfold set_content.
  rewrite (gen_bind_returned _ _ _ _ _ _ (skip_to_name_found _ _ attrs _ H)).
  f_equal. now rewrite yield_run.
Qed.

Lemma siblings_weaken (ok ok' : string -> attrs_t -> bool) sibs :
  (forall n a, ok n a = true -> ok' n a = true) ->
  siblings ok sibs -> siblings ok' sibs.
Proof.
  intros Hok H. revert ok' Hok.
  induction H as [ok|ok c l _ IH|ok l _ IH|ok n a body l Hna Hb _ _ IHl];
    intros ok' Hok.
  - constructor.
  - constructor. now apply IH.
  - constructor. now apply IH.
  - constructor; [now apply Hok|exact Hb|now apply IHl].
Qed.

(** C5, as stated, fails: a child whose body is a [noop] is not accepted
    as one content-bearing unit; [set_content] raises. *)
Lemma set_content_noop_body :
  set_content "B" "v"
    [start_elem "B" []; noop; end_elem "B"; end_elem "Root"]
  = ([], Raised (AssertionError None)).
Proof. reflexivity. Qed.

(** C5, amended: when [set_content] finds a direct child with the name,
    the item after its [start_elem] must be a [chars] item, anything else
    (a [noop], an [end_elem], a [start_elem]) raising an assertion error;
    a child whose body is that one [chars] item is sent on with its
    attributes as they were and the supplied content in place of the old
    one, and the siblings before and after it are forwarded unchanged. *)
Theorem set_content_replaces (name content : string) (pre : list event)
  (attrs : attrs_t) :
  siblings (no_match (Some name) None) pre ->
  (forall c post n rest,
     siblings (no_match (Some name) None) post ->
     set_content name content
       (pre ++ [start_elem name attrs; chars c; end_elem name]
            ++ post ++ end_elem n :: rest)
     = (pre ++ [start_elem name attrs; chars content; end_elem name] ++ post,
        Returned (end_elem n) rest))
  /\ (forall item rest,
        is_chars item = false ->
        set_content name content (pre ++ start_elem name attrs :: item :: rest)
        = (pre, Raised (AssertionError None))).
Proof.
  intros Hpre. split.
  - intros c post n rest Hpost. cbn [app].
    rewrite (set_content_found _ _ _ _ _ _ Hpre). cbn [is_chars].
    rewrite assert_true_run. cbv beta.
    rewrite (gen_bind_returned (skip_to None None) _ (end_elem name :: _) []
               (false, end_elem name) _ eq_refl).
    cbv beta iota. rewrite send_element_run. cbv beta.
    gen_returned (skip_to_end _ _ _ n rest Hpost).
    cbn [negb]. rewrite assert_true_run.
    unfold ahead. simpl. now rewrite app_nil_r.
  - intros item rest Hitem.
    rewrite (set_content_found _ _ _ _ _ _ Hpre). rewrite Hitem.
    rewrite assert_false_run.
    unfold ahead. simpl. now rewrite app_nil_r.
Qed.

Lemma set_content_replaces_witness :
  set_content "B" "new"
    ([start_elem "A" []; end_elem "A"]
     ++ [start_elem "B" [("Label", "x")]; chars "old"; end_elem "B"]
     ++ [start_elem "C" []; end_elem "C"] ++ end_elem "Root" :: [])
  = ([start_elem "A" []; end_elem "A"]
     ++ [start_elem "B" [("Label", "x")]; chars "new"; end_elem "B"]
     ++ [start_elem "C" []; end_elem "C"],
     Returned (end_elem "Root") []).
Proof.
  apply set_content_replaces.
  - apply (siblings_elem _ "A" [] [] []);
      [reflexivity|apply siblings_nil|apply siblings_nil].
  - apply (siblings_elem _ "C" [] [] []);
      [reflexivity|apply siblings_nil|apply siblings_nil].
Defined.

(** After the body was replaced, a later sibling with the name fails the
    assertion on duplicates. *)
Lemma set_content_found_duplicate name content pre a1 c body mid a2 rest :
  siblings (no_match (Some name) None) pre ->
  siblings (fun _ _ => true) body ->
  siblings (no_match (Some name) None) mid ->
  set_content name content
    (pre ++ start_elem name a1 :: chars c :: body ++ end_elem name
         :: mid ++ start_elem name a2 :: rest)
  = (pre ++ body ++ [start_elem name a1; chars content; end_elem name] ++ mid,
     Raised (AssertionError (Some ("Duplicate element: " +:+ name)))).
Proof.
  intros Hpre Hbody Hmid.
  rewrite (set_content_found _ _ _ _ _ _ Hpre). cbn [is_chars].
  rewrite assert_true_run. cbv beta.
  assert (Hb : siblings (no_match None None) body).
  { eapply siblings_weaken; [|exact Hbody]. reflexivity. }
  gen_returned (skip_to_end _ _ _ name _ Hb).
  rewrite send_element_run. cbv beta.
  gen_returned (skip_to_name_found _ _ a2 rest Hmid).
  cbn [negb]. rewrite assert_false_run.
  unfold ahead. simpl. rewrite ?app_nil_r, <- ?app_assoc. reflexivity.
Qed.

Lemma upsert_filter_raised enclosing name content items outer ae inner out e :
  skip_to (Some enclosing) None items
  = (outer, Returned (true, start_elem enclosing ae) inner) ->
  set_content name content inner = (out, Raised e) ->
  upsert_filter enclosing name content items
  = (outer ++ start_elem enclosing ae :: out, Raised e).
Proof.
  intros Hs Hc. unfold upsert_filter.
  gen_returned Hs.
  unfold mbind, gen_bind, send. rewrite Hc.
  unfold ahead. simpl. reflexivity.
Qed.

Lemma filter_file_failed ParseFile (fs : gmap string string) input_filename
  (genfilter : filter) output_filename text t e :
  fs !! input_filename = Some text ->
  run_pipeline genfilter (calls (ParseFile text)) = (t, Some e) ->
  filter_file ParseFile fs input_filename (Some genfilter) output_filename
  = (fs, Failed e).
Proof. intros Hf Hr. unfold filter_file. now rewrite Hf, Hr. Qed.

(** C6, as stated, fails: when the first of two children with the name
    has an empty body, the assertion that fails is the one on the body of
    the child found, not the one on duplicates. *)
Lemma set_content_duplicate_after_empty :
  set_content "B" "v"
    [start_elem "B" []; end_elem "B";
     start_elem "B" []; chars "2"; end_elem "B"; end_elem "Root"]
  = ([], Raised (AssertionError None)).
Proof. reflexivity. Qed.

(** Of the output stages only [to_lines] raises, and what it raises is a
    bare assertion error. *)
Lemma to_lines_raises (items : list event) :
  forall st lines e,
    feed_exn to_lines_step st items = (lines, inl e) -> e = AssertionError None.
Proof.
  induction items as [|i items IH]; intros st lines e H; [discriminate|].
  simpl in H. destruct (to_lines_step st i) as [e'|[s1 o]] eqn:E.
  - injection H as _ <-.
    destruct st as [|n a|n a c]; destruct i as [m b|m|c'|]; simpl in E;
      try discriminate;
      try (destruct (String.eqb m n); [discriminate|now injection E as <-]);
      try (destruct (negb (Str.truthy (Str.strip c)));
           [discriminate|now injection E as <-]).
  - destruct (feed_exn to_lines_step s1 items) as [outs r] eqn:F.
    injection H as _ ->. exact (IH _ _ _ F).
Qed.

Lemma run_pipeline_assertion (genfilter : filter) cs out msg :
  genfilter (geninput (map on_call cs)) = (out, Raised (AssertionError msg)) ->
  exists text msg', run_pipeline genfilter cs = (text, Some (AssertionError msg')).
Proof.
  intros H. unfold run_pipeline. rewrite H.
  unfold genoutput, genoutput_lines, to_lines.
  destruct (feed_exn to_lines_step at_to_lines out) as [lines [e|st]] eqn:F.
  - rewrite (to_lines_raises _ _ _ _ F). eauto.
  - eauto.
Qed.

(** C6, amended: for an enclosing element with two direct children with
    the name, [set_content] raises an assertion error, and a transform
    with a filter that reaches the element and calls it ends with an
    assertion error and leaves the files as they were. The assertion is
    the one on duplicates exactly when the body of the first of the two
    children starts with a [chars] item: then the rest of that body, the
    new element and the siblings up to the second child were sent on.
    Otherwise, with an empty body or one that starts with a [noop] or a
    child element, it is the assertion on the item after the [start_elem]
    of the child found, and nothing of that child was sent on. *)
Theorem set_content_duplicate (name content : string)
  (pre body mid rest : list event) (a1 a2 : attrs_t) :
  siblings (no_match (Some name) None) pre ->
  siblings (fun _ _ => true) body ->
  siblings (no_match (Some name) None) mid ->
  let inner :=
    pre ++ start_elem name a1 :: body ++ end_elem name
        :: mid ++ start_elem name a2 :: rest in
  set_content name content inner
  = match body with
    | chars c :: body' =>
        (pre ++ body' ++ [start_elem name a1; chars content; end_elem name]
             ++ mid,
         Raised (AssertionError (Some ("Duplicate element: " +:+ name))))
    | _ => (pre, Raised (AssertionError None))
    end
  /\ (forall ParseFile (fs : gmap string string) input_filename
        output_filename text enclosing outer ae,
        fs !! input_filename = Some text ->
        skip_to (Some enclosing) None
          (geninput (map on_call (calls (ParseFile text))))
        = (outer, Returned (true, start_elem enclosing ae) inner) ->
        exists msg,
          filter_file ParseFile fs input_filename
            (Some (upsert_filter enclosing name content)) output_filename
          = (fs, Failed (AssertionError msg))).
Proof.
  intros Hpre Hbody Hmid inner.
  assert (Hbare : forall item l,
             is_chars item = false ->
             set_content name content
               (pre ++ start_elem name a1 :: item :: l)
             = (pre, Raised (AssertionError None))).
  { intros item l Hi.
    rewrite (set_content_found _ _ _ _ _ _ Hpre), Hi.
    rewrite assert_false_run. unfold ahead. simpl. now rewrite app_nil_r. }
  assert (H1 : set_content name content inner
               = match body with
                 | chars c :: body' =>
                     (pre ++ body'
                          ++ [start_elem name a1; chars content; end_elem name]
                          ++ mid,
                      Raised (AssertionError
                                (Some ("Duplicate element: " +:+ name))))
                 | _ => (pre, Raised (AssertionError None))
                 end).
  { subst inner. inversion Hbody as [|c l Hl|l Hl|n a b l Hna Hb Hl]; subst.
    - cbn [app]. now apply Hbare.
    - cbn [app].
      apply (set_content_found_duplicate _ _ _ _ _ _ _ _ _ Hpre Hl Hmid).
    - cbn [app]. now apply Hbare.
    - cbn [app]. now apply Hbare. }
  split; [exact H1|].
  intros ParseFile fs input_filename output_filename text enclosing outer ae
    Hf Hs.
  assert (H2 : exists out msg,
             set_content name content inner = (out, Raised (AssertionError msg))).
  { rewrite H1. destruct body as [|[| |c|] body']; eauto. }
  destruct H2 as (out & msg & H2).
  pose proof (upsert_filter_raised _ _ _ _ _ _ _ _ _ Hs H2) as Hu.
  destruct (run_pipeline_assertion _ _ _ _ Hu) as (t & msg' & Hr).
  exists msg'. now apply (filter_file_failed _ _ _ _ _ text t).
Qed.

(** [<Root><B>1</B><B>2</B></Root>], rewritten in place. *)
Lemma set_content_duplicate_witness :
  set_content "B" "v"
    [start_elem "B" []; chars "1"; end_elem "B";
     start_elem "B" []; chars "2"; end_elem "B"; end_elem "Root"]
  = ([start_elem "B" []; chars "v"; end_elem "B"],
     Raised (AssertionError (Some "Duplicate element: B")))
  /\ exists msg,
       filter_file
         (fun _ => Parse [StartElement "Root" [];
                          StartElement "B" []; CharacterData "1"; EndElement "B";
                          StartElement "B" []; CharacterData "2"; EndElement "B";
                          EndElement "Root"] None)
         {["p.vcxproj" := "<Root><B>1</B><B>2</B></Root>"]} "p.vcxproj"
         (Some (upsert_filter "Root" "B" "v")) "p.vcxproj"
       = ({["p.vcxproj" := "<Root><B>1</B><B>2</B></Root>"]},
          Failed (AssertionError msg)).
Proof.
  destruct (set_content_duplicate "B" "v" [] [chars "1"] []
              [chars "2"; end_elem "B"; end_elem "Root"] [] [])
    as (H2 & H3).
  - apply siblings_nil.
  - apply siblings_chars, siblings_nil.
  - apply siblings_nil.
  - split.
    + exact H2.
    + eapply (H3 _ _ "p.vcxproj" "p.vcxproj" _ "Root" [] []).
      * reflexivity.
      * reflexivity.
Defined.

(** ** The driver *)

(** C2 fails on the code: when the tokenizer ends with an [ExpatError] and
    no stage raised on the items before it, [process_file] returns after
    printing the message, and [filter_file] writes the text rendered so far
    to the output file. *)
Theorem filter_file_after_ExpatError ParseFile (fs : gmap string string)
  (input_filename output_filename text msg partial : string)
  (genfilter : option filter) :
  fs !! input_filename = Some text ->
  error (ParseFile text) = Some msg ->
  run_pipeline (match genfilter with Some f => f | None => no_filter end)
    (calls (ParseFile text)) = (partial, None) ->
  filter_file ParseFile fs input_filename genfilter output_filename
  = (<[output_filename := partial]> fs, Completed ["Error: " +:+ msg]).
Proof.
  intros Hf He Hr. unfold filter_file. now rewrite Hf, Hr, He.
Qed.

(** The unclosed document [<A><B/>], rewritten in place: the file is left
    with the declaration and the two lines rendered before the error. *)
Lemma filter_file_after_ExpatError_witness :
  filter_file
    (fun _ => Parse [StartElement "A" []; StartElement "B" []; EndElement "B"]
                    (Some "no element found"))
    {["p.vcxproj" := "<A><B/>"]} "p.vcxproj" None "p.vcxproj"
  = (<["p.vcxproj" :=
         xml_declaration +:+ Str.CRLF +:+ "<A>" +:+ Str.CRLF +:+ "  <B />"]>
       {["p.vcxproj" := "<A><B/>"]},
     Completed ["Error: no element found"]).
Proof.
  apply (filter_file_after_ExpatError _ _ _ _ "<A><B/>"); reflexivity.
Defined.

(** ** Tag shapes through the pipeline *)

Lemma to_lines_app (l1 l2 : list event) :
  to_lines (l1 ++ l2) =
  match to_lines l1 with
  | (o1, inl e) => (o1, inl e)
  | (o1, inr s1) =>
      let '(o2, r) := feed_exn to_lines_step s1 l2 in (o1 ++ o2, r)
  end.
Proof. apply feed_exn_app. Qed.

(** After a [start_elem], [to_lines] waits in [to_lines_post_start_elem]. *)
Lemma to_lines_after_start (items : list event) name attrs lines st :
  to_lines (items ++ [start_elem name attrs]) = (lines, inr st) ->
  st = at_post_start_elem name attrs.
Proof.
  rewrite to_lines_app.
  destruct (to_lines items) as [o1 [e|s1]]; [discriminate|].
  destruct s1 as [|n a|n a c]; simpl.
  - now intros [= _ <-].
  - now intros [= _ <-].
  - destruct (negb _); [now intros [= _ <-]|discriminate].
Qed.

Lemma compute_indent_app (l1 l2 : list line_item) :
  compute_indent (l1 ++ l2) =
  compute_indent l1
  ++ snd (feed compute_indent_step (fst (feed compute_indent_step 0%Z l1)) l2).
Proof.
  unfold compute_indent. rewrite feed_app.
  destruct (feed compute_indent_step 0%Z l1) as [s1 o1]; simpl.
  now destruct (feed compute_indent_step s1 l2).
Qed.

Lemma to_strings_app (l1 l2 : list (Z * line_item)) :
  to_strings (l1 ++ l2) = to_strings l1 ++ flat_map to_strings_item l2.
Proof. unfold to_strings. now rewrite flat_map_app. Qed.

Lemma rendered_lines_app (cs : list expat_call) (items : list event)
  lines st lines' r :
  geninput (map on_call cs) = items ->
  to_lines items = (lines, inr st) ->
  forall more,
    feed_exn to_lines_step st more = (lines', r) ->
    genoutput_lines (items ++ more)
    = (to_strings (compute_indent lines)
       ++ flat_map to_strings_item
            (snd (feed compute_indent_step (indent_after cs) lines')),
       match r with inl e => Some e | inr _ => None end).
Proof.
  intros Hi Ht more Hm. unfold genoutput_lines, indent_after.
  rewrite to_lines_app, Hi, Ht, Hm. simpl.
  now rewrite compute_indent_app, to_strings_app.
Qed.

Lemma contains_nonempty_pieces (pieces : list string) :
  Str.contains Str.LF (Str.concat pieces) = true -> pieces <> [].
Proof. now destruct pieces. Qed.

(** C8: through the pipeline with no filter, after any handler calls
    [pre] that no stage raised on, an element whose [start_elem] is
    directly followed by its [end_elem] is rendered as one line with the
    self-closing tag, and an element whose body is whitespace with a line
    break as a line with the open tag and a line with the close tag, both
    at the indent of the element; the two renderings differ. *)
Theorem self_closing_reconstruction (pre : list expat_call) (name : string)
  (attrs : list string) (lines : list string) :
  let cs := pre ++ [StartElement name attrs] in
  let attrs' := OrderedDict (zip_pairs attrs) in
  let indent := xml_indent (indent_after cs) in
  rendered_lines cs = (lines, None) ->
  rendered_lines (cs ++ [EndElement name])
  = (lines ++ [indent +:+ xml_tag_empty_elem name attrs'], None)
  /\ (forall pieces,
        Str.all_space (Str.concat pieces) = true ->
        Str.contains Str.LF (Str.concat pieces) = true ->
        rendered_lines (cs ++ map CharacterData pieces ++ [EndElement name])
        = (lines ++ [indent +:+ xml_tag_open_elem name attrs';
                     indent +:+ xml_tag_close_elem name], None)
        /\ rendered_lines (cs ++ map CharacterData pieces ++ [EndElement name])
           <> rendered_lines (cs ++ [EndElement name])).
Proof.
  intros cs attrs' indent Hr.
  assert (Hcs : geninput (map on_call cs)
                = filter_chars (map on_call pre) ++ [start_elem name attrs']).
  { unfold cs, geninput. rewrite map_app, filter_chars_app. reflexivity. }
  unfold rendered_lines, genoutput_lines in Hr.
  destruct (to_lines (geninput (map on_call cs))) as [tl [e|st]] eqn:Ht;
    [discriminate|].
  injection Hr as Hlines.
  assert (Hst : st = at_post_start_elem name attrs').
  { rewrite Hcs in Ht. now apply to_lines_after_start in Ht. }
  subst st.
  assert (Hempty : rendered_lines (cs ++ [EndElement name])
                   = (lines ++ [indent +:+ xml_tag_empty_elem name attrs'], None)).
  { unfold rendered_lines.
    replace (geninput (map on_call (cs ++ [EndElement name])))
      with (geninput (map on_call cs) ++ [end_elem name]).
    - erewrite rendered_lines_app; [|reflexivity|exact Ht|].
      2:{ simpl. rewrite String.eqb_refl. reflexivity. }
      rewrite <- Hlines. reflexivity.
    - unfold cs, geninput. rewrite <- app_assoc, !map_app. simpl.
      symmetry.
      apply (filter_chars_body (map on_call pre) name attrs' [] name). }
  assert (Hblank : forall pieces,
             Str.all_space (Str.concat pieces) = true ->
             Str.contains Str.LF (Str.concat pieces) = true ->
             rendered_lines (cs ++ map CharacterData pieces ++ [EndElement name])
             = (lines ++ [indent +:+ xml_tag_open_elem name attrs';
                          indent +:+ xml_tag_close_elem name], None)).
  { intros pieces Hsp Hnl. unfold rendered_lines.
    replace (geninput (map on_call (cs ++ map CharacterData pieces
                                       ++ [EndElement name])))
      with (geninput (map on_call cs) ++ [noop; end_elem name]).
    - erewrite rendered_lines_app; [|reflexivity|exact Ht|reflexivity].
      rewrite <- Hlines. simpl.
      replace (indent_after cs + 1 - 1)%Z with (indent_after cs) by lia.
      reflexivity.
    - unfold cs, geninput. rewrite <- app_assoc, !map_app, map_map. simpl.
      symmetry. etransitivity.
      { apply (filter_chars_body (map on_call pre) name attrs' pieces name). }
      f_equal. unfold body_items. rewrite Hsp, Hnl.
      pose proof (contains_nonempty_pieces _ Hnl).
      now destruct pieces. }
  split; [exact Hempty|].
  intros pieces Hsp Hnl. split; [now apply Hblank|].
  rewrite (Hblank pieces Hsp Hnl), Hempty. intros [= E].
  apply (f_equal (@length string)) in E.
  rewrite !length_app in E. simpl in E. lia.
Qed.

(** [<A/>] and [<A>], a line break, two spaces, [</A>], under [<Root>]. *)
Lemma self_closing_reconstruction_witness :
  rendered_lines
    (([StartElement "Root" []; CharacterData (String Str.LF "  ")]
      ++ [StartElement "A" []]) ++ [EndElement "A"])
  = ([xml_declaration; "<Root>"] ++ ["  <A />"], None)
  /\ rendered_lines
       (([StartElement "Root" []; CharacterData (String Str.LF "  ")]
         ++ [StartElement "A" []])
        ++ map CharacterData [String Str.LF ""; "  "] ++ [EndElement "A"])
     = ([xml_declaration; "<Root>"] ++ ["  <A>"; "  </A>"], None).
Proof.
  destruct (self_closing_reconstruction
              [StartElement "Root" []; CharacterData (String Str.LF "  ")]
              "A" [] [xml_declaration; "<Root>"] eq_refl) as [H1 H2].
  split.
  - exact H1.
  - exact (proj1 (H2 [String Str.LF ""; "  "] eq_refl eq_refl)).
Defined.

(** ** Idempotence of the upsert *)

Lemma text_before_end_app_r (l1 l2 : list event) :
  text_before_end (l1 ++ l2) -> text_before_end l2.
Proof.
  intros H pre item rest -> Ht.
  apply (H (l1 ++ pre) item rest); [|exact Ht].
  now rewrite <- app_assoc.
Qed.

Lemma text_before_end_head (c : string) (items : list event) :
  text_before_end (chars c :: items) ->
  exists n rest, items = end_elem n :: rest.
Proof. intros H. now apply (H [] (chars c) items). Qed.

(** [set_content] from the child found on, when its body is one [chars]
    item: the new element is sent after the siblings before it, and the
    scan for a duplicate goes on. *)
Lemma set_content_at_child name content o attrs c x rest :
  (forall more,
     skip_to_loop (Some name) None [] (o ++ more)
     = ahead o (skip_to_loop (Some name) None [] more)) ->
  set_content name content
    (o ++ start_elem name attrs :: chars c :: end_elem x :: rest)
  = ahead (o ++ [start_elem name attrs; chars content; end_elem name])
      (('(found, item) ← skip_to (Some name) None ;
        assert (negb found) (Some ("Duplicate element: " +:+ name)) ;;
        mret item) rest).
Proof.
  intros Hm. unfold set_content.
  assert (E : skip_to (Some name) None
                (o ++ start_elem name attrs :: chars c :: end_elem x :: rest)
              = (o, Returned (true, start_elem name attrs)
                      (chars c :: end_elem x :: rest))).
  { unfold skip_to. rewrite Hm. simpl. rewrite String.eqb_refl.
    unfold ahead. simpl. now rewrite app_nil_r. }
  gen_returned E.
  rewrite yield_run. cbn [is_chars]. rewrite assert_true_run. cbv beta.
  rewrite (gen_bind_returned (skip_to None None) _ (end_elem x :: rest) []
             (false, end_elem x) rest eq_refl).
  cbv beta iota. rewrite send_element_run. cbv beta.
  unfold ahead. simpl. rewrite <- app_assoc. reflexivity.
Qed.



(** [upsert_filter], by what [skip_to] and [set_content] do. *)
Lemma upsert_filter_run enclosing name content items :
  upsert_filter enclosing name content items =
  match skip_to (Some enclosing) None items with
  | (o, Returned (found, item) rest) =>
      if (found : bool) then
        match set_content name content rest with
        | (out, Returned item' rest') =>
            (o ++ item :: out ++ item' :: rest', Suspended)
        | (out, Raised e) => (o ++ item :: out, Raised e)
        | (out, Suspended) => (o ++ item :: out, Suspended)
        end
      else (o ++ item :: rest, Suspended)
  | (o, Raised e) => (o, Raised e)
  | (o, Suspended) => (o, Suspended)
  end.
Proof.
  unfold upsert_filter.
  destruct (skip_to (Some enclosing) None items) as [o [[found item] rest|e|]]
    eqn:E.
  - gen_returned E.
    unfold mbind, gen_bind, send, forward_items, mret, gen_ret, ahead.
    destruct found; simpl.
    + destruct (set_content name content rest) as [out [item' rest'|e|]];
        simpl; rewrite ?app_nil_r, <- ?app_assoc; reflexivity.
    + reflexivity.
  - now rewrite (gen_bind_raised _ _ _ _ _ E).
  - now rewrite (gen_bind_suspended _ _ _ _ E).
Qed.

(** The pass on [<Root><A/></Root>] appends the child, and on a document
    that has the child it replaces the text. *)
Example upsert_filter_inserts :
  pass (upsert_filter "Root" "B" "v")
    (geninput (map on_call [StartElement "Root" []; StartElement "A" [];
                            EndElement "A"; EndElement "Root"]))
  = Some [start_elem "Root" []; start_elem "A" []; end_elem "A";
          start_elem "B" []; chars "v"; end_elem "B"; end_elem "Root"].
Proof. reflexivity. Qed.

Example upsert_filter_replaces :
  pass (upsert_filter "Root" "B" "v")
    (geninput (map on_call [StartElement "Root" [];
                            StartElement "B" ["k"; "1"]; CharacterData "old";
                            EndElement "B"; EndElement "Root"]))
  = Some [start_elem "Root" []; start_elem "B" [("k", "1")]; chars "v";
          end_elem "B"; end_elem "Root"].
Proof. reflexivity. Qed.


Lemma filter_file_pass ParseFile (fs : gmap string string) input_filename
  (f : filter) output_filename text out :
  fs !! input_filename = Some text ->
  pass f (geninput (map on_call (calls (ParseFile text)))) = Some out ->
  snd (genoutput out) = None ->
  error (ParseFile text) = None ->
  filter_file ParseFile fs input_filename (Some f) output_filename
  = (<[output_filename := fst (genoutput out)]> fs, Completed []).
Proof.
  intros Hf Hp Hg He. unfold filter_file, run_pipeline. rewrite Hf, He.
  unfold pass in Hp.
  destruct (f (geninput (map on_call (calls (ParseFile text))))) as [o st].
  destruct st as [r rest|e|]; [discriminate|discriminate|].
  injection Hp as ->.
  destruct (genoutput out) as [t e]. simpl in Hg. now subst e.
Qed.


(** ** The round trip *)

Lemma node_induction (P : Layout.node -> Prop) :
  (forall name attrs, P (Layout.Empty name attrs)) ->
  (forall name attrs pieces, P (Layout.Content name attrs pieces)) ->
  (forall name attrs children,
     Forall P children -> P (Layout.Parent name attrs children)) ->
  forall n, P n.
Proof.
  intros HE HC HP. fix IH 1.
  intros [name attrs|name attrs pieces|name attrs children].
  - apply HE.
  - apply HC.
  - apply HP. induction children as [|c cs IHcs]; constructor.
    + apply IH.
    + exact IHcs.
Qed.

(** *** The adapter on the attributes *)

Lemma zip_pairs_flat_attrs (attrs : attrs_t) :
  zip_pairs (Layout.flat_attrs attrs) = attrs.
Proof.
  induction attrs as [|[k v] attrs IH]; [reflexivity|].
  simpl. now rewrite IH.
Qed.

Lemma odict_set_fresh (k v : string) (d : attrs_t) :
  forallb (fun nv => negb (String.eqb (fst nv) k)) d = true ->
  odict_set k v d = d ++ [(k, v)].
Proof.
  induction d as [|[k' v'] d IH]; [reflexivity|].
  simpl. intros [H1 H2]%andb_prop.
  apply negb_true_iff in H1. rewrite H1. now rewrite IH.
Qed.

Lemma distinct_names_fresh (acc : attrs_t) k v l :
  Layout.distinct_names (acc ++ (k, v) :: l) = true ->
  forallb (fun nv => negb (String.eqb (fst nv) k)) acc = true.
Proof.
  induction acc as [|[k' v'] acc IH]; [reflexivity|].
  simpl. intros [H1 H2]%andb_prop.
  rewrite (IH H2), andb_true_r.
  rewrite forallb_app in H1. apply andb_prop in H1 as [_ H1].
  simpl in H1. apply andb_prop in H1 as [H1 _].
  now rewrite String.eqb_sym.
Qed.

Lemma fold_odict_set_distinct (l acc : attrs_t) :
  Layout.distinct_names (acc ++ l) = true ->
  fold_left (fun d kv => odict_set (fst kv) (snd kv) d) l acc = acc ++ l.
Proof.
  revert acc; induction l as [|[k v] l IH]; intros acc H.
  - now rewrite app_nil_r.
  - simpl. rewrite (odict_set_fresh _ _ _ (distinct_names_fresh _ _ _ _ H)).
    rewrite IH; rewrite <- app_assoc; [reflexivity|exact H].
Qed.

Lemma on_call_start name attrs :
  Layout.distinct_names attrs = true ->
  on_call (StartElement name (Layout.flat_attrs attrs)) = start_elem name attrs.
Proof.
  intros H. simpl. rewrite zip_pairs_flat_attrs. unfold OrderedDict.
  now rewrite (fold_odict_set_distinct attrs []).
Qed.

Lemma plain_tag_distinct name attrs :
  Layout.plain_tag name attrs = true -> Layout.distinct_names attrs = true.
Proof. unfold Layout.plain_tag. now intros [_ H]%andb_prop. Qed.

(** *** The normalizer on a document *)

Lemma all_space_indent (d : nat) : Str.all_space (Layout.indent d) = true.
Proof. induction d as [|d IH]; [reflexivity|exact IH]. Qed.

Lemma plain_text_pieces (pieces : list string) :
  Layout.plain_text (Str.concat pieces) = true ->
  pieces <> []
  /\ Str.contains Str.LF (Str.concat pieces) && Str.all_space (Str.concat pieces)
     = false.
Proof.
  unfold Layout.plain_text. intros [[_ H1]%andb_prop H2]%andb_prop.
  apply negb_true_iff in H2. split; [|exact H2].
  now destruct pieces.
Qed.

Lemma concat_space_pieces (d : nat) :
  Str.concat (Layout.space_pieces d) = String Str.LF (Layout.indent d).
Proof.
  destruct d as [|d]; [reflexivity|].
  unfold Layout.space_pieces. cbn [Str.concat fold_right].
  now rewrite append_nil_r.
Qed.

(** The line break and indent between two tags are sent on by no step. *)
Lemma feed_space (st : fc_state) (d : nat) :
  feed filter_chars_step st (map on_call (map CharacterData (Layout.space_pieces d)))
  = (match content st with
     | Some acc => FcState (Some (acc +:+ String Str.LF (Layout.indent d))) true
     | None => st
     end, []).
Proof.
  rewrite map_map. change (fun x => on_call (CharacterData x)) with chars.
  rewrite <- (app_nil_r (map chars (Layout.space_pieces d))).
  destruct st as [[acc|] hc].
  - rewrite feed_pieces_body, concat_space_pieces. reflexivity.
  - rewrite feed_pieces_outside. reflexivity.
Qed.

Lemma feed_fc_node (n : Layout.node) :
  forall d st,
    Layout.plain n = true ->
    feed filter_chars_step st (map on_call (Layout.calls d n))
    = (FcState None false, Layout.items n).
Proof.
  induction n as [name attrs|name attrs pieces|name attrs children IH]
    using node_induction; intros d st Hp.
  - simpl in Hp. cbn [Layout.calls map].
    rewrite (on_call_start _ _ (plain_tag_distinct _ _ Hp)). reflexivity.
  - simpl in Hp. apply andb_prop in Hp as [Ht Hx].
    cbn [Layout.calls map]. rewrite map_app, map_map.
    rewrite (on_call_start _ _ (plain_tag_distinct _ _ Ht)).
    change (fun x => on_call (CharacterData x)) with chars.
    cbn [feed filter_chars_step].
    rewrite (feed_pieces_body "" false pieces).
    destruct (plain_text_pieces _ Hx) as [Hne Hb].
    destruct pieces as [|p ps]; [easy|].
    cbn [map feed filter_chars_step content has_content on_call].
    rewrite append_nil_l, strip_falsy, Hb. reflexivity.
  - simpl in Hp. apply andb_prop in Hp as [Ht Hc].
    cbn [Layout.calls map]. rewrite !map_app.
    rewrite (on_call_start _ _ (plain_tag_distinct _ _ Ht)).
    cbn [feed filter_chars_step]. rewrite !feed_app.
    assert (Hcs : forall st,
               feed filter_chars_step st
                 (map on_call
                    (flat_map
                       (fun c => map CharacterData (Layout.space_pieces (S d))
                                 ++ Layout.calls (S d) c) children))
               = (match children with [] => st | _ => FcState None false end,
                  flat_map Layout.items children)).
    { clear Ht. induction children as [|c cs IHcs]; intros st0; [reflexivity|].
      apply Forall_cons in IH as [IHc IH]. simpl in Hc.
      apply andb_prop in Hc as [Hc1 Hc2].
      cbn [flat_map]. rewrite !map_app, !feed_app, feed_space.
      rewrite (IHc (S d) _ Hc1), (IHcs IH Hc2).
      simpl. now destruct cs. }
    rewrite Hcs, feed_app, feed_space. destruct children as [|c cs].
    + cbn [map on_call feed filter_chars_step content has_content].
      rewrite append_nil_l, strip_falsy.
      assert (E : Str.contains Str.LF (String Str.LF (Layout.indent d))
                  && Str.all_space (String Str.LF (Layout.indent d)) = true).
      { simpl. apply all_space_indent. }
      rewrite E. reflexivity.
    + reflexivity.
Qed.

(** *** The line reconstructor on a document *)

Lemma feed_exn_step {S I O : Type} (step : S -> I -> exn + S * list O)
  s i s' o l :
  step s i = inr (s', o) ->
  feed_exn step s (i :: l) = ahead o (feed_exn step s' l).
Proof. intros H. simpl. rewrite H. now destruct (feed_exn step s' l). Qed.

Lemma to_lines_step_start st name attrs :
  holds_chars st = false ->
  to_lines_step st (start_elem name attrs)
  = inr (at_post_start_elem name attrs, pending_line st).
Proof. destruct st; [reflexivity|reflexivity|discriminate]. Qed.

Lemma feed_tl_node (n : Layout.node) :
  forall st rest,
    holds_chars st = false ->
    feed_exn to_lines_step st (Layout.items n ++ rest)
    = ahead (pending_line st ++ Layout.lines n)
        (feed_exn to_lines_step at_to_lines rest).
Proof.
  induction n as [name attrs|name attrs pieces|name attrs children IH]
    using node_induction; intros st rest Hst.
  - cbn [Layout.items app].
    rewrite (feed_exn_step _ _ _ _ _ _ (to_lines_step_start _ name attrs Hst)).
    erewrite feed_exn_step by (simpl; now rewrite String.eqb_refl).
    now rewrite ahead_ahead.
  - cbn [Layout.items app].
    rewrite (feed_exn_step _ _ _ _ _ _ (to_lines_step_start _ name attrs Hst)).
    erewrite feed_exn_step by reflexivity.
    erewrite feed_exn_step by (simpl; now rewrite String.eqb_refl).
    now rewrite !ahead_ahead, app_nil_r.
  - cbn [Layout.items Layout.lines].
    rewrite <- app_comm_cons.
    rewrite (feed_exn_step _ _ _ _ _ _ (to_lines_step_start _ name attrs Hst)).
    destruct children as [|c cs].
    + cbn [app flat_map].
      erewrite feed_exn_step by reflexivity.
      erewrite feed_exn_step by reflexivity.
      rewrite !ahead_ahead. now rewrite <- app_assoc.
    + assert (Hcs : forall l st0 rest0,
                 Forall (fun n => forall st rest,
                           holds_chars st = false ->
                           feed_exn to_lines_step st (Layout.items n ++ rest)
                           = ahead (pending_line st ++ Layout.lines n)
                               (feed_exn to_lines_step at_to_lines rest)) l ->
                 holds_chars st0 = false ->
                 l <> [] ->
                 feed_exn to_lines_step st0 (flat_map Layout.items l ++ rest0)
                 = ahead (pending_line st0 ++ flat_map Layout.lines l)
                     (feed_exn to_lines_step at_to_lines rest0)).
      { clear. induction l as [|c cs IHcs]; intros st0 rest0 IH Hst0 Hne;
          [easy|].
        apply Forall_cons in IH as [IHc IH].
        cbn [flat_map]. rewrite <- app_assoc, (IHc _ _ Hst0).
        destruct cs as [|c' cs].
        - cbn [flat_map app]. now rewrite !app_nil_r.
        - rewrite (IHcs at_to_lines rest0 IH eq_refl) by easy.
          rewrite ahead_ahead. cbn [pending_line app].
          now rewrite <- !app_assoc. }
      rewrite <- app_assoc,
        (Hcs (c :: cs) (at_post_start_elem name attrs) _ IH eq_refl) by easy.
      cbn [app]. erewrite feed_exn_step by reflexivity.
      rewrite !ahead_ahead. f_equal. cbn [pending_line].
      now rewrite <- !app_assoc.
Qed.

(** *** The indent annotator and the renderer on a document *)

Lemma xml_indent_of_nat (d : nat) : xml_indent (Z.of_nat d) = Layout.indent d.
Proof. unfold xml_indent, Layout.indent. now rewrite Nat2Z.id. Qed.

Lemma feed_indent_app (d : Z) (l1 l2 : list line_item) :
  fst (feed compute_indent_step d (l1 ++ l2))
  = fst (feed compute_indent_step (fst (feed compute_indent_step d l1)) l2)
  /\ flat_map to_strings_item (snd (feed compute_indent_step d (l1 ++ l2)))
     = flat_map to_strings_item (snd (feed compute_indent_step d l1))
       ++ flat_map to_strings_item
            (snd (feed compute_indent_step
                    (fst (feed compute_indent_step d l1)) l2)).
Proof.
  rewrite feed_app.
  destruct (feed compute_indent_step d l1) as [s1 o1]; simpl.
  destruct (feed compute_indent_step s1 l2) as [s2 o2]; simpl.
  now rewrite flat_map_app.
Qed.

Lemma feed_indent_node (n : Layout.node) :
  forall d,
    fst (feed compute_indent_step (Z.of_nat d) (Layout.lines n)) = Z.of_nat d
    /\ flat_map to_strings_item
         (snd (feed compute_indent_step (Z.of_nat d) (Layout.lines n)))
       = Layout.rendered d n.
Proof.
  induction n as [name attrs|name attrs pieces|name attrs children IH]
    using node_induction; intros d.
  - simpl. now rewrite xml_indent_of_nat.
  - simpl. now rewrite xml_indent_of_nat, ?app_nil_r.
  - assert (Hcs : fst (feed compute_indent_step (Z.of_nat (S d))
                         (flat_map Layout.lines children)) = Z.of_nat (S d)
                  /\ flat_map to_strings_item
                       (snd (feed compute_indent_step (Z.of_nat (S d))
                               (flat_map Layout.lines children)))
                     = flat_map (Layout.rendered (S d)) children).
    { induction children as [|c cs IHcs]; [now split|].
      apply Forall_cons in IH as [IHc IH].
      destruct (IHc (S d)) as [Hc1 Hc2]. destruct (IHcs IH) as [Hs1 Hs2].
      cbn [flat_map].
      destruct (feed_indent_app (Z.of_nat (S d)) (Layout.lines c)
                  (flat_map Layout.lines cs)) as [-> ->].
      rewrite Hc1, Hc2, Hs1, Hs2. now split. }
    destruct Hcs as [Hs1 Hs2].
    cbn [Layout.lines Layout.rendered].
    change (start_elem_line name attrs
            :: flat_map Layout.lines children ++ [end_elem_line name])
      with ([start_elem_line name attrs]
            ++ flat_map Layout.lines children ++ [end_elem_line name]).
    destruct (feed_indent_app (Z.of_nat d) [start_elem_line name attrs]
                (flat_map Layout.lines children ++ [end_elem_line name]))
      as [-> ->].
    cbn [feed compute_indent_step fst snd app flat_map to_strings_item].
    replace (Z.of_nat d + 1)%Z with (Z.of_nat (S d)) by lia.
    destruct (feed_indent_app (Z.of_nat (S d)) (flat_map Layout.lines children)
                [end_elem_line name]) as [-> ->].
    rewrite Hs1, Hs2.
    cbn [feed compute_indent_step fst snd app flat_map to_strings_item].
    replace (Z.of_nat (S d) - 1)%Z with (Z.of_nat d) by lia.
    rewrite xml_indent_of_nat. now split.
Qed.

(** *** The text of a document *)

Lemma replace_none (c : ascii) (r s : string) :
  Str.contains c s = false -> Str.replace c r s = s.
Proof.
  induction s as [|x s IH]; [reflexivity|].
  simpl. intros [H1 H2]%orb_false_elim.
  now rewrite H1, (IH H2).
Qed.

Lemma replace_app (c : ascii) (r a b : string) :
  Str.replace c r (a +:+ b) = Str.replace c r a +:+ Str.replace c r b.
Proof.
  induction a as [|x a IH]; [reflexivity|].
  rewrite append_cons. simpl. now rewrite IH, append_assoc.
Qed.

Lemma append_inj_l (a x y : string) : a +:+ x = a +:+ y -> x = y.
Proof.
  induction a as [|c a IH]; [easy|].
  rewrite !append_cons. intros [= H]. now apply IH.
Qed.

Lemma join_cons (sep x : string) (l : list string) :
  Str.join sep (x :: l) = x +:+ Str.concat (map (String.append sep) l).
Proof.
  revert x; induction l as [|y l IH]; intros x.
  - simpl. now rewrite append_nil_r.
  - change (Str.join sep (x :: y :: l)) with (x +:+ sep +:+ Str.join sep (y :: l)).
    rewrite IH. simpl. now rewrite append_assoc.
Qed.

Lemma line_writer_later (newline : string) (lines : list string) :
  feed (line_writer_step newline) false lines
  = (false, map (String.append newline) lines).
Proof.
  induction lines as [|x l IH]; [reflexivity|].
  simpl. now rewrite IH.
Qed.

(** [line_writer] writes the lines joined by the newline. *)
Lemma line_writer_join (newline : string) (lines : list string) :
  line_writer newline lines = Str.join newline lines.
Proof.
  destruct lines as [|x l]; [reflexivity|].
  rewrite join_cons. unfold line_writer. cbn [feed line_writer_step].
  rewrite line_writer_later. reflexivity.
Qed.

(** Splitting at the line feeds and starting every line with CRLF is
    writing every line feed as CRLF. *)
Lemma concat_split_lines (s : string) :
  Str.concat (map (String.append Str.CRLF) (Str.split Str.LF s))
  = Str.CRLF +:+ Str.replace Str.LF Str.CRLF s.
Proof.
  induction s as [|c s IH]; [reflexivity|].
  simpl. destruct (Ascii.eqb c Str.LF) eqn:E.
  - simpl. rewrite IH. reflexivity.
  - pose proof (split_nonempty Str.LF s) as Hne.
    destruct (Str.split Str.LF s) as [|h t]; [easy|].
    simpl in *. rewrite append_assoc in IH. apply append_inj_l in IH.
    now rewrite append_assoc, !append_cons, append_nil_l, IH.
Qed.

(** *** Attribute values: [quoteattr] and the canonical form *)

Lemma escape_attr_app (a b : string) :
  escape_attr (a +:+ b) = escape_attr a +:+ escape_attr b.
Proof. unfold escape_attr. now rewrite !replace_app. Qed.

Lemma escape_attr_char (c : ascii) :
  escape_attr (String c "") = Layout.write_char squote c.
Proof. destruct c as [[] [] [] [] [] [] [] []]; reflexivity. Qed.

Lemma escape_attr_chars (s : string) :
  escape_attr s = Layout.write_chars squote s.
Proof.
  induction s as [|c s IH]; [reflexivity|].
  change (String c s) with (String c "" +:+ s).
  rewrite escape_attr_app, escape_attr_char, IH. reflexivity.
Qed.

Lemma contains_write_char (q c : ascii) :
  q = dquote \/ q = squote ->
  Str.contains q (Layout.write_char squote c) = Ascii.eqb c q.
Proof.
  intros [-> | ->]; destruct c as [[] [] [] [] [] [] [] []]; reflexivity.
Qed.

Lemma contains_write_chars (q : ascii) (s : string) :
  q = dquote \/ q = squote ->
  Str.contains q (Layout.write_chars squote s) = Str.contains q s.
Proof.
  intros Hq. induction s as [|c s IH]; [reflexivity|].
  cbn [Layout.write_chars Str.contains].
  now rewrite contains_app, (contains_write_char q c Hq), IH.
Qed.

Lemma replace_write_char (c : ascii) :
  Str.replace dquote "&quot;" (Layout.write_char squote c)
  = Layout.write_char dquote c.
Proof. destruct c as [[] [] [] [] [] [] [] []]; reflexivity. Qed.

Lemma replace_write_chars (s : string) :
  Str.replace dquote "&quot;" (Layout.write_chars squote s)
  = Layout.write_chars dquote s.
Proof.
  induction s as [|c s IH]; [reflexivity|].
  cbn [Layout.write_chars]. now rewrite replace_app, replace_write_char, IH.
Qed.

(** [quoteattr] writes a value in the canonical form. *)
Lemma quoteattr_written (v : string) : quoteattr v = Layout.write_value v.
Proof.
  unfold quoteattr, Layout.write_value.
  rewrite escape_attr_chars, !contains_write_chars by auto.
  destruct (Str.contains dquote v) eqn:Hd;
    [destruct (Str.contains squote v) eqn:Hs|]; cbn [andb negb].
  - now rewrite replace_write_chars.
  - reflexivity.
  - rewrite <- replace_write_chars, replace_none; [reflexivity|].
    now rewrite contains_write_chars by auto.
Qed.

Lemma xml_attrs_written (attrs : attrs_t) :
  xml_attrs attrs = Layout.write_attrs attrs.
Proof.
  unfold xml_attrs, Layout.write_attrs. f_equal.
  apply map_ext. intros [k v]. now rewrite quoteattr_written.
Qed.

Lemma plain_tag_parts name attrs :
  Layout.plain_tag name attrs = true ->
  Str.contains Str.LF name = false
  /\ xml_attrs attrs = Layout.write_attrs attrs
  /\ attr_names_one_line attrs = true.
Proof.
  unfold Layout.plain_tag. intros [[Hn Ha]%andb_prop _]%andb_prop.
  apply negb_true_iff in Hn. split; [exact Hn|].
  split; [apply xml_attrs_written|exact Ha].
Qed.

(** The documents of [plain] are those of [shaped] with the character
    data of [plain_text]. *)
Lemma plain_shaped (n : Layout.node) :
  Layout.shaped Layout.plain_text n = Layout.plain n.
Proof.
  induction n as [name attrs|name attrs pieces|name attrs children IH]
    using node_induction; [reflexivity|reflexivity|].
  simpl. f_equal. induction IH as [|c cs Hc _ IHcs]; [reflexivity|].
  simpl. now rewrite Hc, IHcs.
Qed.

Lemma shaped_weaken (ok ok' : string -> bool) (n : Layout.node) :
  (forall s, ok s = true -> ok' s = true) ->
  Layout.shaped ok n = true -> Layout.shaped ok' n = true.
Proof.
  intros Hok.
  induction n as [name attrs|name attrs pieces|name attrs children IH]
    using node_induction; simpl; [easy| |].
  - intros [-> H]%andb_true_iff. now apply Hok.
  - intros [-> H]%andb_true_iff. simpl.
    induction IH as [|c cs Hc _ IHcs]; [reflexivity|].
    simpl in H |- *. apply andb_true_iff in H as [H1 H2].
    now rewrite (Hc H1), (IHcs H2).
Qed.

Lemma plain_text_readable (s : string) :
  Layout.plain_text s = true -> Layout.readable_text s = true.
Proof.
  unfold Layout.plain_text, Layout.readable_text.
  intros [[_ ->]%andb_true_iff ->]%andb_true_iff. reflexivity.
Qed.

Lemma plain_readable (n : Layout.node) :
  Layout.plain n = true -> Layout.shaped Layout.readable_text n = true.
Proof.
  rewrite <- plain_shaped. apply shaped_weaken, plain_text_readable.
Qed.

Lemma rendered_text_shaped (text_ok : string -> bool) (n : Layout.node) :
  forall d,
    Layout.shaped text_ok n = true ->
    Str.concat (map (String.append Str.CRLF) (Layout.rendered d n))
    = Str.CRLF +:+ Layout.write d n.
Proof.
  induction n as [name attrs|name attrs pieces|name attrs children IH]
    using node_induction; intros d Hp.
  - simpl in Hp. destruct (plain_tag_parts _ _ Hp) as (Hn & Ha & _).
    cbn [Layout.rendered Layout.write map Str.concat fold_right].
    unfold xml_tag_empty_elem. rewrite Ha, append_nil_r.
    now rewrite ?append_assoc.
  - simpl in Hp. apply andb_prop in Hp as [Ht Hx].
    destruct (plain_tag_parts _ _ Ht) as (Hn & Ha & Ho).
    cbn [Layout.rendered Layout.write].
    rewrite concat_split_lines, !replace_app.
    rewrite (replace_none _ _ (Layout.indent d)) by apply contains_repeat_spaces.
    rewrite (replace_none _ _ (xml_tag_open_elem name attrs))
      by now apply xml_tag_open_elem_one_line.
    rewrite (replace_none _ _ (xml_tag_close_elem name))
      by now apply xml_tag_close_elem_one_line.
    unfold Layout.write_text.
    unfold xml_tag_open_elem, xml_tag_close_elem. rewrite Ha.
    now rewrite ?append_assoc.
  - simpl in Hp. apply andb_prop in Hp as [Ht Hc].
    destruct (plain_tag_parts _ _ Ht) as (Hn & Ha & Ho).
    cbn [Layout.rendered Layout.write map Str.concat fold_right].
    rewrite map_app. fold (Str.concat).
    change (fold_right String.append "" ?l) with (Str.concat l).
    rewrite concat_app.
    cbn [map Str.concat fold_right]. rewrite append_nil_r.
    assert (Hcs : forall z,
               Str.concat (map (String.append Str.CRLF)
                             (flat_map (Layout.rendered (S d)) children))
               +:+ Str.CRLF +:+ z
               = Str.CRLF
                 +:+ Str.concat (map (fun c => Layout.write (S d) c +:+ Str.CRLF)
                                   children) +:+ z).
    { intros z. clear Ht Hn Ha Ho.
      induction children as [|c cs IHcs]; [reflexivity|].
      apply Forall_cons in IH as [IHc IH]. simpl in Hc.
      apply andb_prop in Hc as [Hc1 Hc2].
      cbn [flat_map map Str.concat fold_right].
      rewrite map_app. change (fold_right String.append "" ?l) with (Str.concat l).
      rewrite concat_app, (IHc (S d) Hc1).
      rewrite !append_assoc. rewrite (IHcs IH Hc2).
      now rewrite ?append_assoc. }
    unfold xml_tag_open_elem, xml_tag_close_elem. rewrite Ha.
    rewrite !append_assoc. now rewrite Hcs.
Qed.

Lemma rendered_text (n : Layout.node) :
  forall d,
    Layout.plain n = true ->
    Str.concat (map (String.append Str.CRLF) (Layout.rendered d n))
    = Str.CRLF +:+ Layout.write d n.
Proof.
  intros d Hp. rewrite <- plain_shaped in Hp.
  exact (rendered_text_shaped _ n d Hp).
Qed.

(** *** The tokenizer on a document *)

(** Pieces of character data ahead of a [start_elem] are dropped,
    wherever they come. *)
Lemma feed_between (st : fc_state) (between : list string) name attrs
  (rest : list event) :
  feed filter_chars_step st
    (map on_call (map CharacterData between) ++ start_elem name attrs :: rest)
  = feed filter_chars_step st (start_elem name attrs :: rest).
Proof.
  rewrite map_map. change (fun x => on_call (CharacterData x)) with chars.
  destruct st as [[acc|] hc].
  - rewrite feed_pieces_body. reflexivity.
  - rewrite feed_pieces_outside. reflexivity.
Qed.

Lemma elements_starts (n : Layout.node) (cs : list expat_call) :
  Layout.elements n cs ->
  exists attrs rest, cs = StartElement (node_name n) attrs :: rest.
Proof. intros H. inversion H; subst; simpl; eauto. Qed.

(** Whatever the layout and the pieces the character data comes in, the
    normalizer sends the items of the document. *)
Lemma feed_fc_elements (n : Layout.node) :
  forall st cs,
    Layout.shaped Layout.readable_text n = true ->
    Layout.elements n cs ->
    feed filter_chars_step st (map on_call cs)
    = (FcState None false, Layout.items n).
Proof.
  induction n as [name attrs|name attrs pieces|name attrs children IH]
    using node_induction; intros st cs Hp Ht.
  - inversion Ht; subst. simpl in Hp. cbn [map].
    rewrite (on_call_start _ _ (plain_tag_distinct _ _ Hp)). reflexivity.
  - inversion Ht as [|? ? ? pieces' Hc| |]; subst.
    simpl in Hp. apply andb_prop in Hp as [Hg Hx].
    cbn [map]. rewrite map_app, map_map.
    rewrite (on_call_start _ _ (plain_tag_distinct _ _ Hg)).
    change (fun x => on_call (CharacterData x)) with chars.
    cbn [feed filter_chars_step].
    rewrite (feed_pieces_body "" false pieces'), Hc.
    assert (Hne : pieces' <> []).
    { intros ->. rewrite <- Hc in Hx. now vm_compute in Hx. }
    unfold Layout.readable_text in Hx.
    apply andb_prop in Hx as [_ Hb]. apply negb_true_iff in Hb.
    destruct pieces' as [|p ps]; [easy|].
    cbn [map feed filter_chars_step content has_content on_call].
    rewrite append_nil_l, strip_falsy, Hb. reflexivity.
  - simpl in Hp. apply andb_prop in Hp as [Hg Hc].
    inversion Ht as [| |? ? space Hlf Hsp|? ? c children' body between Hbody];
      subst.
    + (* only whitespace with a line break *)
      cbn [map]. rewrite map_app, map_map.
      rewrite (on_call_start _ _ (plain_tag_distinct _ _ Hg)).
      change (fun x => on_call (CharacterData x)) with chars.
      cbn [feed filter_chars_step].
      rewrite (feed_pieces_body "" false space).
      assert (Hne : space <> []) by (intros ->; discriminate).
      destruct space as [|p ps]; [easy|].
      cbn [map feed filter_chars_step content has_content on_call].
      rewrite append_nil_l, strip_falsy, Hlf, Hsp. reflexivity.
    + (* child elements *)
      cbn [map]. rewrite !map_app.
      rewrite (on_call_start _ _ (plain_tag_distinct _ _ Hg)).
      cbn [feed filter_chars_step]. rewrite !feed_app.
      assert (Hcs : forall children body st,
                 Forall (fun n => forall st cs,
                           Layout.shaped Layout.readable_text n = true ->
                           Layout.elements n cs ->
                           feed filter_chars_step st (map on_call cs)
                           = (FcState None false, Layout.items n)) children ->
                 forallb (Layout.shaped Layout.readable_text) children = true ->
                 Layout.elements_children children body ->
                 feed filter_chars_step st (map on_call body)
                 = (match children with [] => st | _ => FcState None false end,
                    flat_map Layout.items children)).
      { clear. induction children as [|c children' IHcs];
          intros body0 st0 IH0 Hc0 Hb0.
        - inversion Hb0; subst. reflexivity.
        - inversion Hb0 as [|between0 ? cs0 ? body1 He0 Hb1]; subst.
          apply Forall_cons in IH0 as [IHc IH0]. simpl in Hc0.
          apply andb_prop in Hc0 as [Hc1 Hc2].
          destruct (elements_starts _ _ He0) as (a0 & rest0 & E0).
          rewrite map_app. rewrite E0 at 1. rewrite map_app. cbn [map on_call].
          rewrite <- app_comm_cons, feed_between.
          change (start_elem (node_name c) (OrderedDict (zip_pairs a0))
                  :: map on_call rest0 ++ map on_call body1)
            with (map on_call (StartElement (node_name c) a0 :: rest0)
                  ++ map on_call body1).
          rewrite <- E0, feed_app, (IHc _ _ Hc1 He0), (IHcs _ _ IH0 Hc2 Hb1).
          simpl. now destruct children'. }
      rewrite (Hcs _ _ _ IH Hc Hbody).
      rewrite map_map. change (fun x => on_call (CharacterData x)) with chars.
      rewrite feed_pieces_outside. reflexivity.
Qed.

(** A document read as it is laid out is a document whose elements are
    reported. *)
Lemma tokens_elements (n : Layout.node) :
  forall d cs, Layout.tokens d n cs -> Layout.elements n cs.
Proof.
  induction n as [name attrs|name attrs pieces|name attrs children IH]
    using node_induction; intros d cs Ht.
  - inversion Ht; subst. constructor.
  - inversion Ht; subst. now constructor.
  - inversion Ht as [| |? ? ? ? body space Hbody Hspace]; subst.
    assert (Hcs : Layout.elements_children children body).
    { clear Ht Hspace. revert body Hbody.
      induction children as [|c children' IHcs]; intros body Hbody.
      - inversion Hbody; subst. constructor.
      - inversion Hbody as [|? space0 ? cs0 ? body1 Hs0 Hc0 Hb1]; subst.
        apply Forall_cons in IH as [IHc IH].
        constructor; [now apply (IHc (S d))|now apply IHcs]. }
    destruct children as [|c children'].
    + inversion Hcs; subst. cbn [app].
      constructor; rewrite Hspace; [reflexivity|apply all_space_indent].
    + now constructor.
Qed.

Lemma reads_parses (p : parse) (root : Layout.node) :
  Layout.reads p root -> Layout.parses p root.
Proof.
  destruct p as [cs e]. intros [Ht He]. split; [|exact He].
  exact (tokens_elements _ _ _ Ht).
Qed.

(** Whatever the pieces the character data comes in, the normalizer sends
    the items of a document that is read as it is laid out. *)
Lemma feed_fc_tokens (n : Layout.node) :
  forall d st cs,
    Layout.shaped Layout.readable_text n = true ->
    Layout.tokens d n cs ->
    feed filter_chars_step st (map on_call cs)
    = (FcState None false, Layout.items n).
Proof.
  intros d st cs Hp Ht.
  exact (feed_fc_elements n st cs Hp (tokens_elements _ _ _ Ht)).
Qed.

(** The calls with the line break in one piece and the indent in another
    are calls of a tokenizer that reads the document. *)
Lemma tokens_calls (n : Layout.node) :
  forall d, Layout.tokens d n (Layout.calls d n).
Proof.
  induction n as [name attrs|name attrs pieces|name attrs children IH]
    using node_induction; intros d.
  - constructor.
  - now constructor.
  - cbn [Layout.calls]. constructor; [|apply concat_space_pieces].
    induction children as [|c children' IHcs]; [constructor|].
    apply Forall_cons in IH as [IHc IH].
    cbn [flat_map]. rewrite <- app_assoc.
    constructor; [apply concat_space_pieces|apply IHc|now apply IHcs].
Qed.

Lemma reads_parse_of (root : Layout.node) :
  Layout.reads (Layout.parse_of root) root.
Proof. split; [apply tokens_calls|reflexivity]. Qed.

(** *** The whole pipeline on a document *)

Lemma run_pipeline_document (root : Layout.node) (cs : list expat_call) :
  Layout.plain root = true ->
  Layout.tokens 0 root cs ->
  run_pipeline no_filter cs = (Layout.document root, None).
Proof.
  intros Hp Ht. unfold run_pipeline, geninput, filter_chars, filter_chars_from.
  rewrite (feed_fc_tokens root 0 fc_init cs (plain_readable _ Hp) Ht).
  cbn [snd no_filter].
  unfold genoutput, genoutput_lines, to_lines.
  rewrite <- (app_nil_r (Layout.items root)).
  rewrite (feed_tl_node root at_to_lines [] eq_refl).
  cbn [pending_line app feed_exn ahead fst snd]. rewrite app_nil_r.
  unfold to_strings, compute_indent.
  destruct (feed_indent_node root 0) as [_ Hr].
  change (Z.of_nat 0) with 0%Z in Hr.
  rewrite Hr, line_writer_join, join_cons, (rendered_text root 0 Hp).
  reflexivity.
Qed.

(** C1, as stated, fails: an element written as an open tag directly
    followed by its close tag comes back self-closing, as the tokenizer
    reports the two forms alike; character data is written as it was
    decoded, so that text with an entity reference does not come back as
    it was; and an attribute value with a double quote and no single
    quote comes back between single quotes. *)
Lemma round_trip_counterexample :
  let rewritten text cs :=
    fst (filter_file (fun _ => Parse cs None)
           {["p.vcxproj" := text]} "p.vcxproj" None "p.vcxproj")
    !! "p.vcxproj" in
  let document line := xml_declaration +:+ Str.CRLF +:+ line in
  let q := String dquote "" in
  (rewritten (document "<A></A>") [StartElement "A" []; EndElement "A"]
   = Some (document "<A />")
   /\ document "<A />" <> document "<A></A>")
  /\ (rewritten (document "<A>a&amp;b</A>")
        [StartElement "A" []; CharacterData "a"; CharacterData "&";
         CharacterData "b"; EndElement "A"]
      = Some (document "<A>a&b</A>")
      /\ document "<A>a&b</A>" <> document "<A>a&amp;b</A>")
  /\ (rewritten (document ("<A k=" +:+ q +:+ "x&quot;y" +:+ q +:+ " />"))
        [StartElement "A" ["k"; "x" +:+ q +:+ "y"]; EndElement "A"]
      = Some (document ("<A k='x" +:+ q +:+ "y' />"))
      /\ document ("<A k='x" +:+ q +:+ "y' />")
         <> document ("<A k=" +:+ q +:+ "x&quot;y" +:+ q +:+ " />")).
Proof.
  intros rewritten document q.
  split; [|split]; (split; [reflexivity|discriminate]).
Qed.

(** C1, amended: a document of elements that are empty, hold character
    data only or hold child elements only, laid out with two spaces per
    level and CRLF between lines under the declaration line, whose
    character data is written as it is, and is neither empty nor
    whitespace with a line break, and whose attribute values are written
    in the form of [quoteattr], is written back by the pipeline with no
    filter exactly as it was, whenever the tokenizer reads the document as
    it is laid out: the tags with their attributes, the character data of
    an element, and the line break and indent between two tags, in any
    pieces. *)
Theorem round_trip_plain ParseFile (fs : gmap string string)
  (input_filename output_filename : string) (root : Layout.node) :
  Layout.plain root = true ->
  fs !! input_filename = Some (Layout.document root) ->
  Layout.reads (ParseFile (Layout.document root)) root ->
  filter_file ParseFile fs input_filename None output_filename
  = (<[output_filename := Layout.document root]> fs, Completed []).
Proof.
  intros Hp Hf HP. unfold filter_file. rewrite Hf.
  destruct (ParseFile (Layout.document root)) as [cs e].
  destruct HP as [Ht ->]. cbn [calls error].
  now rewrite (run_pipeline_document _ _ Hp Ht).
Qed.

Lemma round_trip_plain_witness :
  let root :=
    Layout.Parent "Project" [("ToolsVersion", "4.0")]
      [Layout.Empty "Import" [("Project", "$(Props)")];
       Layout.Parent "ImportGroup"
         [("Condition", "'$(A)'<'2' & '$(B)'>'1'")] [];
       Layout.Parent "PropertyGroup" []
         [Layout.Content "Options" [] ["/a"; String Str.LF "      /b>c"]]] in
  filter_file (fun _ => Layout.parse_of root)
    {["p.vcxproj" := Layout.document root]} "p.vcxproj" None "p.vcxproj"
  = (<["p.vcxproj" := Layout.document root]>
       {["p.vcxproj" := Layout.document root]}, Completed []).
Proof.
  intros root. apply round_trip_plain.
  - reflexivity.
  - apply lookup_singleton_eq.
  - apply reads_parse_of.
Defined.

(** * Further properties of the code *)



Lemma filter_chars_from_cons st item items :
  filter_chars_from st (item :: items)
  = snd (filter_chars_step st item)
    ++ filter_chars_from (fst (filter_chars_step st item)) items.
Proof.
  unfold filter_chars_from. simpl.
  destruct (filter_chars_step st item) as [s' o]. simpl.
  destruct (feed filter_chars_step s' items) as [s'' o']. reflexivity.
Qed.

Lemma filter_chars_from_app st l1 l2 :
  filter_chars_from st (l1 ++ l2)
  = filter_chars_from st l1
    ++ filter_chars_from (fst (feed filter_chars_step st l1)) l2.
Proof.
  unfold filter_chars_from. rewrite feed_app.
  destruct (feed filter_chars_step st l1) as [s1 o1]. simpl.
  destruct (feed filter_chars_step s1 l2) as [s2 o2]. reflexivity.
Qed.

(** X1: [filter_chars] never drops, adds, alters or reorders a tag: the
    [start_elem] and [end_elem] items it sends are those it received, in
    the order received. Only [chars] and [noop] items come and go. *)
Theorem filter_chars_keeps_tags (items : list event) :
  List.filter is_tag (filter_chars items) = List.filter is_tag items.
Proof.
  unfold filter_chars. generalize fc_init as st.
  induction items as [|i items IH]; intros st; [reflexivity|].
  rewrite filter_chars_from_cons, List.filter_app, IH.
  destruct i as [n a|n|c|]; simpl; try reflexivity.
  - destruct (content st) as [acc|]; [|reflexivity].
    destruct (has_content st); [|reflexivity].
    now destruct (_ && _).
  - now destruct (content st).
Qed.

Lemma filter_chars_from_twice (items : list event) :
  forall st st',
    match content st with
    | Some _ => st' = FcState (Some "") false
    | None => content st' = None
    end ->
    filter_chars_from st' (filter_chars_from st items)
    = filter_chars_from st items.
Proof.
  induction items as [|i items IH]; intros st st' R; [reflexivity|].
  rewrite filter_chars_from_cons, filter_chars_from_app.
  destruct i as [n a|n|c|]; simpl.
  - unfold filter_chars_from at 1. simpl. f_equal. now apply IH.
  - destruct (content st) as [acc|] eqn:E.
    + subst st'.
      destruct (has_content st).
      * destruct (Str.contains Str.LF acc && negb (Str.truthy (Str.strip acc)))
          eqn:C.
        -- unfold filter_chars_from at 1. simpl. do 2 f_equal. now apply IH.
        -- unfold filter_chars_from at 1. simpl. rewrite append_nil_l, C. simpl.
           do 2 f_equal. now apply IH.
      * unfold filter_chars_from at 1. simpl. f_equal. now apply IH.
    + unfold filter_chars_from at 1. simpl. rewrite R. simpl. f_equal.
      now apply IH.
  - destruct (content st) as [acc|] eqn:E; simpl; apply IH; simpl.
    + exact R.
    + now rewrite E.
  - unfold filter_chars_from at 1. simpl. f_equal. apply IH.
    destruct (content st); [now subst|exact R].
Qed.

(** X2: normalizing twice is normalizing once: [filter_chars] run over
    what [filter_chars] sent sends the same items again. *)
Theorem filter_chars_idempotent (items : list event) :
  filter_chars (filter_chars items) = filter_chars items.
Proof. apply filter_chars_from_twice. reflexivity. Qed.



(** X3: with neither a name nor an attribute test [skip_to] matches no
    element: whenever it returns, it returns [False] with the [end_elem]
    that closes the current element, and what it forwarded before is a run
    of complete items and elements. *)
Theorem skip_to_match_nothing (items out : list event) (b : bool) (item : event)
  (rest : list event) :
  skip_to None None items = (out, Returned (b, item) rest) ->
  b = false
  /\ (exists n, item = end_elem n)
  /\ items = out ++ item :: rest
  /\ siblings (fun _ _ => true) out.
Proof.
  intros H. unfold skip_to in H.
  pose proof (skip_to_loop_closes _ _ _ _ _ _ _ H) as Hc.
  apply skip_to_loop_returned in H as (-> & _ & Hr).
  apply skip_to_loop_returned_item in Hr.
  destruct b.
  - destruct Hr as (n & a & _ & Hn). discriminate.
  - repeat split; [exact Hr|].
    inversion Hc; subst. eapply siblings_weaken; [|eassumption]. reflexivity.
Qed.

Lemma skip_to_match_nothing_witness :
  skip_to None None
    [chars "x"; start_elem "A" []; start_elem "B" []; end_elem "B"; end_elem "A";
     end_elem "Root"; start_elem "C" []]
  = ([chars "x"; start_elem "A" []; start_elem "B" []; end_elem "B"; end_elem "A"],
     Returned (false, end_elem "Root") [start_elem "C" []])
  /\ (false = false
      /\ (exists n, end_elem "Root" = end_elem n)
      /\ [chars "x"; start_elem "A" []; start_elem "B" []; end_elem "B";
          end_elem "A"; end_elem "Root"; start_elem "C" []]
         = [chars "x"; start_elem "A" []; start_elem "B" []; end_elem "B";
            end_elem "A"] ++ end_elem "Root" :: [start_elem "C" []]
      /\ siblings (fun _ _ => true)
           [chars "x"; start_elem "A" []; start_elem "B" []; end_elem "B";
            end_elem "A"]).
Proof.
  split; [reflexivity|].
  apply (skip_to_match_nothing _ _ false (end_elem "Root") [start_elem "C" []]).
  reflexivity.
Defined.

Lemma skip_to_loop_raised name attr_test items :
  forall stack out e,
    skip_to_loop name attr_test stack items = (out, Raised e) ->
    e = AssertionError None
    /\ exists n rest, items = out ++ end_elem n :: rest.
Proof.
  induction items as [|i items IH]; intros stack out e H; [discriminate|].
  destruct i as [n a|n|c|]; simpl in H.
  - destruct (_ && _) in H; [discriminate|].
    apply sent_inv in H as (out' & -> & H).
    apply IH in H as (-> & m & rest & ->). eauto.
  - destruct stack as [|x stack]; [discriminate|].
    destruct (String.eqb x n).
    + apply sent_inv in H as (out' & -> & H).
      apply IH in H as (-> & m & rest & ->). eauto.
    + injection H as <- <-. eauto.
  - apply sent_inv in H as (out' & -> & H).
    apply IH in H as (-> & m & rest & ->). eauto.
  - apply sent_inv in H as (out' & -> & H).
    apply IH in H as (-> & m & rest & ->). eauto.
Qed.

(** X4: [skip_to] forwards what it receives as it is: when it returns,
    the items received are those sent, then the item returned, then those
    not consumed; while it is suspended it has sent everything received;
    and when it raises, the exception is the assertion failure on an
    [end_elem], which was not sent, and all before it was. *)
Theorem skip_to_forwards_prefix (name : option string)
  (attr_test : option (attrs_t -> bool)) (items : list event) :
  match skip_to name attr_test items with
  | (out, Returned (_, item) rest) => items = out ++ item :: rest
  | (out, Suspended) => items = out
  | (out, Raised e) =>
      e = AssertionError None /\ exists n rest, items = out ++ end_elem n :: rest
  end.
Proof.
  unfold skip_to.
  destruct (skip_to_loop name attr_test [] items) as [out [[b item] rest|e|]] eqn:H.
  - now apply skip_to_loop_returned in H.
  - now apply skip_to_loop_raised in H.
  - symmetry. now apply skip_to_loop_suspended in H.
Qed.

Lemma skip_to_loop_not_raised name attr_test items :
  forall stack enclosing out e,
    nested (stack ++ enclosing) items = true ->
    skip_to_loop name attr_test stack items <> (out, Raised e).
Proof.
  induction items as [|i items IH]; intros stack enclosing out e N H;
    [discriminate|].
  destruct i as [n a|n|c|]; simpl in H, N.
  - destruct (_ && _) in H; [discriminate|].
    apply sent_inv in H as (out' & -> & H).
    now apply (IH (n :: stack) enclosing) in H.
  - destruct stack as [|x stack]; [discriminate|]. simpl in N.
    apply andb_true_iff in N as [E N]. rewrite E in H.
    apply sent_inv in H as (out' & -> & H).
    now apply (IH stack enclosing) in H.
  - apply sent_inv in H as (out' & -> & H). now apply (IH stack enclosing) in H.
  - apply sent_inv in H as (out' & -> & H). now apply (IH stack enclosing) in H.
Qed.

(** X5: the assertion of [skip_to] holds on well-nested input: when the
    items received are the start of a well-nested stream inside some
    enclosing elements, [skip_to] does not raise. *)
Theorem skip_to_nested_no_raise (name : option string)
  (attr_test : option (attrs_t -> bool)) (enclosing : list string)
  (items : list event) :
  nested enclosing items = true ->
  forall out e, skip_to name attr_test items <> (out, Raised e).
Proof.
  intros N out e. now apply (skip_to_loop_not_raised _ _ _ [] enclosing).
Qed.

Lemma skip_to_nested_no_raise_witness :
  nested ["Root"] [start_elem "A" []; chars "x"; end_elem "A"; end_elem "Root"]
  = true
  /\ forall out e,
       skip_to (Some "B") None
         [start_elem "A" []; chars "x"; end_elem "A"; end_elem "Root"]
       <> (out, Raised e).
Proof.
  split; [reflexivity|].
  apply (skip_to_nested_no_raise (Some "B") None ["Root"]). reflexivity.
Defined.

(** X6: [skip_to] stays within the current element: fed a run of complete
    siblings and then the [end_elem] of the enclosing element, it returns,
    at that [end_elem] at the latest, having forwarded siblings only. *)
Theorem skip_to_returns_in_element (name : option string)
  (attr_test : option (attrs_t -> bool)) (sibs : list event) (n : string)
  (rest : list event) :
  siblings (fun _ _ => true) sibs ->
  exists out b item rest',
    skip_to name attr_test (sibs ++ end_elem n :: rest)
    = (out, Returned (b, item) rest')
    /\ exists more, sibs = out ++ more.
Proof.
  unfold skip_to. generalize (fun (_ : string) (_ : attrs_t) => true) as ok.
  intros ok.
  induction 1 as [ok|ok c l _ IH|ok l _ IH|ok m a body l _ Hb _ _ IH].
  - exists [], false, (end_elem n), rest. split; [reflexivity|]. now exists [].
  - destruct IH as (out & b & item & rest' & E & more & ->).
    exists (chars c :: out), b, item, rest'. simpl. rewrite E.
    split; [reflexivity|]. now exists more.
  - destruct IH as (out & b & item & rest' & E & more & ->).
    exists (noop :: out), b, item, rest'. simpl. rewrite E.
    split; [reflexivity|]. now exists more.
  - destruct IH as (out & b & item & rest' & E & more & ->).
    simpl.
    destruct (negb (is_None name && is_None attr_test) && true
              && match name with None => true | Some x => String.eqb m x end
              && match attr_test with None => true | Some t => t a end).
    + exists [], true, (start_elem m a),
        ((body ++ end_elem m :: out ++ more) ++ end_elem n :: rest).
      split; [reflexivity|].
      now exists (start_elem m a :: body ++ end_elem m :: out ++ more).
    + rewrite <- app_assoc. simpl.
      rewrite (skip_to_loop_nested _ _ _ _ Hb) by easy.
      simpl. rewrite String.eqb_refl, E.
      exists (start_elem m a :: body ++ end_elem m :: out), b, item, rest'.
      unfold sent, ahead. simpl.
      split; [reflexivity|].
      exists more. simpl. now rewrite <- !app_assoc.
Qed.

Lemma skip_to_returns_in_element_witness :
  siblings (fun _ _ => true) [start_elem "A" []; chars "x"; end_elem "A"]
  /\ exists out b item rest',
       skip_to (Some "B") None
         ([start_elem "A" []; chars "x"; end_elem "A"] ++ end_elem "Root" :: [])
       = (out, Returned (b, item) rest')
       /\ exists more, [start_elem "A" []; chars "x"; end_elem "A"] = out ++ more.
Proof.
  assert (H : siblings (fun _ _ => true)
                [start_elem "A" []; chars "x"; end_elem "A"]).
  { apply (siblings_elem _ "A" [] [chars "x"] []); [reflexivity| |constructor].
    repeat constructor. }
  split; [exact H|].
  exact (skip_to_returns_in_element (Some "B") None _ "Root" [] H).
Defined.

(** X7: when no element at the current level has the name, [set_content]
    forwards the siblings, inserts a new element with the name, no
    attributes and the content as the last child, and returns the
    [end_elem] of the enclosing element without forwarding it. *)
Theorem set_content_inserts (name content : string) (sibs : list event)
  (n : string) (rest : list event) :
  siblings (no_match (Some name) None) sibs ->
  set_content name content (sibs ++ end_elem n :: rest)
  = (sibs ++ [start_elem name []; chars content; end_elem name],
     Returned (end_elem n) rest).
Proof.
  intros Hs. unfold set_content.
  gen_returned (skip_to_end (Some name) None sibs n rest Hs).
  rewrite send_element_run. reflexivity.
Qed.

Lemma set_content_inserts_witness :
  siblings (no_match (Some "B") None) [start_elem "A" []; end_elem "A"]
  /\ set_content "B" "v" ([start_elem "A" []; end_elem "A"] ++ end_elem "Root" :: [])
     = ([start_elem "A" []; end_elem "A"]
        ++ [start_elem "B" []; chars "v"; end_elem "B"],
        Returned (end_elem "Root") []).
Proof.
  assert (H : siblings (no_match (Some "B") None)
                [start_elem "A" []; end_elem "A"]).
  { apply (siblings_elem _ "A" [] [] []); [reflexivity|constructor|constructor]. }
  split; [exact H|].
  exact (set_content_inserts "B" "v" _ "Root" [] H).
Defined.



Lemma join_split (sep : ascii) (s : string) :
  Str.join (String sep "") (Str.split sep s) = s.
Proof.
  induction s as [|c s IH]; [reflexivity|].
  pose proof (split_nonempty sep s) as Hne.
  simpl. destruct (Ascii.eqb c sep) eqn:E.
  - apply Ascii.eqb_eq in E as ->.
    destruct (Str.split sep s) as [|h t]; [easy|].
    change (Str.join (String sep "") ("" :: h :: t))
      with ("" +:+ String sep "" +:+ Str.join (String sep "") (h :: t)).
    now rewrite IH.
  - destruct (Str.split sep s) as [|h t]; [easy|].
    destruct t as [|h' t].
    + simpl in *. now rewrite IH.
    + change (Str.join (String sep "") (String c h :: h' :: t))
        with (String c h +:+ String sep "" +:+ Str.join (String sep "") (h' :: t)).
      change (Str.join (String sep "") (h :: h' :: t))
        with (h +:+ String sep "" +:+ Str.join (String sep "") (h' :: t)) in IH.
      now rewrite append_cons, IH.
Qed.

(** X8: the strings [to_strings] sends for a content line, joined by line
    feeds, are the indent, the open tag, the content and the close tag:
    splitting at the line feeds loses nothing of the content. *)
Theorem to_strings_content_join (indent : Z) (name : string) (attrs : attrs_t)
  (content : string) :
  Str.join (String Str.LF "")
    (to_strings_item (indent, content_elem_line name attrs content))
  = xml_indent indent +:+ xml_tag_open_elem name attrs +:+ content
    +:+ xml_tag_close_elem name.
Proof. apply join_split. Qed.

Lemma escape_attr_clean (v : string) :
  Str.contains "<" (escape_attr v) = false
  /\ Str.contains Str.LF (escape_attr v) = false
  /\ Str.contains Str.CR (escape_attr v) = false
  /\ Str.contains Str.TAB (escape_attr v) = false.
Proof.
  unfold escape_attr. repeat split.
  - do 3 (apply contains_replace; [reflexivity|right]).
    apply contains_replace; [reflexivity|now left].
  - do 2 (apply contains_replace; [reflexivity|right]).
    apply contains_replace; [reflexivity|now left].
  - apply contains_replace; [reflexivity|right].
    apply contains_replace; [reflexivity|now left].
  - apply contains_replace; [reflexivity|now left].
Qed.

(** X9: an attribute value is written between two quotes of one kind,
    double or single, and what is between them has no quote of that kind,
    no [<], and no line feed, carriage return or tab. *)
Theorem quoteattr_delimited (v : string) :
  exists q body,
    quoteattr v = String q (body +:+ String q "")
    /\ (q = dquote \/ q = squote)
    /\ Str.contains q body = false
    /\ Str.contains "<" body = false
    /\ Str.contains Str.LF body = false
    /\ Str.contains Str.CR body = false
    /\ Str.contains Str.TAB body = false.
Proof.
  destruct (escape_attr_clean v) as (Hlt & Hlf & Hcr & Htab).
  unfold quoteattr.
  destruct (Str.contains dquote (escape_attr v)) eqn:D;
    [destruct (Str.contains squote (escape_attr v)) eqn:Q|].
  - exists dquote, (Str.replace dquote "&quot;" (escape_attr v)).
    split; [reflexivity|]. split; [now left|].
    repeat split; apply contains_replace; try reflexivity; auto.
  - exists squote, (escape_attr v). repeat split; auto.
  - exists dquote, (escape_attr v). repeat split; auto.
Qed.

Lemma feed_indent_cons (d : Z) (x : line_item) (lines : list line_item) :
  snd (feed compute_indent_step d (x :: lines))
  = ((d - closing x)%Z, x)
    :: snd (feed compute_indent_step (d + depth_after [x])%Z lines).
Proof.
  cbn [feed].
  destruct (compute_indent_step d x) as [d' o] eqn:E.
  assert (d' = (d + depth_after [x])%Z /\ o = [((d - closing x)%Z, x)]) as [-> ->].
  { destruct x; injection E as <- <-; simpl; split; try f_equal; try f_equal; lia. }
  destruct (feed compute_indent_step _ lines). reflexivity.
Qed.

Lemma feed_indent_lookup (lines : list line_item) :
  forall (d : Z) (i : nat),
    snd (feed compute_indent_step d lines) !! i
    = (fun line => ((d + depth_after (take i lines) - closing line)%Z, line))
      <$> lines !! i.
Proof.
  induction lines as [|x lines IH]; intros d i; [reflexivity|].
  rewrite feed_indent_cons. destruct i as [|i].
  - simpl. do 2 f_equal. lia.
  - cbn [lookup list_lookup take]. rewrite IH.
    destruct (lines !! i) as [y|]; [|reflexivity].
    simpl. do 2 f_equal. destruct x; simpl; lia.
Qed.

Lemma depth_after_app (l1 l2 : list line_item) :
  depth_after (l1 ++ l2) = (depth_after l1 + depth_after l2)%Z.
Proof.
  induction l1 as [|x l1 IH]; [reflexivity|].
  destruct x; simpl; rewrite IH; lia.
Qed.

(** X10: [compute_indent] hands every line on, in order, with an indent
    that is the number of start lines less the number of end lines before
    it, one less for an end line; so the end line of an element gets the
    indent of its start line when the lines between them balance. *)
Theorem compute_indent_depth (lines : list line_item) :
  (forall i,
     compute_indent lines !! i
     = (fun line => ((depth_after (take i lines) - closing line)%Z, line))
       <$> lines !! i)
  /\ (forall pre name attrs body n post,
        lines = pre ++ start_elem_line name attrs :: body ++ end_elem_line n :: post ->
        depth_after body = 0%Z ->
        compute_indent lines !! length pre
        = Some (depth_after pre, start_elem_line name attrs)
        /\ compute_indent lines !! (length pre + S (length body))%nat
           = Some (depth_after pre, end_elem_line n)).
Proof.
  assert (H : forall i,
     compute_indent lines !! i
     = (fun line => ((depth_after (take i lines) - closing line)%Z, line))
       <$> lines !! i).
  { intros i. unfold compute_indent. rewrite feed_indent_lookup.
    destruct (lines !! i); [|reflexivity]. simpl. do 2 f_equal. }
  split; [exact H|].
  intros pre name attrs body n post -> Hb. rewrite !H. split.
  - rewrite list_lookup_middle by reflexivity.
    rewrite take_app_length. simpl. do 2 f_equal. lia.
  - replace (pre ++ start_elem_line name attrs :: body ++ end_elem_line n :: post)
      with ((pre ++ start_elem_line name attrs :: body) ++ end_elem_line n :: post)
      by (now rewrite <- app_assoc).
    rewrite list_lookup_middle by (rewrite length_app; simpl; lia).
    replace (length pre + S (length body))%nat
      with (length (pre ++ start_elem_line name attrs :: body))
      by (rewrite length_app; simpl; lia).
    rewrite take_app_length. simpl. do 2 f_equal.
    rewrite depth_after_app. simpl. lia.
Qed.

Lemma compute_indent_depth_witness :
  compute_indent
    ([start_elem_line "R" []]
     ++ start_elem_line "A" [] :: [empty_elem_line "B" []]
     ++ end_elem_line "A" :: [end_elem_line "R"]) !! length [start_elem_line "R" []]
  = Some (1%Z, start_elem_line "A" [])
  /\ compute_indent
       ([start_elem_line "R" []]
        ++ start_elem_line "A" [] :: [empty_elem_line "B" []]
        ++ end_elem_line "A" :: [end_elem_line "R"])
     !! (length [start_elem_line "R" []] + S (length [empty_elem_line "B" []]))%nat
     = Some (1%Z, end_elem_line "A").
Proof.
  exact (proj2 (compute_indent_depth _) [start_elem_line "R" []] "A" []
           [empty_elem_line "B" []] "A" [end_elem_line "R"] eq_refl eq_refl).
Defined.

(** X11: [line_writer] writes the lines with the newline between them:
    nothing ahead of the first line and no newline after the last. *)
Theorem line_writer_separates (newline : string) (lines : list string) :
  line_writer newline lines = Str.join newline lines
  /\ forall line, line_writer newline (lines ++ [line])
       = (if is_empty lines then "" else line_writer newline lines +:+ newline)
         +:+ line.
Proof.
  split; [apply line_writer_join|].
  intros line. rewrite !line_writer_join.
  destruct lines as [|x l]; [reflexivity|].
  cbn [is_empty app]. rewrite !join_cons, map_app, concat_app. simpl.
  now rewrite append_nil_r, !append_assoc.
Qed.

(** X12: [on_start_element] pairs the flat list of names and values that
    expat passes back into the attributes, in the order of the document,
    when the names are distinct. *)
Theorem on_start_element_order (name : string) (attrs : attrs_t) :
  Layout.distinct_names attrs = true ->
  on_call (StartElement name (Layout.flat_attrs attrs)) = start_elem name attrs.
Proof. apply on_call_start. Qed.

Lemma on_start_element_order_witness :
  Layout.distinct_names [("b", "1"); ("a", "2")] = true
  /\ on_call (StartElement "E" (Layout.flat_attrs [("b", "1"); ("a", "2")]))
     = start_elem "E" [("b", "1"); ("a", "2")].
Proof.
  split; [reflexivity|].
  apply (on_start_element_order "E" [("b", "1"); ("a", "2")]). reflexivity.
Defined.



Lemma nested_filter_chars (items : list event) :
  forall st stack,
    nested stack (filter_chars_from st items) = nested stack items.
Proof.
  induction items as [|i items IH]; intros st stack; [reflexivity|].
  rewrite filter_chars_from_cons.
  destruct i as [n a|n|c|]; simpl.
  - apply IH.
  - assert (E : forall extra l,
               forallb is_text extra = true ->
               nested stack (extra ++ l) = nested stack l).
    { induction extra as [|x extra IHx]; intros l Hx; [reflexivity|].
      simpl in Hx. apply andb_true_iff in Hx as [Hx1 Hx2].
      destruct x; try discriminate; simpl; now apply IHx. }
    rewrite <- app_assoc, E.
    + simpl. destruct stack as [|e stack]; [reflexivity|]. now rewrite IH.
    + destruct (content st); [|reflexivity].
      destruct (has_content st); [|reflexivity]. now destruct (_ && _).
  - destruct (content st); simpl; apply IH.
  - apply IH.
Qed.

Lemma to_lines_ready (items : list event) :
  forall st stack,
    nested stack items = true ->
    text_before_endb items = true ->
    tl_ready st stack items = true ->
    exists lines st', feed_exn to_lines_step st items = (lines, inr st').
Proof.
  induction items as [|i items IH]; intros st stack N T R;
    [now exists [], st|].
  assert (K : forall st' o stack',
             to_lines_step st i = inr (st', o) ->
             nested stack' items = true ->
             tl_ready st' stack' items = true ->
             exists lines st'', feed_exn to_lines_step st (i :: items)
                                = (lines, inr st'')).
  { intros st' o stack' E N' R'.
    apply andb_true_iff in T as [_ T].
    destruct (IH st' stack' N' T R') as (lines & st'' & F).
    rewrite (feed_exn_step _ _ _ _ _ _ E), F. now exists (o ++ lines), st''. }
  simpl in T. apply andb_true_iff in T as [T1 T2].
  destruct i as [n a|n|c|]; simpl in N.
  - (* start_elem *)
    destruct st as [|name attrs|name attrs content]; simpl in R.
    + apply (K (at_post_start_elem n a) [] (n :: stack) eq_refl N).
      simpl. apply String.eqb_refl.
    + apply (K (at_post_start_elem n a) [start_elem_line name attrs] (n :: stack)
               eq_refl N).
      simpl. apply String.eqb_refl.
    + apply andb_true_iff in R as [_ R]. discriminate.
  - (* end_elem *)
    destruct stack as [|e stack]; [discriminate|].
    apply andb_true_iff in N as [E N]. apply String.eqb_eq in E as ->.
    destruct st as [|name attrs|name attrs content]; simpl in R.
    + now apply (K at_to_lines [end_elem_line n] stack eq_refl N).
    + apply String.eqb_eq in R as ->.
      apply (K at_to_lines [empty_elem_line name attrs] stack); [|exact N|easy].
      simpl. now rewrite String.eqb_refl.
    + apply andb_true_iff in R as [R _]. apply String.eqb_eq in R as ->.
      apply (K at_to_lines [content_elem_line name attrs content] stack);
        [|exact N|easy].
      simpl. now rewrite String.eqb_refl.
  - (* chars *)
    simpl in T1.
    destruct st as [|name attrs|name attrs content]; simpl in R.
    + now apply (K at_to_lines [] stack eq_refl N).
    + apply (K (at_elem_chars name attrs ("" +:+ c)) [] stack eq_refl N).
      simpl. rewrite R. now destruct items as [|[] items].
    + apply andb_true_iff in R as [_ R]. discriminate.
  - (* noop *)
    destruct st as [|name attrs|name attrs content]; simpl in R.
    + now apply (K at_to_lines [] stack eq_refl N).
    + now apply (K at_to_lines [start_elem_line name attrs] stack eq_refl N).
    + apply andb_true_iff in R as [_ R]. discriminate.
Qed.

Lemma run_pipeline_nested (cs : list expat_call) :
  nested [] (map on_call cs) = true ->
  snd (run_pipeline no_filter cs) = None.
Proof.
  intros N. unfold run_pipeline, no_filter, genoutput, genoutput_lines, to_lines.
  destruct (to_lines_ready (geninput (map on_call cs)) at_to_lines [])
    as (lines & st & E).
  - unfold geninput, filter_chars. now rewrite nested_filter_chars.
  - apply filter_chars_from_calls_text.
  - reflexivity.
  - now rewrite E.
Qed.

(** X14: with no filter the assertions of the pipeline hold on every
    well-nested sequence of handler calls, cut short or not: [filter_file]
    raises nothing and writes the output file. *)
Theorem filter_file_no_filter_completes ParseFile (fs : gmap string string)
  (input_filename output_filename text : string) :
  fs !! input_filename = Some text ->
  nested [] (map on_call (calls (ParseFile text))) = true ->
  exists written stderr,
    filter_file ParseFile fs input_filename None output_filename
    = (<[output_filename := written]> fs, Completed stderr).
Proof.
  intros Hf N. unfold filter_file. rewrite Hf.
  pose proof (run_pipeline_nested _ N) as E.
  destruct (run_pipeline no_filter _) as [t e]. simpl in E. subst e. eauto.
Qed.

Lemma filter_file_no_filter_completes_witness :
  let P (_ : string) :=
    Parse [StartElement "A" []; CharacterData "x"; StartElement "B" []]
          (Some "no element found") in
  exists written stderr,
    filter_file P {["p.vcxproj" := "<A>x<B>"]} "p.vcxproj" None "q.vcxproj"
    = (<["q.vcxproj" := written]> {["p.vcxproj" := "<A>x<B>"]}, Completed stderr).
Proof.
  intros P.
  apply (filter_file_no_filter_completes P _ "p.vcxproj" "q.vcxproj" "<A>x<B>").
  - apply lookup_singleton_eq.
  - reflexivity.
Defined.

Lemma to_lines_step_elements st item st' o :
  to_lines_step st item = inr (st', o) ->
  held st ++ opened item = flat_map line_elements o ++ held st'.
Proof.
  destruct st as [|name attrs|name attrs content];
    destruct item as [n a|n|c|]; simpl;
    try destruct (String.eqb n name); try destruct (negb _);
    intros [= <- <-]; reflexivity.
Qed.

Lemma feed_to_lines_elements (items : list event) :
  forall st lines st',
    feed_exn to_lines_step st items = (lines, inr st') ->
    held st ++ flat_map opened items = flat_map line_elements lines ++ held st'.
Proof.
  induction items as [|i items IH]; intros st lines st' H.
  - injection H as <- <-. simpl. now rewrite app_nil_r.
  - simpl in H. destruct (to_lines_step st i) as [e|[s1 o]] eqn:E; [discriminate|].
    destruct (feed_exn to_lines_step s1 items) as [outs r] eqn:F.
    injection H as <- ->.
    apply to_lines_step_elements in E. apply IH in F.
    cbn [flat_map]. rewrite flat_map_app, app_assoc, E, <- !app_assoc.
    now rewrite F.
Qed.

(** X15: [to_lines] keeps the elements and their order: the elements of
    the lines it has sent, each with its attributes, followed by the one
    it still holds, are the elements of the [start_elem] items received. *)
Theorem to_lines_keeps_elements (items : list event) (lines : list line_item)
  (st : tl_state) :
  to_lines items = (lines, inr st) ->
  flat_map opened items = flat_map line_elements lines ++ held st.
Proof. intros H. now apply feed_to_lines_elements in H. Qed.

Lemma to_lines_keeps_elements_witness :
  flat_map opened
    [start_elem "R" [("k", "v")]; start_elem "A" []; end_elem "A";
     start_elem "B" []; chars "x"; end_elem "B"; start_elem "C" []]
  = flat_map line_elements
      [start_elem_line "R" [("k", "v")]; empty_elem_line "A" [];
       content_elem_line "B" [] "x"]
    ++ held (at_post_start_elem "C" []).
Proof.
  apply (to_lines_keeps_elements
           [start_elem "R" [("k", "v")]; start_elem "A" []; end_elem "A";
            start_elem "B" []; chars "x"; end_elem "B"; start_elem "C" []]).
  reflexivity.
Defined.

(** X16: [to_lines] on the items of an element: one empty-element line for
    an element with no body, one content line for an element whose body is
    a [chars] item, and for an element with a [noop] or child elements as
    its body a start line, the lines of the children and an end line. *)
Theorem to_lines_tree (n : Layout.node) :
  to_lines (Layout.items n) = (Layout.lines n, inr at_to_lines).
Proof.
  unfold to_lines. rewrite <- (app_nil_r (Layout.items n)).
  rewrite (feed_tl_node n at_to_lines [] eq_refl).
  unfold ahead. simpl. now rewrite app_nil_r.
Qed.

(** X17: what a filter receives for a document in the layout of Visual
    Studio: for every element its [start_elem] and [end_elem] with, in
    between, nothing for an empty element, one [chars] item with the
    whole text for an element with character data, the items of the
    children for a parent, and a [noop] for a parent with no child. The
    line breaks and indents between the tags do not reach the filter. *)
Theorem geninput_tree (root : Layout.node) :
  Layout.plain root = true ->
  geninput (map on_call (Layout.calls 0 root)) = Layout.items root.
Proof.
  intros Hp. unfold geninput, filter_chars, filter_chars_from.
  now rewrite (feed_fc_node root 0 fc_init Hp).
Qed.

Lemma geninput_tree_witness :
  let root :=
    Layout.Parent "Project" [("ToolsVersion", "4.0")]
      [Layout.Empty "Import" [("Project", "$(Props)")];
       Layout.Parent "ImportGroup" [] [];
       Layout.Content "Options" [] ["/a"; String Str.LF "      /b"]] in
  geninput (map on_call (Layout.calls 0 root))
  = [start_elem "Project" [("ToolsVersion", "4.0")];
     start_elem "Import" [("Project", "$(Props)")]; end_elem "Import";
     start_elem "ImportGroup" []; noop; end_elem "ImportGroup";
     start_elem "Options" []; chars ("/a" +:+ String Str.LF "      /b");
     end_elem "Options";
     end_elem "Project"].
Proof.
  intros root. apply (geninput_tree root). reflexivity.
Defined.

Lemma to_lines_step_one_line st item st' o :
  state_one_line st = true ->
  event_one_line item = true ->
  to_lines_step st item = inr (st', o) ->
  state_one_line st' = true /\ forallb line_one_line o = true.
Proof.
  intros Hs Hi.
  destruct st as [|name attrs|name attrs content];
    destruct item as [n a|n|c|]; simpl in *;
    try destruct (String.eqb n name);
    try destruct (negb (Str.truthy (Str.strip content)));
    intros [= <- <-]; simpl; rewrite ?Hs, ?Hi; split; reflexivity.
Qed.

Lemma feed_to_lines_one_line (items : list event) :
  forall st lines r,
    state_one_line st = true ->
    forallb event_one_line items = true ->
    feed_exn to_lines_step st items = (lines, r) ->
    forallb line_one_line lines = true.
Proof.
  induction items as [|i items IH]; intros st lines r Hs Hi H.
  - now injection H as <- <-.
  - simpl in H, Hi. apply andb_true_iff in Hi as [Hi1 Hi2].
    destruct (to_lines_step st i) as [e|[s1 o]] eqn:E.
    + now injection H as <- <-.
    + destruct (to_lines_step_one_line _ _ _ _ Hs Hi1 E) as [Hs1 Ho].
      destruct (feed_exn to_lines_step s1 items) as [outs r'] eqn:F.
      injection H as <- <-. rewrite forallb_app, Ho. simpl. eauto.
Qed.

Lemma split_one_line (sep : ascii) (s : string) :
  forallb (fun x => negb (Str.contains sep x)) (Str.split sep s) = true.
Proof.
  induction s as [|c s IH]; [reflexivity|].
  simpl. destruct (Ascii.eqb c sep) eqn:E.
  - simpl. exact IH.
  - destruct (Str.split sep s) as [|h t]; simpl in *.
    + now rewrite E.
    + now rewrite E.
Qed.

Lemma xml_tag_empty_elem_one_line name attrs :
  tag_one_line name attrs = true ->
  Str.contains Str.LF (xml_tag_empty_elem name attrs) = false.
Proof.
  intros [Hn Ha]%andb_true_iff. apply negb_true_iff in Hn.
  unfold xml_tag_empty_elem.
  now rewrite !contains_app, Hn, (xml_attrs_one_line _ Ha).
Qed.

Lemma xml_indent_one_line (d : Z) : Str.contains Str.LF (xml_indent d) = false.
Proof. apply contains_repeat_spaces. Qed.

Lemma to_strings_item_one_line (d : Z) (line : line_item) :
  line_one_line line = true ->
  forallb (fun s => negb (Str.contains Str.LF s)) (to_strings_item (d, line))
  = true.
Proof.
  destruct line as [name attrs|name attrs|name attrs content|name]; simpl;
    intros H.
  - apply andb_true_iff in H as [Hn Ha]. apply negb_true_iff in Hn.
    now rewrite contains_app, xml_indent_one_line,
      (xml_tag_open_elem_one_line _ _ Hn Ha).
  - now rewrite contains_app, xml_indent_one_line,
      (xml_tag_empty_elem_one_line _ _ H).
  - apply split_one_line.
  - apply negb_true_iff in H.
    now rewrite contains_app, xml_indent_one_line,
      (xml_tag_close_elem_one_line _ H).
Qed.

Lemma feed_indent_one_line (lines : list line_item) :
  forall d,
    forallb line_one_line lines = true ->
    forallb (fun s => negb (Str.contains Str.LF s))
      (flat_map to_strings_item (snd (feed compute_indent_step d lines))) = true.
Proof.
  induction lines as [|x lines IH]; intros d H; [reflexivity|].
  simpl in H. apply andb_true_iff in H as [Hx H].
  rewrite feed_indent_cons. cbn [flat_map].
  now rewrite forallb_app, (to_strings_item_one_line _ _ Hx), IH.
Qed.

Lemma bare_lf_one_line (a : string) :
  forall p rest,
    Str.contains Str.LF a = false ->
    exists p', bare_lf p (a +:+ rest) = bare_lf p' rest.
Proof.
  induction a as [|c a IH]; intros p rest H.
  - exists p. now rewrite append_nil_l.
  - simpl in H. apply orb_false_iff in H as [Hc H].
    destruct (IH (Ascii.eqb c Str.CR) rest H) as [p' E].
    exists p'. rewrite append_cons. simpl. now rewrite Hc, E.
Qed.

Lemma bare_lf_lines (lines : list string) :
  forall p,
    forallb (fun s => negb (Str.contains Str.LF s)) lines = true ->
    bare_lf p (Str.concat (map (String.append Str.CRLF) lines)) = false.
Proof.
  induction lines as [|x lines IH]; intros p H; [reflexivity|].
  simpl in H. apply andb_true_iff in H as [Hx H]. apply negb_true_iff in Hx.
  cbn [map Str.concat fold_right]. unfold Str.CRLF at 1.
  rewrite !append_cons, append_nil_l. simpl.
  destruct (bare_lf_one_line x false
              (fold_right String.append "" (map (String.append Str.CRLF) lines))
              Hx) as [p' ->].
  now apply IH.
Qed.

Lemma genoutput_text (items : list event) :
  fst (genoutput items)
  = xml_declaration
    +:+ Str.concat
          (map (String.append Str.CRLF)
             (flat_map to_strings_item (compute_indent (fst (to_lines items))))).
Proof.
  unfold genoutput, genoutput_lines.
  destruct (to_lines items) as [lines r]. cbv beta iota. cbn [fst].
  rewrite line_writer_join. unfold to_strings. now rewrite join_cons.
Qed.

(** X18: the output has CRLF line breaks only: when no name of an element
    or of an attribute has a line feed, every line feed of the text
    [genoutput] writes comes after a carriage return, those of the
    character data and of the attribute values included, and also when a
    stage raises. *)
Theorem genoutput_crlf (items : list event) :
  forallb event_one_line items = true ->
  bare_lf false (fst (genoutput items)) = false.
Proof.
  intros H. rewrite genoutput_text.
  destruct (bare_lf_one_line xml_declaration false
              (Str.concat
                 (map (String.append Str.CRLF)
                    (flat_map to_strings_item
                       (compute_indent (fst (to_lines items)))))) eq_refl)
    as [p' ->].
  apply bare_lf_lines. apply feed_indent_one_line.
  unfold to_lines. destruct (feed_exn to_lines_step at_to_lines items) as [l r] eqn:E.
  exact (feed_to_lines_one_line items at_to_lines l r eq_refl H E).
Qed.

Lemma genoutput_crlf_witness :
  fst (genoutput
         [start_elem "R" [("k", "a" +:+ String Str.LF "b")]; start_elem "A" [];
          chars ("x" +:+ String Str.LF "y"); end_elem "A"; end_elem "R"])
  = xml_declaration +:+ Str.CRLF +:+ "<R k=" +:+ String dquote "a&#10;b"
    +:+ String dquote ">" +:+ Str.CRLF +:+ "  <A>x" +:+ Str.CRLF +:+ "y</A>"
    +:+ Str.CRLF +:+ "</R>"
  /\ bare_lf false
       (fst (genoutput
               [start_elem "R" [("k", "a" +:+ String Str.LF "b")];
                start_elem "A" []; chars ("x" +:+ String Str.LF "y");
                end_elem "A"; end_elem "R"])) = false.
Proof.
  split; [reflexivity|].
  apply (genoutput_crlf
           [start_elem "R" [("k", "a" +:+ String Str.LF "b")]; start_elem "A" [];
            chars ("x" +:+ String Str.LF "y"); end_elem "A"; end_elem "R"]).
  reflexivity.
Defined.

(** X19: whatever the input holds and whatever the filter sends, the file
    a completed [filter_file] leaves as its output begins with the XML
    declaration that [to_strings] sends when it is created. *)
Theorem filter_file_writes_declaration ParseFile (fs fs' : gmap string string)
  (input_filename output_filename : string) (genfilter : option filter)
  (stderr : list string) :
  filter_file ParseFile fs input_filename genfilter output_filename
  = (fs', Completed stderr) ->
  exists more, fs' !! output_filename = Some (xml_declaration +:+ more).
Proof.
  unfold filter_file.
  destruct (fs !! input_filename) as [text|];
    [|destruct (run_pipeline _ []) as [t [e|]]; discriminate].
  unfold run_pipeline.
  destruct (match genfilter with Some f => f | None => no_filter end
              (geninput (map on_call (calls (ParseFile text))))) as [items st].
  pose proof (genoutput_text items) as E.
  destruct (genoutput items) as [t [e|]]; [discriminate|].
  destruct st; try discriminate.
  intros [= <- _]. simpl in E. rewrite E, lookup_insert_eq. eauto.
Qed.

Lemma filter_file_writes_declaration_witness :
  let P (_ : string) := Parse [] (Some "no element found") in
  let fs : gmap string string := {["p.vcxproj" := ""]} in
  filter_file P fs "p.vcxproj" None "q.vcxproj"
  = (<["q.vcxproj" := xml_declaration]> fs, Completed ["Error: no element found"])
  /\ exists more,
       <["q.vcxproj" := xml_declaration]> fs !! "q.vcxproj"
       = Some (xml_declaration +:+ more).
Proof.
  intros P fs.
  assert (H : filter_file P fs "p.vcxproj" None "q.vcxproj"
              = (<["q.vcxproj" := xml_declaration]> fs,
                 Completed ["Error: no element found"])) by reflexivity.
  split; [exact H|].
  exact (filter_file_writes_declaration P fs _ "p.vcxproj" "q.vcxproj" None _ H).
Defined.

Lemma set_content_run name content items :
  set_content name content items =
  match skip_to (Some name) None items with
  | (o, Returned (found, item) rest) =>
      if (found : bool) then
        match item with
        | start_elem _ attrs =>
            match rest with
            | [] => (o, Suspended)
            | it :: r =>
                if is_chars it then
                  match skip_to None None r with
                  | (o2, Returned _ r3) =>
                      let new :=
                        [start_elem name attrs; chars content; end_elem name] in
                      match skip_to (Some name) None r3 with
                      | (o3, Returned (found3, it4) r4) =>
                          if (found3 : bool)
                          then (o ++ o2 ++ new ++ o3,
                                Raised (AssertionError
                                          (Some ("Duplicate element: " +:+ name))))
                          else (o ++ o2 ++ new ++ o3, Returned it4 r4)
                      | (o3, Raised e) => (o ++ o2 ++ new ++ o3, Raised e)
                      | (o3, Suspended) => (o ++ o2 ++ new ++ o3, Suspended)
                      end
                  | (o2, Raised e) => (o ++ o2, Raised e)
                  | (o2, Suspended) => (o ++ o2, Suspended)
                  end
                else (o, Raised (AssertionError None))
            end
        | _ => (o, Raised (KeyError "attrs"))
        end
      else (o ++ [start_elem name []; chars content; end_elem name],
            Returned item rest)
  | (o, Raised e) => (o, Raised e)
  | (o, Suspended) => (o, Suspended)
  end.
Proof.
  unfold set_content.
  destruct (skip_to (Some name) None items) as [o [[found item] rest|e|]] eqn:E.
  - gen_returned E. destruct found.
    + destruct item as [n attrs| | |]; try (unfold ahead; simpl; now rewrite app_nil_r).
      destruct rest as [|it r].
      { unfold ahead. simpl. now rewrite app_nil_r. }
      rewrite yield_run. destruct (is_chars it).
      2:{ rewrite assert_false_run. unfold ahead. simpl. now rewrite app_nil_r. }
      rewrite assert_true_run. cbv beta.
      destruct (skip_to None None r) as [o2 [[b2 it3] r3|e|]] eqn:E2.
      * gen_returned E2. rewrite send_element_run. cbv beta.
        destruct (skip_to (Some name) None r3) as [o3 [[b3 it4] r4|e|]] eqn:E3.
        -- gen_returned E3. destruct b3; cbn [negb].
           ++ rewrite assert_false_run. unfold ahead. simpl.
              rewrite ?app_nil_r, <- ?app_assoc. reflexivity.
           ++ rewrite assert_true_run. unfold ahead. simpl.
              rewrite ?app_nil_r, <- ?app_assoc. reflexivity.
        -- rewrite (gen_bind_raised _ _ _ _ _ E3). unfold ahead. simpl.
           rewrite ?app_nil_r, <- ?app_assoc. reflexivity.
        -- rewrite (gen_bind_suspended _ _ _ _ E3). unfold ahead. simpl.
           rewrite ?app_nil_r, <- ?app_assoc. reflexivity.
      * now rewrite (gen_bind_raised _ _ _ _ _ E2).
      * now rewrite (gen_bind_suspended _ _ _ _ E2).
    + rewrite send_element_run. unfold ahead. simpl.
      rewrite ?app_nil_r. reflexivity.
  - now rewrite (gen_bind_raised _ _ _ _ _ E).
  - now rewrite (gen_bind_suspended _ _ _ _ E).
Qed.

Lemma skip_to_returned_siblings name attr_test items out b item rest :
  skip_to name attr_test items = (out, Returned (b, item) rest) ->
  items = out ++ item :: rest
  /\ siblings (no_match name attr_test) out
  /\ if b then
       exists n attrs,
         item = start_elem n attrs /\ no_match name attr_test n attrs = false
     else exists n, item = end_elem n.
Proof.
  intros H. unfold skip_to in H.
  pose proof (skip_to_loop_closes _ _ _ _ _ _ _ H) as Hc.
  apply skip_to_loop_returned in H as (-> & _ & Hr).
  apply skip_to_loop_returned_item in Hr.
  repeat split; [|exact Hr]. now inversion Hc.
Qed.

(** X20: whenever [set_content] returns, the item it returns is an
    [end_elem], and what it sent is: siblings none of which has the name;
    then whatever the child found held after its first [chars] item
    (nothing, on a stream in which every [chars] has an [end_elem] next);
    then one element with the name and the content given as its only
    body; then siblings none of which has the name. Either that element
    was appended after all the siblings, with no attributes, or it stands
    for the first child with the name and has the attributes of that
    child. *)
Theorem set_content_postcondition (name content : string)
  (items out : list event) (item : event) (rest : list event) :
  set_content name content items = (out, Returned item rest) ->
  (exists n, item = end_elem n)
  /\ exists pre body attrs post,
       out = pre ++ body
             ++ [start_elem name attrs; chars content; end_elem name] ++ post
       /\ siblings (no_match (Some name) None) pre
       /\ siblings (fun _ _ => true) body
       /\ siblings (no_match (Some name) None) post
       /\ ((body = [] /\ attrs = [] /\ post = []
            /\ items = pre ++ item :: rest)
           \/ exists c x,
                items = pre ++ start_elem name attrs :: chars c :: body
                            ++ end_elem x :: post ++ item :: rest).
Proof.
  rewrite set_content_run.
  destruct (skip_to (Some name) None items) as [o [[b it] r|e|]] eqn:E1;
    try discriminate.
  apply skip_to_returned_siblings in E1 as (Hi & Ho & Hit).
  destruct b.
  - destruct Hit as (n & attrs & -> & Hn).
    assert (n = name) as ->.
    { unfold no_match in Hn. simpl in Hn. rewrite andb_true_r in Hn.
      apply negb_false_iff, String.eqb_eq in Hn. exact Hn. }
    destruct r as [|it r]; [discriminate|].
    destruct it as [| |c|]; try discriminate. cbn [is_chars].
    destruct (skip_to None None r) as [o2 [[b2 it3] r3|e|]] eqn:E2;
      try discriminate.
    apply skip_to_returned_siblings in E2 as (Hi2 & Ho2 & Hit3).
    destruct b2.
    { destruct Hit3 as (? & ? & _ & ?). discriminate. }
    destruct Hit3 as [x ->].
    destruct (skip_to (Some name) None r3) as [o3 [[b3 it4] r4|e|]] eqn:E3;
      try discriminate.
    apply skip_to_returned_siblings in E3 as (Hi3 & Ho3 & Hit4).
    destruct b3; [discriminate|].
    intros [= <- <- <-]. split; [exact Hit4|].
    exists o, o2, attrs, o3.
    split; [reflexivity|]. split; [exact Ho|].
    split; [eapply siblings_weaken; [|exact Ho2]; reflexivity|].
    split; [exact Ho3|].
    right. exists c, x. now rewrite Hi, Hi2, Hi3.
  - intros [= <- <- <-]. split; [exact Hit|].
    exists o, [], [], [].
    split; [reflexivity|]. split; [exact Ho|].
    split; [constructor|]. split; [constructor|].
    left. now repeat split.
Qed.

Lemma set_content_postcondition_witness :
  let items :=
    [start_elem "A" []; end_elem "A"; start_elem "B" [("k", "1")]; chars "old";
     end_elem "B"; noop; end_elem "Root"; chars "more"] in
  let out :=
    [start_elem "A" []; end_elem "A"; start_elem "B" [("k", "1")]; chars "new";
     end_elem "B"; noop] in
  set_content "B" "new" items = (out, Returned (end_elem "Root") [chars "more"])
  /\ (exists n, end_elem "Root" = end_elem n)
  /\ exists pre body attrs post,
       out = pre ++ body
             ++ [start_elem "B" attrs; chars "new"; end_elem "B"] ++ post
       /\ siblings (no_match (Some "B") None) pre
       /\ siblings (fun _ _ => true) body
       /\ siblings (no_match (Some "B") None) post
       /\ ((body = [] /\ attrs = [] /\ post = []
            /\ items = pre ++ end_elem "Root" :: [chars "more"])
           \/ exists c x,
                items = pre ++ start_elem "B" attrs :: chars c :: body
                            ++ end_elem x :: post
                            ++ end_elem "Root" :: [chars "more"]).
Proof.
  intros items out.
  assert (H : set_content "B" "new" items
              = (out, Returned (end_elem "Root") [chars "more"])) by reflexivity.
  split; [exact H|].
  exact (set_content_postcondition "B" "new" items out _ _ H).
Defined.

(** X21: the last [set_content] wins: on a stream in which every [chars]
    has an [end_elem] next, setting the content to [c2] in what a first
    [set_content] with [c1] sent and left gives what setting it to [c2]
    in the first place gives. *)
Theorem set_content_overwrite (name c1 c2 : string) (items out : list event)
  (item : event) (rest : list event) :
  text_before_end items ->
  set_content name c1 items = (out, Returned item rest) ->
  set_content name c2 (out ++ item :: rest) = set_content name c2 items.
Proof.
  intros HN H.
  rewrite set_content_run in H. rewrite (set_content_run name c2 items).
  destruct (skip_to (Some name) None items) as [o [[b it] r|e|]] eqn:E1;
    try discriminate.
  destruct (skip_to_loop_returned _ _ _ _ _ _ _ _ E1) as (Hi & Hm & Hr).
  destruct b.
  - destruct (skip_to_returned_true _ _ _ Hr) as [attrs ->].
    destruct r as [|it r]; [discriminate|].
    destruct it as [| |c|]; try discriminate. cbn [is_chars] in *.
    subst items.
    apply text_before_end_app_r in HN.
    change (start_elem name attrs :: chars c :: r)
      with ([start_elem name attrs] ++ chars c :: r) in HN.
    apply text_before_end_app_r in HN.
    destruct (text_before_end_head _ _ HN) as (x & r' & ->).
    change (skip_to None None (end_elem x :: r'))
      with (@nil event, Returned (false, end_elem x) r') in *.
    cbv beta iota zeta in *.
    destruct (skip_to (Some name) None r') as [o3 [[b3 it4] r4|e|]] eqn:E3;
      try discriminate.
    destruct b3; [discriminate|].
    injection H as <- <- <-.
    destruct (skip_to_loop_returned _ _ _ _ _ _ _ _ E3) as (Hi3 & _ & _).
    replace ((o ++ start_elem name attrs :: chars c1 :: end_elem name :: o3)
             ++ it4 :: r4)
      with (o ++ start_elem name attrs :: chars c1 :: end_elem name :: r')
      by (rewrite Hi3, <- !app_assoc; reflexivity).
    rewrite (set_content_at_child _ _ _ _ _ _ _ Hm).
    gen_returned E3.
    cbn [negb]. rewrite assert_true_run. unfold ahead. simpl.
    now rewrite app_nil_r, <- !app_assoc.
  - injection H as <- <- <-.
    replace ((o ++ [start_elem name []; chars c1; end_elem name]) ++ it :: r)
      with (o ++ start_elem name [] :: chars c1 :: end_elem name :: it :: r)
      by (rewrite <- !app_assoc; reflexivity).
    rewrite (set_content_at_child _ _ _ _ _ _ _ Hm).
    unfold skip_to.
    gen_returned Hr.
    cbn [negb]. rewrite assert_true_run. unfold ahead. simpl.
    now rewrite app_nil_r.
Qed.

Lemma set_content_overwrite_witness :
  let items :=
    [start_elem "A" []; end_elem "A"; start_elem "B" [("k", "1")]; chars "old";
     end_elem "B"; end_elem "Root"] in
  let out :=
    [start_elem "A" []; end_elem "A"; start_elem "B" [("k", "1")]; chars "one";
     end_elem "B"] in
  text_before_end items
  /\ set_content "B" "one" items = (out, Returned (end_elem "Root") [])
  /\ set_content "B" "two" (out ++ end_elem "Root" :: [])
     = set_content "B" "two" items.
Proof.
  intros items out.
  assert (T : text_before_end items) by now apply text_before_endb_sound.
  assert (H : set_content "B" "one" items
              = (out, Returned (end_elem "Root") [])) by reflexivity.
  split; [exact T|]. split; [exact H|].
  exact (set_content_overwrite "B" "one" "two" items out _ _ T H).
Defined.

Lemma siblings_app ok l1 :
  siblings ok l1 -> forall l2, siblings ok l2 -> siblings ok (l1 ++ l2).
Proof.
  induction 1 as [ok|ok c l _ IH|ok l _ IH|ok n a body l Hn Hb _ _ IH];
    intros l2 H2.
  - exact H2.
  - simpl. constructor. now apply IH.
  - simpl. constructor. now apply IH.
  - simpl. rewrite <- app_assoc. simpl. constructor; [exact Hn|exact Hb|].
    now apply IH.
Qed.

Lemma items_siblings (n : Layout.node) :
  forall ok, (forall a, ok (node_name n) a = true) ->
    siblings ok (Layout.items n).
Proof.
  induction n as [name attrs|name attrs pieces|name attrs children IH]
    using node_induction; intros ok Hok; simpl in Hok.
  - apply (siblings_elem ok name attrs [] []); [apply Hok|constructor|constructor].
  - apply (siblings_elem ok name attrs [chars (Str.concat pieces)] []);
      [apply Hok|repeat constructor|constructor].
  - cbn [Layout.items].
    apply (siblings_elem ok name attrs _ []); [apply Hok| |constructor].
    destruct children as [|c cs]; [repeat constructor|].
    induction IH as [|c' cs' Hc _ IHcs]; [constructor|].
    cbn [flat_map]. apply siblings_app; [|exact IHcs]. now apply Hc.
Qed.

Lemma children_siblings (name : string) (children : list Layout.node) :
  none_named name children = true ->
  siblings (no_match (Some name) None) (flat_map Layout.items children).
Proof.
  induction children as [|c cs IH]; [constructor|].
  simpl. intros [Hc Hcs]%andb_true_iff.
  apply siblings_app; [|now apply IH].
  apply items_siblings. intros a. unfold no_match. simpl.
  now rewrite andb_true_r, Hc.
Qed.

Lemma set_content_child_appended name content sibs n rest :
  siblings (no_match (Some name) None) sibs ->
  set_content name content (sibs ++ end_elem n :: rest)
  = (sibs ++ [start_elem name []; chars content; end_elem name],
     Returned (end_elem n) rest).
Proof.
  intros Hs. rewrite set_content_run.
  now rewrite (skip_to_end (Some name) None sibs n rest Hs).
Qed.

Lemma set_content_child_replaced name content pre attrs c post n rest :
  siblings (no_match (Some name) None) pre ->
  siblings (no_match (Some name) None) post ->
  set_content name content
    (pre ++ [start_elem name attrs; chars c; end_elem name]
         ++ post ++ end_elem n :: rest)
  = (pre ++ [start_elem name attrs; chars content; end_elem name] ++ post,
     Returned (end_elem n) rest).
Proof.
  intros Hpre Hpost. rewrite set_content_run. cbn [app].
  rewrite (skip_to_name_found name pre attrs _ Hpre). cbn [is_chars].
  change (skip_to None None (end_elem name :: post ++ end_elem n :: rest))
    with (@nil event, Returned (false, end_elem name) (post ++ end_elem n :: rest)).
  cbv beta iota zeta.
  now rewrite (skip_to_end (Some name) None post n rest Hpost).
Qed.

Lemma genoutput_document (items : list event) (root : Layout.node)
  (st : tl_state) :
  Layout.plain root = true ->
  to_lines items = (Layout.lines root, inr st) ->
  genoutput items = (Layout.document root, None).
Proof.
  intros Hp H. unfold genoutput, genoutput_lines. rewrite H.
  unfold to_strings, compute_indent.
  destruct (feed_indent_node root 0) as [_ Hr].
  change (Z.of_nat 0) with 0%Z in Hr.
  rewrite Hr, line_writer_join, join_cons, (rendered_text root 0 Hp).
  reflexivity.
Qed.

Lemma feed_tl_children (children : list Layout.node) :
  forall st rest,
    holds_chars st = false ->
    children <> [] ->
    feed_exn to_lines_step st (flat_map Layout.items children ++ rest)
    = ahead (pending_line st ++ flat_map Layout.lines children)
        (feed_exn to_lines_step at_to_lines rest).
Proof.
  induction children as [|c cs IH]; intros st rest Hst Hne; [easy|].
  cbn [flat_map]. rewrite <- app_assoc, (feed_tl_node c _ _ Hst).
  destruct cs as [|c' cs].
  - cbn [flat_map app]. now rewrite !app_nil_r.
  - rewrite (IH at_to_lines rest eq_refl) by easy.
    rewrite ahead_ahead. cbn [pending_line app]. now rewrite <- !app_assoc.
Qed.

(** The lines of a parent whose body is the items of its children, or a
    [noop] and then the items of its children. *)
Lemma to_lines_parent name attrs (lead : list event) (children : list Layout.node) :
  children <> [] ->
  lead = [] \/ lead = [noop] ->
  to_lines (start_elem name attrs :: lead ++ flat_map Layout.items children
              ++ [end_elem name])
  = (Layout.lines (Layout.Parent name attrs children), inr at_to_lines).
Proof.
  intros Hne Hlead. unfold to_lines. cbn [Layout.lines].
  erewrite feed_exn_step by reflexivity.
  destruct Hlead as [-> | ->]; cbn [app].
  - rewrite (feed_tl_children children (at_post_start_elem name attrs) _
               eq_refl Hne).
    erewrite feed_exn_step by reflexivity.
    unfold ahead. simpl. rewrite ?app_nil_r, <- ?app_assoc. reflexivity.
  - erewrite feed_exn_step by reflexivity.
    rewrite (feed_tl_children children at_to_lines _ eq_refl Hne).
    erewrite feed_exn_step by reflexivity.
    unfold ahead. simpl. rewrite ?app_nil_r, <- ?app_assoc. reflexivity.
Qed.

Lemma concat_single (v : string) : Str.concat [v] = v.
Proof. apply append_nil_r. Qed.

Lemma upsert_filter_parent rname rattrs name v body body' :
  set_content name v (body ++ [end_elem rname])
  = (body', Returned (end_elem rname) []) ->
  pass (upsert_filter rname name v)
    (start_elem rname rattrs :: body ++ [end_elem rname])
  = Some (start_elem rname rattrs :: body' ++ [end_elem rname]).
Proof.
  intros H. unfold pass. rewrite upsert_filter_run.
  unfold skip_to. simpl. rewrite String.eqb_refl. simpl.
  now rewrite H.
Qed.

Lemma filter_file_document ParseFile (fs : gmap string string)
  (input_filename output_filename : string) (f : filter)
  (root root' : Layout.node) (out : list event) (st : tl_state) :
  Layout.plain root = true ->
  Layout.plain root' = true ->
  fs !! input_filename = Some (Layout.document root) ->
  ParseFile (Layout.document root) = Layout.parse_of root ->
  pass f (Layout.items root) = Some out ->
  to_lines out = (Layout.lines root', inr st) ->
  filter_file ParseFile fs input_filename (Some f) output_filename
  = (<[output_filename := Layout.document root']> fs, Completed []).
Proof.
  intros Hp Hp' Hf HP Hpass Hl.
  pose proof (genoutput_document _ _ _ Hp' Hl) as G.
  rewrite (filter_file_pass ParseFile fs input_filename f output_filename
             (Layout.document root) out Hf).
  - now rewrite G.
  - rewrite HP. cbn [calls Layout.parse_of].
    unfold geninput, filter_chars, filter_chars_from.
    now rewrite (feed_fc_node root 0 fc_init Hp).
  - now rewrite G.
  - now rewrite HP.
Qed.

(** X22: inserting through a file: on a document in the layout of Visual
    Studio whose root has no child with the name, [filter_file] with the
    filter that reaches the root with [skip_to] and calls [set_content]
    writes the same document with one more element, the last child of the
    root, with the name, no attributes and the content, on a line of its
    own at the indent of the children; every other line is as it was. *)
Theorem upsert_document_inserts ParseFile (fs : gmap string string)
  (input_filename output_filename rname : string) (rattrs : attrs_t)
  (children : list Layout.node) (name v : string) :
  let root := Layout.Parent rname rattrs children in
  let root' :=
    Layout.Parent rname rattrs (children ++ [Layout.Content name [] [v]]) in
  Layout.plain root = true ->
  Layout.plain_name name = true ->
  Layout.plain_text v = true ->
  none_named name children = true ->
  fs !! input_filename = Some (Layout.document root) ->
  ParseFile (Layout.document root) = Layout.parse_of root ->
  filter_file ParseFile fs input_filename (Some (upsert_filter rname name v))
    output_filename
  = (<[output_filename := Layout.document root']> fs, Completed []).
Proof.
  intros root root' Hp Hn Hv Hc Hf HP.
  assert (Hp' : Layout.plain root' = true).
  { simpl in Hp |- *. apply andb_true_iff in Hp as [Ht Hcs].
    rewrite Ht, forallb_app, Hcs. simpl.
    unfold Layout.plain_tag. simpl.
    now rewrite Hn, append_nil_r, Hv. }
  pose proof (children_siblings name children Hc) as Hs.
  set (new := [start_elem name []; chars v; end_elem name]).
  assert (Hl : forall lead, lead = [] \/ lead = [noop] ->
            to_lines (start_elem rname rattrs
                        :: (lead ++ flat_map Layout.items children ++ new)
                        ++ [end_elem rname])
            = (Layout.lines root', inr at_to_lines)).
  { intros lead Hlead.
    replace ((lead ++ flat_map Layout.items children ++ new) ++ [end_elem rname])
      with (lead ++ flat_map Layout.items
                      (children ++ [Layout.Content name [] [v]])
              ++ [end_elem rname]).
    - apply to_lines_parent; [now destruct children|exact Hlead].
    - rewrite flat_map_app. cbn [flat_map Layout.items app].
      rewrite concat_single, <- !app_assoc. reflexivity. }
  destruct children as [|c cs] eqn:Ech.
  - apply (filter_file_document ParseFile fs _ _ _ root root'
             (start_elem rname rattrs :: ([noop] ++ new) ++ [end_elem rname])
             at_to_lines Hp Hp' Hf HP).
    + apply (upsert_filter_parent rname rattrs name v [noop]).
      apply (set_content_child_appended name v [noop] rname []).
      repeat constructor.
    + apply (Hl [noop]). now right.
  - rewrite <- Ech in *.
    apply (filter_file_document ParseFile fs _ _ _ root root'
             (start_elem rname rattrs
                :: (flat_map Layout.items children ++ new) ++ [end_elem rname])
             at_to_lines Hp Hp' Hf HP).
    + replace (Layout.items root)
        with (start_elem rname rattrs
                :: flat_map Layout.items children ++ [end_elem rname])
        by (subst root; cbn [Layout.items]; now rewrite Ech).
      apply upsert_filter_parent.
      now apply set_content_child_appended.
    + apply (Hl []). now left.
Qed.

Lemma upsert_document_inserts_witness :
  let root :=
    Layout.Parent "Project" []
      [Layout.Parent "PropertyGroup" [("Label", "Globals")]
         [Layout.Content "ProjectGuid" [] ["{1}"]];
       Layout.Empty "Import" [("Project", "a.props")]] in
  let root' :=
    Layout.Parent "Project" []
      ([Layout.Parent "PropertyGroup" [("Label", "Globals")]
          [Layout.Content "ProjectGuid" [] ["{1}"]];
        Layout.Empty "Import" [("Project", "a.props")]]
       ++ [Layout.Content "ProjectGuid" [] ["{2}"]]) in
  filter_file (fun _ => Layout.parse_of root)
    {["p.vcxproj" := Layout.document root]} "p.vcxproj"
    (Some (upsert_filter "Project" "ProjectGuid" "{2}")) "q.vcxproj"
  = (<["q.vcxproj" := Layout.document root']>
       {["p.vcxproj" := Layout.document root]}, Completed []).
Proof.
  intros root root'.
  apply (upsert_document_inserts (fun _ => Layout.parse_of root) _
           "p.vcxproj" "q.vcxproj" "Project" []
           [Layout.Parent "PropertyGroup" [("Label", "Globals")]
              [Layout.Content "ProjectGuid" [] ["{1}"]];
            Layout.Empty "Import" [("Project", "a.props")]]
           "ProjectGuid" "{2}").
  - reflexivity.
  - reflexivity.
  - reflexivity.
  - reflexivity.
  - apply lookup_singleton_eq.
  - reflexivity.
Defined.

(** X23: replacing through a file: when one child of the root has the
    name and holds character data, [filter_file] with that filter writes
    the same document with the content given in place of the text of that
    child, its attributes and place kept; every other line is as it was. *)
Theorem upsert_document_replaces ParseFile (fs : gmap string string)
  (input_filename output_filename rname : string) (rattrs : attrs_t)
  (before after : list Layout.node) (name : string) (attrs : attrs_t)
  (pieces : list string) (v : string) :
  let root :=
    Layout.Parent rname rattrs
      (before ++ Layout.Content name attrs pieces :: after) in
  let root' :=
    Layout.Parent rname rattrs
      (before ++ Layout.Content name attrs [v] :: after) in
  Layout.plain root = true ->
  Layout.plain_text v = true ->
  none_named name before = true ->
  none_named name after = true ->
  fs !! input_filename = Some (Layout.document root) ->
  ParseFile (Layout.document root) = Layout.parse_of root ->
  filter_file ParseFile fs input_filename (Some (upsert_filter rname name v))
    output_filename
  = (<[output_filename := Layout.document root']> fs, Completed []).
Proof.
  intros root root' Hp Hv Hb Ha Hf HP.
  assert (Hp' : Layout.plain root' = true).
  { simpl in Hp |- *. apply andb_true_iff in Hp as [Ht Hcs].
    rewrite forallb_app in Hcs. apply andb_true_iff in Hcs as [Hcb Hca].
    simpl in Hca. apply andb_true_iff in Hca as [Hcc Hca].
    apply andb_true_iff in Hcc as [Hct _].
    rewrite Ht, forallb_app, Hcb. simpl.
    now rewrite Hct, Hca, append_nil_r, Hv. }
  pose proof (children_siblings name before Hb) as Hsb.
  pose proof (children_siblings name after Ha) as Hsa.
  assert (Hne : forall x, before ++ x :: after <> [])
    by (intros x; now destruct before).
  assert (Ei : forall ps,
            Layout.items (Layout.Parent rname rattrs
                            (before ++ Layout.Content name attrs ps :: after))
            = start_elem rname rattrs
                :: (flat_map Layout.items before
                      ++ [start_elem name attrs; chars (Str.concat ps);
                          end_elem name]
                      ++ flat_map Layout.items after)
                ++ [end_elem rname]).
  { intros ps. cbn [Layout.items].
    destruct (before ++ Layout.Content name attrs ps :: after) eqn:E;
      [now apply Hne in E|].
    rewrite <- E, flat_map_app. cbn [flat_map Layout.items].
    now rewrite <- !app_assoc. }
  apply (filter_file_document ParseFile fs _ _ _ root root'
           (Layout.items root') at_to_lines Hp Hp' Hf HP).
  - subst root root'. rewrite !Ei. apply upsert_filter_parent.
    rewrite concat_single, <- !app_assoc.
    now apply set_content_child_replaced.
  - unfold to_lines. rewrite <- (app_nil_r (Layout.items root')).
    rewrite (feed_tl_node root' at_to_lines [] eq_refl).
    unfold ahead. simpl. now rewrite app_nil_r.
Qed.

Lemma upsert_document_replaces_witness :
  let root :=
    Layout.Parent "PropertyGroup" [("Label", "Globals")]
      ([Layout.Empty "Keyword" []]
       ++ Layout.Content "ProjectGuid" [("k", "1")] ["{1"; "}"]
       :: [Layout.Parent "Other" [] []]) in
  let root' :=
    Layout.Parent "PropertyGroup" [("Label", "Globals")]
      ([Layout.Empty "Keyword" []]
       ++ Layout.Content "ProjectGuid" [("k", "1")] ["{2}"]
       :: [Layout.Parent "Other" [] []]) in
  filter_file (fun _ => Layout.parse_of root)
    {["p.vcxproj" := Layout.document root]} "p.vcxproj"
    (Some (upsert_filter "PropertyGroup" "ProjectGuid" "{2}")) "p.vcxproj"
  = (<["p.vcxproj" := Layout.document root']>
       {["p.vcxproj" := Layout.document root]}, Completed []).
Proof.
  intros root root'.
  apply (upsert_document_replaces (fun _ => Layout.parse_of root) _
           "p.vcxproj" "p.vcxproj" "PropertyGroup" [("Label", "Globals")]
           [Layout.Empty "Keyword" []] [Layout.Parent "Other" [] []]
           "ProjectGuid" [("k", "1")] ["{1"; "}"] "{2}").
  - reflexivity.
  - reflexivity.
  - reflexivity.
  - reflexivity.
  - apply lookup_singleton_eq.
  - reflexivity.
Defined.

Lemma item_logger_step_shape repr prefix (d : Z) (x : event) :
  exists args,
    item_logger_step repr prefix d x
    = ((d + open_after [x])%Z, [Written args; Sent x])
    /\ hd "" args
       = prefix +:+ Str.repeat "  " (Z.to_nat (d - ends_element x)).
Proof.
  destruct x as [n a|n|c|]; cbn [item_logger_step]; eexists; split;
    try (f_equal; simpl; lia); simpl; do 3 f_equal; lia.
Qed.

Lemma item_logger_feed repr prefix (items : list event) :
  forall (d : Z),
    sent_items (snd (feed (item_logger_step repr prefix) d items)) = items
    /\ forall i,
         hd "" <$> written (snd (feed (item_logger_step repr prefix) d items)) !! i
         = (fun item =>
              prefix +:+ Str.repeat "  "
                (Z.to_nat (d + open_after (take i items) - ends_element item)))
           <$> items !! i.
Proof.
  induction items as [|x items IH]; intros d; [now split|].
  assert (E : exists args,
             snd (feed (item_logger_step repr prefix) d (x :: items))
             = Written args :: Sent x
               :: snd (feed (item_logger_step repr prefix)
                         (d + open_after [x])%Z items)
             /\ hd "" args
                = prefix +:+ Str.repeat "  " (Z.to_nat (d - ends_element x))).
  { destruct (item_logger_step_shape repr prefix d x) as (args & E & Ha).
    exists args. split; [|exact Ha]. cbn [feed]. rewrite E.
    now destruct (feed (item_logger_step repr prefix) _ items). }
  destruct E as (args & -> & Ha).
  destruct (IH (d + open_after [x])%Z) as [IH1 IH2].
  split.
  - cbn [sent_items flat_map app]. f_equal. exact IH1.
  - intros [|i].
    + simpl. rewrite Ha. do 4 f_equal. lia.
    + change (written (Written args :: Sent x
                         :: snd (feed (item_logger_step repr prefix)
                                   (d + open_after [x])%Z items)))
        with (args :: written (snd (feed (item_logger_step repr prefix)
                                      (d + open_after [x])%Z items))).
      cbn [lookup list_lookup take]. rewrite IH2.
      destruct (items !! i) as [y|]; [|reflexivity].
      simpl. do 4 f_equal. destruct x; simpl; lia.
Qed.

(** X24: [item_logger] is a pass-through: the items it sends to its
    target are those it received, in order; and it calls [writer] once for
    each, with a first argument that is the prefix and two spaces for
    every element open at that point, the element an [end_elem] closes
    not counted, and a negative count giving none. *)
Theorem item_logger_transparent (repr : string -> string) (prefix : string)
  (items : list event) :
  sent_items (item_logger repr prefix items) = items
  /\ forall i,
       hd "" <$> written (item_logger repr prefix items) !! i
       = (fun item =>
            prefix +:+ Str.repeat "  "
              (Z.to_nat (open_after (take i items) - ends_element item)))
         <$> items !! i.
Proof.
  destruct (item_logger_feed repr prefix items 0) as [H1 H2].
  split; [exact H1|]. intros i. rewrite H2.
  destruct (items !! i); [|reflexivity]. simpl. do 3 f_equal.
Qed.

(** X25: what [to_lines] refuses: after a [start_elem], character data
    that is not all whitespace followed by another [start_elem] (an
    element with both text and child elements), and an [end_elem] with
    another name, directly or after character data, raise an assertion
    error; the lines sent before are those of the items before and the
    line owed for the element held, and nothing is sent for the element
    refused. *)
Theorem to_lines_rejects (items : list event) (lines : list line_item)
  (st : tl_state) (n : string) (a : attrs_t) :
  to_lines items = (lines, inr st) ->
  holds_chars st = false ->
  let failed := (lines ++ pending_line st, inl (AssertionError None)) in
  (forall c m b rest,
     Str.all_space c = false ->
     to_lines (items ++ start_elem n a :: chars c :: start_elem m b :: rest)
     = failed)
  /\ (forall m rest,
        m <> n ->
        to_lines (items ++ start_elem n a :: end_elem m :: rest) = failed)
  /\ (forall c m rest,
        m <> n ->
        to_lines (items ++ start_elem n a :: chars c :: end_elem m :: rest)
        = failed).
Proof.
  intros H Hst failed. subst failed.
  assert (Hs : forall rest,
            to_lines (items ++ start_elem n a :: rest)
            = ahead (lines ++ pending_line st)
                (feed_exn to_lines_step (at_post_start_elem n a) rest)).
  { intros rest. rewrite to_lines_app, H.
    rewrite (feed_exn_step _ _ _ _ _ _ (to_lines_step_start st n a Hst)).
    destruct (feed_exn to_lines_step (at_post_start_elem n a) rest) as [o r].
    unfold ahead. simpl. now rewrite app_assoc. }
  repeat split.
  - intros c m b rest Hc. rewrite Hs. cbn [feed_exn to_lines_step].
    rewrite append_nil_l, strip_falsy, Hc.
    unfold ahead. simpl. now rewrite app_nil_r.
  - intros m rest Hm. rewrite Hs. cbn [feed_exn to_lines_step].
    apply String.eqb_neq in Hm. rewrite Hm.
    unfold ahead. simpl. now rewrite app_nil_r.
  - intros c m rest Hm. rewrite Hs. cbn [feed_exn to_lines_step].
    apply String.eqb_neq in Hm. rewrite Hm.
    unfold ahead. simpl. now rewrite app_nil_r.
Qed.

Lemma to_lines_rejects_witness :
  to_lines ([start_elem "R" []] ++ start_elem "A" [] :: chars "text"
              :: start_elem "B" [] :: [end_elem "B"; end_elem "A"; end_elem "R"])
  = ([] ++ pending_line (at_post_start_elem "R" []), inl (AssertionError None))
  /\ to_lines ([start_elem "R" []] ++ start_elem "A" [] :: end_elem "B" :: [])
     = ([] ++ pending_line (at_post_start_elem "R" []), inl (AssertionError None))
  /\ to_lines ([start_elem "R" []] ++ start_elem "A" [] :: chars "x"
                 :: end_elem "B" :: [])
     = ([] ++ pending_line (at_post_start_elem "R" []), inl (AssertionError None)).
Proof.
  destruct (to_lines_rejects [start_elem "R" []] [] (at_post_start_elem "R" [])
              "A" [] eq_refl eq_refl) as (H1 & H2 & H3).
  split; [|split].
  - apply H1. reflexivity.
  - apply H2. discriminate.
  - apply H3. discriminate.
Defined.

(** X26: [skip_to] with either criterion or both: after a run of complete
    siblings that do not match, the first [start_elem] at the level of the
    call that meets the criteria given (the name, the attribute test, or
    both) is returned with [True], before it is forwarded, whatever is
    nested in the siblings before. *)
Theorem skip_to_first_match (name : option string)
  (attr_test : option (attrs_t -> bool)) (sibs : list event) (n : string)
  (a : attrs_t) (rest : list event) :
  siblings (no_match name attr_test) sibs ->
  no_match name attr_test n a = false ->
  skip_to name attr_test (sibs ++ start_elem n a :: rest)
  = (sibs, Returned (true, start_elem n a) rest).
Proof.
  intros Hs Hn. unfold skip_to. rewrite (skip_to_loop_siblings _ _ _ Hs).
  unfold no_match in Hn. apply negb_false_iff in Hn.
  simpl. rewrite andb_true_r, Hn. unfold ahead. simpl. now rewrite app_nil_r.
Qed.

Lemma skip_to_first_match_witness :
  let is_debug (attrs : attrs_t) :=
    match attrs with
    | [(_, v)] => String.eqb v "Debug"
    | _ => false
    end in
  siblings (no_match None (Some is_debug))
    [start_elem "G" [("Condition", "Release")];
     start_elem "H" [("Condition", "Debug")]; end_elem "H"; end_elem "G"]
  /\ skip_to None (Some is_debug)
       ([start_elem "G" [("Condition", "Release")];
         start_elem "H" [("Condition", "Debug")]; end_elem "H"; end_elem "G"]
        ++ start_elem "G" [("Condition", "Debug")] :: [end_elem "G"])
     = ([start_elem "G" [("Condition", "Release")];
         start_elem "H" [("Condition", "Debug")]; end_elem "H"; end_elem "G"],
        Returned (true, start_elem "G" [("Condition", "Debug")]) [end_elem "G"]).
Proof.
  intros is_debug.
  assert (H : siblings (no_match None (Some is_debug))
                [start_elem "G" [("Condition", "Release")];
                 start_elem "H" [("Condition", "Debug")]; end_elem "H";
                 end_elem "G"]).
  { apply (siblings_elem _ "G" [("Condition", "Release")]
             [start_elem "H" [("Condition", "Debug")]; end_elem "H"] []);
      [reflexivity| |constructor].
    apply (siblings_elem _ "H" [("Condition", "Debug")] [] []);
      [reflexivity|constructor|constructor]. }
  split; [exact H|].
  exact (skip_to_first_match None (Some is_debug) _ "G" [("Condition", "Debug")]
           [end_elem "G"] H eq_refl).
Defined.

(** X27: [send_element] sends the [start_elem], a [chars] item when a
    content is given, the empty string included, and the [end_elem], and
    consumes nothing; [to_lines] turns them into one line: an
    empty-element line with no content, a content line with one. *)
Theorem send_element_lines (name : string) (attrs : attrs_t)
  (content : option string) (items : list event) :
  send_element name attrs content items
  = (start_elem name attrs
       :: match content with Some c => [chars c] | None => [] end
       ++ [end_elem name],
     Returned tt items)
  /\ to_lines (fst (send_element name attrs content items))
     = ([match content with
         | Some c => content_elem_line name attrs c
         | None => empty_elem_line name attrs
         end], inr at_to_lines).
Proof.
  assert (E : send_element name attrs content items
              = (start_elem name attrs
                   :: match content with Some c => [chars c] | None => [] end
                   ++ [end_elem name],
                 Returned tt items)) by now destruct content.
  split; [exact E|]. rewrite E. cbn [fst].
  destruct content as [c|]; unfold to_lines; simpl;
    now rewrite String.eqb_refl, ?append_nil_l.
Qed.

(** ** Idempotence of the upsert through files *)










